(** * truck_factor: knowledge-ownership engine

    A shallow embedding of the Python sources [blame_parser.py],
    [mail_mapper.py], [truck_factor.py], [compute_factor.py] and
    [file_tracking_classes.py], with the properties of the engine proved
    over it.

    Modelling conventions.
    - Python [str] is [string] (ASCII); a text file is the list of its
      lines as file iteration yields them, each with its line terminator.
    - Python [int] is [Z]. The parser, the decay model and the aggregator
      are modelled with floats as exact reals ([R]). The selectors, whose
      result depends on how the quotients they test are rounded, are
      written over the operations of a float arithmetic ([FloatArith]):
      what is proved of them holds for every arithmetic, binary64 (the
      arithmetic of CPython, given here on [spec_float]) and the exact one
      on [R] included.
    - A Python [dict] is an association list in insertion order.
    - A call that may raise returns [result]; the constructor [Raise]
      carries the exception class. *)

From Stdlib Require Import List String Ascii ZArith Bool Lia.
From Stdlib Require Import Reals Lra Permutation Sorted SpecFloat.
Import ListNotations.

Set Implicit Arguments.

(** ** The Python runtime the program relies on *)

Module Py.

Inductive exn : Type :=
| ZeroDivisionError
| IndexError
| ValueError
| OverflowError
| OSError
| ComplexResult.
(** [ComplexResult] is not an exception of Python: it marks the point
    where [int ** float] leaves the real numbers (negative base, fractional
    exponent: Python 3 answers with a [complex]), which this model of
    floats as reals does not follow further. *)

Inductive result (A : Type) : Type :=
| Ok (a : A)
| Raise (e : exn).
Arguments Ok {A} a.
Arguments Raise {A} e.

Definition bind {A B} (r : result A) (k : A -> result B) : result B :=
  match r with
  | Ok a => k a
  | Raise e => Raise e
  end.

Definition is_ok {A} (r : result A) : bool :=
  match r with Ok _ => true | Raise _ => false end.

Declare Scope py_scope.
Delimit Scope py_scope with py.
Notation "x <- c1 ;; c2" := (bind c1 (fun x => c2))
  (at level 61, c1 at next level, right associativity) : py_scope.
Open Scope py_scope.

(** *** Strings *)

Local Open Scope string_scope.

(** [s.startswith(p)], also [re.match] of a literal pattern. *)
Definition startswith (p s : string) : bool := String.prefix p s.

(** [\w] (which contains [\d]) on ASCII. *)
Definition is_word_char (c : ascii) : bool :=
  let n := nat_of_ascii c in
  ((48 <=? n) && (n <=? 57) || (65 <=? n) && (n <=? 90)
   || (97 <=? n) && (n <=? 122) || (n =? 95))%nat.

Definition is_digit (c : ascii) : bool :=
  let n := nat_of_ascii c in ((48 <=? n) && (n <=? 57))%nat.

(** Whitespace removed by [str.strip()]. *)
Definition is_space (c : ascii) : bool :=
  let n := nat_of_ascii c in
  ((n =? 32) || (9 <=? n) && (n <=? 13) || (28 <=? n) && (n <=? 31))%nat.

(** [re.match(r"[\d\w]{n}", s)]: the first [n] characters are word
    characters. *)
Fixpoint match_word_chars (n : nat) (s : string) : bool :=
  match n with
  | O => true
  | S n' =>
      match s with
      | EmptyString => false
      | String c s' => is_word_char c && match_word_chars n' s'
      end
  end.

(** [s.split(sep)] for a non-empty separator. [skip] counts the
    characters of a separator occurrence still to be passed over, [cur]
    is the piece being read. *)
Fixpoint split_go (sep : string) (skip : nat) (cur : string) (s : string)
  : list string :=
  match s with
  | EmptyString => [cur]
  | String c s' =>
      match skip with
      | S n => split_go sep n cur s'
      | O =>
          if String.prefix sep s
          then cur :: split_go sep (String.length sep - 1) "" s'
          else split_go sep 0 (cur ++ String c "") s'
      end
  end.

Definition split (sep s : string) : list string := split_go sep 0 "" s.

(** [sep.join(l)] *)
Fixpoint join (sep : string) (l : list string) : string :=
  match l with
  | [] => ""
  | [x] => x
  | x :: xs => x ++ sep ++ join sep xs
  end.

(** [c in s] for a one-character [c]. *)
Fixpoint contains_char (c : ascii) (s : string) : bool :=
  match s with
  | EmptyString => false
  | String d s' => Ascii.eqb c d || contains_char c s'
  end.

Fixpoint lstrip (s : string) : string :=
  match s with
  | EmptyString => EmptyString
  | String c s' => if is_space c then lstrip s' else s
  end.

Fixpoint rstrip (s : string) : string :=
  match s with
  | EmptyString => EmptyString
  | String c s' =>
      match rstrip s' with
      | EmptyString => if is_space c then EmptyString else String c EmptyString
      | r => String c r
      end
  end.

Definition strip (s : string) : string := rstrip (lstrip s).

(** Whitespace that [int()] skips around the digits of an ASCII string:
    the separators 28 to 31, which [str.strip()] removes, are refused. *)
Definition is_int_space (c : ascii) : bool :=
  let n := nat_of_ascii c in ((n =? 32) || (9 <=? n) && (n <=? 13))%nat.

Fixpoint int_lstrip (s : string) : string :=
  match s with
  | EmptyString => EmptyString
  | String c s' => if is_int_space c then int_lstrip s' else s
  end.

Fixpoint int_rstrip (s : string) : string :=
  match s with
  | EmptyString => EmptyString
  | String c s' =>
      match int_rstrip s' with
      | EmptyString =>
          if is_int_space c then EmptyString else String c EmptyString
      | r => String c r
      end
  end.

(** Decimal digits with single underscores between them, as [int()]
    accepts them; [prev_digit] tells whether the previous character was a
    digit. *)
Fixpoint digits_go (acc : Z) (prev_digit : bool) (s : string) : option Z :=
  match s with
  | EmptyString => if prev_digit then Some acc else None
  | String c s' =>
      if is_digit c
      then digits_go (10 * acc + Z.of_nat (nat_of_ascii c - 48)) true s'
      else if Ascii.eqb c "_"%char && prev_digit
           then match s' with
                | EmptyString => None
                | String d _ =>
                    if is_digit d then digits_go acc false s' else None
                end
           else None
  end.

(** [int(s)] on a string. *)
Definition int (s : string) : result Z :=
  let body sgn t :=
    match digits_go 0 false t with
    | Some n => Ok (sgn * n)%Z
    | None => Raise ValueError
    end in
  match int_rstrip (int_lstrip s) with
  | String "-"%char t => body (-1)%Z t
  | String "+"%char t => body 1%Z t
  | t => body 1%Z t
  end.

(** *** Lists *)

(** [l[i]] for [i >= 0]. *)
Definition getitem {A} (l : list A) (i : nat) : result A :=
  match nth_error l i with
  | Some a => Ok a
  | None => Raise IndexError
  end.

(** [l[-1]] *)
Definition getlast {A} (l : list A) : result A :=
  match rev l with
  | a :: _ => Ok a
  | [] => Raise IndexError
  end.

(** [s[0]] on a string: a string of one character. *)
Definition str_index0 (s : string) : result string :=
  match s with
  | String c _ => Ok (String c EmptyString)
  | EmptyString => Raise IndexError
  end.

(** The line terminator. *)
Definition nl : string := String (ascii_of_nat 10) EmptyString.

(** *** Dictionaries: association lists in insertion order *)

Definition dict (V : Type) : Type := list (string * V).

Fixpoint dict_get {V} (d : dict V) (k : string) : option V :=
  match d with
  | [] => None
  | (k', v) :: d' => if String.eqb k' k then Some v else dict_get d' k
  end.

(** [k in d] *)
Definition dict_mem {V} (d : dict V) (k : string) : bool :=
  match dict_get d k with Some _ => true | None => false end.

(** [d[k] = v]: an existing key keeps its place, a new one goes last. *)
Fixpoint dict_set {V} (d : dict V) (k : string) (v : V) : dict V :=
  match d with
  | [] => [(k, v)]
  | (k', v') :: d' =>
      if String.eqb k' k then (k', v) :: d' else (k', v') :: dict_set d' k v
  end.

(** [dict(items)] *)
Definition dict_of_items {V} (items : list (string * V)) : dict V :=
  fold_left (fun d kv => dict_set d (fst kv) (snd kv)) items [].

(** A [defaultdict(list)] read at [k]. *)
Definition dict_get_list {A} (d : dict (list A)) (k : string) : list A :=
  match dict_get d k with Some l => l | None => [] end.

(** The keys of a Python dict are pairwise distinct. *)
Definition dict_wf {V} (d : dict V) : Prop := NoDup (map fst d).

(** *** [sorted(items, key=lambda item: item[1], reverse=True)]

    Python's sort is stable, also with [reverse=True]: entries with equal
    keys keep their original order. [lt] is [<] on the keys. *)

Section Sorted.
Variable K V : Type.
Variable lt : V -> V -> bool.

Fixpoint insert_desc (x : K * V) (l : list (K * V)) : list (K * V) :=
  match l with
  | [] => [x]
  | y :: l' =>
      if lt (snd x) (snd y) then y :: insert_desc x l' else x :: l
  end.

Fixpoint sorted_desc (l : list (K * V)) : list (K * V) :=
  match l with
  | [] => []
  | x :: l' => insert_desc x (sorted_desc l')
  end.
End Sorted.

(** *** Floats as reals *)

Definition Rltb (x y : R) : bool := if Rlt_dec x y then true else false.
Definition Rleb (x y : R) : bool := if Rle_dec x y then true else false.

(** [max(l, key=operator.itemgetter(1))]: the first entry among those of
    greatest value. *)
Fixpoint max_by_value_from {K} (best : K * R) (l : list (K * R)) : K * R :=
  match l with
  | [] => best
  | x :: l' =>
      max_by_value_from (if Rltb (snd best) (snd x) then x else best) l'
  end.

Definition max_by_value {K} (l : list (K * R)) : result (K * R) :=
  match l with
  | [] => Raise ValueError
  | x :: l' => Ok (max_by_value_from x l')
  end.

(** [sum(l)] *)
Definition sumZ (l : list Z) : Z := fold_left Z.add l 0%Z.
Definition sumR (l : list R) : R := fold_left Rplus l 0%R.

(** [x / y] on floats, and on ints after conversion. *)
Definition truediv (x y : R) : result R :=
  if Req_dec_T y 0 then Raise ZeroDivisionError else Ok (x / y)%R.

(** *** Float arithmetic

    The operations on floats that the selectors use. [int_truediv] is
    [/] on two ints, which answers with the float nearest to the quotient
    and raises where it has none. *)
Class FloatArith (F : Type) : Type := {
  float_sub : F -> F -> F;
  float_truediv : F -> F -> result F;
  int_truediv : Z -> Z -> result F;
  float_lt : F -> F -> bool;
  float_le : F -> F -> bool
}.

(** The order of floats: [<] never holds in both directions, and among
    values that compare to themselves (every float but NaN, for which
    [x <= x] is false) "not less than" is transitive. *)
Class FloatOrder (F : Type) {arith : FloatArith F} : Prop := {
  float_lt_asym : forall x y : F, float_lt x y = true -> float_lt y x = false;
  float_not_lt_trans : forall x y z : F,
    float_le x x = true -> float_le y y = true -> float_le z z = true ->
    float_lt x y = false -> float_lt y z = false -> float_lt x z = false
}.
Arguments FloatOrder F {arith}.

(** The exact arithmetic on [R]. *)
#[export] Instance real_arith : FloatArith R := {|
  float_sub := Rminus;
  float_truediv := truediv;
  int_truediv := fun x y => truediv (IZR x) (IZR y);
  float_lt := Rltb;
  float_le := Rleb
|}.

(** Binary64, the arithmetic of CPython floats: 53 bits of precision,
    round to nearest with ties to even. The values are those of
    [spec_float] that [valid_binary] accepts. *)
Module Binary64.

Definition prec : Z := 53.
Definition emax : Z := 1024.

Definition sub (x y : spec_float) : spec_float := SFsub prec emax x y.

(** [x == 0]: both zeros. *)
Definition is_zero (x : spec_float) : bool :=
  match x with
  | S754_zero _ => true
  | _ => false
  end.

Definition truediv (x y : spec_float) : result spec_float :=
  if is_zero y then Raise ZeroDivisionError else Ok (SFdiv prec emax x y).

(** [x / y] on ints rounds the quotient of the two integers once, however
    large they are; a quotient beyond the greatest float raises. *)
Definition int_truediv (x y : Z) : result spec_float :=
  if (y =? 0)%Z then Raise ZeroDivisionError
  else if (x =? 0)%Z then Ok (S754_zero (y <? 0)%Z)
  else
    let '(mz, ez, lz) :=
      SFdiv_core_binary prec emax (Z.abs x) 0 (Z.abs y) 0 in
    match binary_round_aux prec emax (xorb (x <? 0)%Z (y <? 0)%Z) mz ez lz with
    | S754_infinity _ => Raise OverflowError
    | q => Ok q
    end.

Definition lt (x y : spec_float) : bool := SFltb x y.
Definition le (x y : spec_float) : bool := SFleb x y.

(** The float that the expression [x / y] on two int literals denotes;
    NaN where the division raises. *)
Definition of_ratio (x y : Z) : spec_float :=
  match int_truediv x y with
  | Ok q => q
  | Raise _ => S754_nan
  end.

End Binary64.

#[export] Instance binary64_arith : FloatArith spec_float := {|
  float_sub := Binary64.sub;
  float_truediv := Binary64.truediv;
  int_truediv := Binary64.int_truediv;
  float_lt := Binary64.lt;
  float_le := Binary64.le
|}.

(** [x ** y] for an [int] base and a [float] exponent. *)
Definition pow_int_float (x : Z) (y : R) : result R :=
  if (0 <? x)%Z then Ok (Rpower (IZR x) y)
  else if (x =? 0)%Z then
    if Rlt_dec y 0 then Raise ZeroDivisionError
    else if Req_dec_T y 0 then Ok 1%R else Ok 0%R
  else
    if Req_dec_T (IZR (Int_part y)) y
    then Ok (powerRZ (IZR x) (Int_part y))
    else Raise ComplexResult.

(** *** [range] and slices *)

(** [range(i, stop, step)] for [step > 0]; [fuel] bounds the number of
    elements, [stop] is enough. *)
Fixpoint range_from (fuel i stop step : nat) : list nat :=
  match fuel with
  | O => []
  | S fuel' =>
      if (i <? stop)%nat then i :: range_from fuel' (i + step) stop step
      else []
  end.

(** [list(range(0, stop, step))]: a step of zero is refused, a negative
    step gives no element from 0 upwards. *)
Definition range0 (stop : nat) (step : Z) : result (list nat) :=
  if (step =? 0)%Z then Raise ValueError
  else if (step <? 0)%Z then Ok []
  else Ok (range_from stop 0 stop (Z.to_nat step)).

(** [l[i:j]] for [0 <= i <= j]. *)
Definition slice {A} (l : list A) (i j : nat) : list A :=
  firstn (j - i) (skipn i l).

End Py.

Import Py.
Open Scope py_scope.

(** ** file_tracking_classes.py *)

Module FileTrackingClasses.

(** A naive [datetime]: microseconds since 1970-01-01T00:00:00. *)
Definition datetime : Type := Z.

(** [datetime.utcfromtimestamp(n)] on an int, as CPython answers on
    64-bit Linux: years outside 1..9999 are refused, a number of seconds
    that the C library cannot break down into a calendar date is an
    [OSError], one that does not fit the 64 bits of [time_t] an
    [OverflowError]. *)
Definition utcfromtimestamp (n : Z) : result datetime :=
  if ((-62135596800 <=? n) && (n <=? 253402300799))%Z
  then Ok (n * 1000000)%Z
  else if ((-67768040609740800 <=? n) && (n <=? 67768036191676799))%Z
  then Raise ValueError
  else if ((-9223372036854775808 <=? n) && (n <=? 9223372036854775807))%Z
  then Raise OSError
  else Raise OverflowError.

(** [(x - y).days]: a [timedelta] is normalised with its seconds and
    microseconds non-negative, so [days] is the floor. *)
Definition timedelta_days (x y : datetime) : Z :=
  ((x - y) / 86400000000)%Z.

Record Commit : Type := mkCommit {
  lines : Z;
  date : datetime;
  file : string
}.

(** [AuthorCommits] is only used as the annotation of a list of commits. *)
Abbreviation AuthorCommits := (list Commit).

(** [contributions] holds the [(author, value)] tuples that
    [compute_author] builds. *)
Record AuthorContribution : Type := mkAuthorContribution {
  author : string;
  contributions : list (string * R)
}.

(** The two float fields are of the type [F] of the floats at hand. *)
Record AuthorTotalKnowledge (F : Type) : Type := mkAuthorTotalKnowledge {
  atk_author : string;
  author_contribution : F;
  total_knowledge : F
}.

Record AuthorTotalAuthorship : Type := mkAuthorTotalAuthorship {
  ata_author : string;
  files_authored : Z;
  total_files : Z
}.

End FileTrackingClasses.

Import FileTrackingClasses.

(** ** blame_parser.py *)

Module BlameParser.

Local Open Scope string_scope.

(** The local variables of [parse_log]. *)
Record parse_state : Type := mkState {
  commits : dict (list Commit);
  prev : Z;
  cur_author : string;
  authorEmail : string;
  timestamp : datetime;
  authors : dict string
}.

Definition initial_state : parse_state :=
  mkState [] 0 "" "" 0%Z [].

(** [commits[k].append(c)] on the [defaultdict(list)]. *)
Definition append_commit (d : dict (list Commit)) (k : string) (c : Commit)
  : dict (list Commit) :=
  dict_set d k (dict_get_list d k ++ [c])%list.

(** One iteration of [for line in log]. *)
Definition parse_line (blame_log_path : string) (st : parse_state)
  (line : string) : result parse_state :=
  if match_word_chars 40 line then
    let commits1 :=
      if (0 <? prev st)%Z
      then append_commit (commits st) (authorEmail st)
             (mkCommit (prev st) (timestamp st) blame_log_path)
      else commits st in
    tok <- getlast (split " " line) ;;
    n <- int tok ;;
    Ok (mkState commits1 n (cur_author st) (authorEmail st) (timestamp st)
          (authors st))
  else if startswith "author " line then
    Ok (mkState (commits st) (prev st) (join " " (tl (split " " line)))
          (authorEmail st) (timestamp st) (authors st))
  else
    ts <- (if startswith "author-time " line
           then tok <- getitem (split " " line) 1 ;;
                n <- int tok ;;
                utcfromtimestamp n
           else Ok (timestamp st)) ;;
    if startswith "author-mail " line then
      after_marker <- getlast (split "author-mail " line) ;;
      after_open <- getlast (split "<" after_marker) ;;
      mail <- getitem (split ">" after_open) 0 ;;
      Ok (mkState (commits st) (prev st) (cur_author st) mail ts
            (dict_set (authors st) mail (cur_author st)))
    else
      Ok (mkState (commits st) (prev st) (cur_author st) (authorEmail st) ts
            (authors st)).

Fixpoint parse_lines (blame_log_path : string) (st : parse_state)
  (log : list string) : result parse_state :=
  match log with
  | [] => Ok st
  | line :: rest =>
      st1 <- parse_line blame_log_path st line ;;
      parse_lines blame_log_path st1 rest
  end.

(** [parse_log]: the log file at [blame_log_path] holds the lines [log]. *)
Definition parse_log (blame_log_path : string) (log : list string)
  : result (dict (list Commit)) :=
  st <- parse_lines blame_log_path initial_state log ;;
  Ok (append_commit (commits st) (authorEmail st)
        (mkCommit (prev st) (timestamp st) blame_log_path)).


(** *** The decay model

    [constants.py] is not part of the sources at hand: its
    [INITIAL_TIMESTAMP], the reference instant of a run, is a parameter. *)

Section Decay.
Variable INITIAL_TIMESTAMP : datetime.

Definition knowledge_retention_function (t : Z) (a b beta : R) : result R :=
  p <- pow_int_float (1 + t) (- beta) ;;
  Ok (a + (1 - a) * b * p)%R.

Definition asymptote : R := (19 / 100)%R.
Definition b : R := (78 / 100)%R.
Definition beta : R := (68 / 100)%R.

Definition compute_lines_value (commit : Commit) : result R :=
  let timeDelta_days := timedelta_days INITIAL_TIMESTAMP (date commit) in
  weightFactor <-
    knowledge_retention_function timeDelta_days asymptote b beta ;;
  Ok (IZR (lines commit) * weightFactor)%R.

Fixpoint contribution_value_from (value : R) (commits : list Commit)
  : result R :=
  match commits with
  | [] => Ok value
  | commit :: rest =>
      v <- compute_lines_value commit ;;
      contribution_value_from (value + v)%R rest
  end.

Definition compute_contribution_value (commits : list Commit) : result R :=
  contribution_value_from 0%R commits.

Fixpoint author_weights (items : dict AuthorCommits)
  (authorWeight : list (string * R)) : result (list (string * R)) :=
  match items with
  | [] => Ok authorWeight
  | (a, cs) :: rest =>
      v <- compute_contribution_value cs ;;
      author_weights rest (authorWeight ++ [(a, v)])%list
  end.

Definition compute_author (author_contributions : dict AuthorCommits)
  : result AuthorContribution :=
  authorWeight <- author_weights author_contributions [] ;;
  best <- max_by_value authorWeight ;;
  Ok (mkAuthorContribution (fst best) authorWeight).
End Decay.

(** [use_mailmap]: the loop over the keys of [contributions], each read
    with its value, threading [mappedContributions]. *)
Fixpoint use_mailmap_from (items : dict AuthorCommits)
  (mail_to_mail : dict string) (mappedContributions : dict AuthorCommits)
  : dict AuthorCommits :=
  match items with
  | [] => mappedContributions
  | (authorMail, cs) :: rest =>
      let mapped1 :=
        match dict_get mail_to_mail authorMail with
        | Some mappedMail =>
            dict_set mappedContributions mappedMail
              (dict_get_list mappedContributions mappedMail ++ cs)%list
        | None =>
            dict_set mappedContributions authorMail
              (dict_get_list mappedContributions authorMail ++ cs)%list
        end in
      use_mailmap_from rest mail_to_mail mapped1
  end.

Definition use_mailmap (contributions : dict AuthorCommits)
  (mail_to_mail : dict string) : dict AuthorCommits :=
  use_mailmap_from contributions mail_to_mail [].

Definition compute_knowledge_ownership (INITIAL_TIMESTAMP : datetime)
  (blame_log : string) (log : list string) (mail_to_mail : dict string)
  : result AuthorContribution :=
  author_contributions <- parse_log blame_log log ;;
  let mapped_contributions := use_mailmap author_contributions mail_to_mail in
  compute_author INITIAL_TIMESTAMP mapped_contributions.

End BlameParser.

Import BlameParser.

(** ** mail_mapper.py *)

Module MailMapper.

Local Open Scope string_scope.

(** [[s.split(">")[0] for s in tmp_mails if ">" in s]] *)
Fixpoint mails_of (tmp_mails : list string) : result (list string) :=
  match tmp_mails with
  | [] => Ok []
  | s :: rest =>
      if contains_char ">"%char s
      then m <- getitem (split ">" s) 0 ;;
           ms <- mails_of rest ;;
           Ok (m :: ms)
      else mails_of rest
  end.

(** [for mail in mails[1:]: mail_to_mail[mail] = proper_mail] *)
Definition map_aliases (mail_to_mail : dict string) (aliases : list string)
  (proper_mail : string) : dict string :=
  fold_left (fun d mail => dict_set d mail proper_mail) aliases mail_to_mail.

(** One iteration of [for contributor in git_mailmap]. *)
Definition read_line (acc : dict string * dict string) (contributor : string)
  : result (dict string * dict string) :=
  let (mail_to_mail, mail_to_name) := acc in
  c0 <- str_index0 contributor ;;
  if String.eqb c0 "#" then Ok acc
  else if String.eqb c0 "" then Ok acc
  else if String.eqb c0 nl then Ok acc
  else
    name_part <- getitem (split "<" contributor) 0 ;;
    let proper_name := strip name_part in
    let tmp_mails := split "<" contributor in
    mails <- mails_of tmp_mails ;;
    proper_mail <- getitem mails 0 ;;
    Ok (map_aliases mail_to_mail (tl mails) proper_mail,
        dict_set mail_to_name proper_mail proper_name).

Fixpoint read_lines (acc : dict string * dict string)
  (git_mailmap : list string) : result (dict string * dict string) :=
  match git_mailmap with
  | [] => Ok acc
  | contributor :: rest =>
      acc1 <- read_line acc contributor ;;
      read_lines acc1 rest
  end.

(** [read_mailmap]: the file at [path] holds the lines [git_mailmap]. The
    result is [(mail_to_mail, mail_to_name)]. *)
Definition read_mailmap (git_mailmap : list string)
  : result (dict string * dict string) :=
  read_lines ([], []) git_mailmap.

(** [names.sort(key=len, reverse=True)]: stable, longest first. *)
Definition sort_by_len (names : list string) : list string :=
  map fst (sorted_desc Nat.ltb (map (fun n => (n, String.length n)) names)).

(** The body of the loop of [map_mail_to_names]: the line of one email. *)
Definition mailmap_line (mail : string) (names0 : list string)
  : result string :=
  let names := sort_by_len names0 in
  n0 <- getitem names 0 ;;
  let s := n0 ++ " " ++ mail in
  if (1 <? List.length names)%nat
  then Ok (s ++ " " ++ join " " (tl names))
  else Ok s.

Fixpoint map_mail_to_names (mailmap : dict (list string))
  : result (list string) :=
  match mailmap with
  | [] => Ok []
  | (mail, names) :: rest =>
      s <- mailmap_line mail names ;;
      naive_mail_map <- map_mail_to_names rest ;;
      Ok (s :: naive_mail_map)
  end.

(** The loop of [format_author_output], threading [mailmap]. *)
Fixpoint group_names (authors : list string) (mailmap : dict (list string))
  : result (dict (list string)) :=
  match authors with
  | [] => Ok mailmap
  | line :: rest =>
      let pieces := split "|" line in
      name <- getitem pieces 0 ;;
      email <- getlast pieces ;;
      let mailmap1 :=
        match dict_get mailmap email with
        | None => dict_set mailmap email [name]
        | Some names => dict_set mailmap email (names ++ [name])%list
        end in
      group_names rest mailmap1
  end.

Definition format_author_output (authors : list string)
  : result (list string) :=
  mailmap <- group_names authors [] ;;
  map_mail_to_names mailmap.

(** The lines that [create_naive_mailmap] writes for the authors that
    [get_authors_of_repo] returned (a set, here in iteration order). *)
Definition naive_mailmap_lines (authors : list string)
  : result (list string) :=
  formatted_author_output <- format_author_output authors ;;
  Ok (map (fun line => line ++ nl) formatted_author_output).

End MailMapper.

Import MailMapper.

(** ** compute_factor.py *)

Module ComputeFactor.

(** The selectors sort the items of the tally and rebuild a dict from
    them before the walk. *)
Definition sorted_items_Z (authored_files : dict Z) : dict Z :=
  dict_of_items (sorted_desc Z.ltb authored_files).

(** The selectors over a float arithmetic [arith] on [F]: the type of
    the knowledge values, of [critical_loss] and of the quotients. *)
Section Selectors.
Context {F : Type} {arith : FloatArith F}.

Definition sorted_items_F (knowledge_base : dict F) : dict F :=
  dict_of_items (sorted_desc float_lt knowledge_base).

(** The [for] loop of [compute_truck_factor_from_file_authorship]:
    [knowledge_left] is an int, the quotient a float. *)
Fixpoint file_authorship_walk (knowledge : Z) (critical_loss : F)
  (sorted_authors : list (string * Z)) (knowledge_left : Z)
  (truck_factor : list AuthorTotalAuthorship)
  : result (list AuthorTotalAuthorship) :=
  match sorted_authors with
  | [] => Ok truck_factor
  | (author, files_authored) :: rest =>
      let truck_factor1 :=
        truck_factor
        ++ [mkAuthorTotalAuthorship author files_authored knowledge] in
      let knowledge_left1 := (knowledge_left - files_authored)%Z in
      ratio <- int_truediv knowledge_left1 knowledge ;;
      if float_lt ratio critical_loss
      then Ok truck_factor1
      else file_authorship_walk knowledge critical_loss rest knowledge_left1
             truck_factor1
  end.

Definition compute_truck_factor_from_file_authorship (knowledge : Z)
  (authored_files : dict Z) (critical_loss : F)
  : result (list AuthorTotalAuthorship) :=
  let knowledge_left := knowledge in
  let sorted_authors := sorted_items_Z authored_files in
  file_authorship_walk knowledge critical_loss sorted_authors knowledge_left [].

(** The [for] loop of [compute_truck_factor_from_knowledge_base]:
    [knowledge_left] is a float. *)
Fixpoint knowledge_base_walk (total_knowledge : F) (critical_loss : F)
  (sorted_owners : list (string * F)) (knowledge_left : F)
  (truck_factor : list (AuthorTotalKnowledge F))
  : result (list (AuthorTotalKnowledge F)) :=
  match sorted_owners with
  | [] => Ok truck_factor
  | (owner, knowledge) :: rest =>
      let truck_factor1 :=
        truck_factor
        ++ [mkAuthorTotalKnowledge owner knowledge total_knowledge] in
      let knowledge_left1 := float_sub knowledge_left knowledge in
      ratio <- float_truediv knowledge_left1 total_knowledge ;;
      if float_le ratio critical_loss
      then Ok truck_factor1
      else knowledge_base_walk total_knowledge critical_loss rest
             knowledge_left1 truck_factor1
  end.

Definition compute_truck_factor_from_knowledge_base (total_knowledge : F)
  (knowledge_base : dict F) (critical_loss : F)
  : result (list (AuthorTotalKnowledge F)) :=
  let knowledge_left := total_knowledge in
  let sorted_owners := sorted_items_F knowledge_base in
  knowledge_base_walk total_knowledge critical_loss sorted_owners
    knowledge_left [].

End Selectors.

(** The default value of the parameter [critical_loss]. *)
Definition default_critical_loss : R := (1 / 2)%R.

End ComputeFactor.

Import ComputeFactor.

(** ** truck_factor.py *)

Module TruckFactor.

(** [map_add_or_increment_knowledge]: the dict is updated in place; here
    the updated dict is returned. *)
Fixpoint map_add_or_increment_knowledge (knowledge_base : dict R)
  (file_knowledge_base : list (string * R)) : dict R :=
  match file_knowledge_base with
  | [] => knowledge_base
  | (author, knowledge) :: rest =>
      let knowledge_base1 :=
        match dict_get knowledge_base author with
        | None => dict_set knowledge_base author knowledge
        | Some w =>
            let new_weight := (w + knowledge)%R in
            dict_set knowledge_base author new_weight
        end in
      map_add_or_increment_knowledge knowledge_base1 rest
  end.

Definition map_add_or_increment_authorship (auhtored_files : dict Z)
  (author : string) : dict Z :=
  match dict_get auhtored_files author with
  | None => dict_set auhtored_files author 1%Z
  | Some n => dict_set auhtored_files author (n + 1)%Z
  end.

(** The body of the loop of [compute_ownership] once the per-file result
    [author_contributions] is at hand. *)
Definition add_file_result (tallies : dict Z * dict R)
  (author_contributions : AuthorContribution) : dict Z * dict R :=
  let (authored_files, knowledge_base) := tallies in
  let author := author author_contributions in
  let file_knowledge_base := contributions author_contributions in
  (map_add_or_increment_authorship authored_files author,
   map_add_or_increment_knowledge knowledge_base file_knowledge_base).

(** The two tallies after a sequence of per-file results. *)
Definition add_file_results (tallies : dict Z * dict R)
  (results : list AuthorContribution) : dict Z * dict R :=
  fold_left add_file_result results tallies.

(** The loop of [compute_ownership]; a blame log is given as its path and
    its lines. *)
Fixpoint ownership_from (INITIAL_TIMESTAMP : datetime)
  (mail_to_mail : dict string)
  (path_to_blame_logs : list (string * list string))
  (tallies : dict Z * dict R) : result (dict Z * dict R) :=
  match path_to_blame_logs with
  | [] => Ok tallies
  | (file, log) :: rest =>
      author_contributions <-
        compute_knowledge_ownership INITIAL_TIMESTAMP file log mail_to_mail ;;
      ownership_from INITIAL_TIMESTAMP mail_to_mail rest
        (add_file_result tallies author_contributions)
  end.

(** [compute_ownership], for a mailmap file that exists and holds the
    lines [mailmap]. The result is [(authored_files, knowledge_base)]. *)
Definition compute_ownership (INITIAL_TIMESTAMP : datetime)
  (mailmap : list string) (path_to_blame_logs : list (string * list string))
  : result (dict Z * dict R) :=
  maps <- read_mailmap mailmap ;;
  let mail_to_mail := fst maps in
  ownership_from INITIAL_TIMESTAMP mail_to_mail path_to_blame_logs ([], []).

(** [compute_truck_factor] on the tallies of the aggregator, which are
    modelled in the exact arithmetic: the selectors are taken there. *)
Definition compute_truck_factor (knowledge_base : dict R)
  (authored_files : dict Z)
  : result (list AuthorTotalAuthorship * list (AuthorTotalKnowledge R)) :=
  let total_files := sumZ (map snd authored_files) in
  let total_knowledge_base := sumR (map snd knowledge_base) in
  file_tf <- compute_truck_factor_from_file_authorship total_files
               authored_files default_critical_loss ;;
  knowledge_tf <- compute_truck_factor_from_knowledge_base
                    total_knowledge_base knowledge_base default_critical_loss ;;
  Ok (file_tf, knowledge_tf).

(** [list(chunks(lst, n))] *)
Definition chunks {A} (lst : list A) (n : Z) : result (list (list A)) :=
  starts <- range0 (List.length lst) n ;;
  Ok (map (fun i => slice lst i (i + Z.to_nat n)) starts).

(** [math.ceil(x / y)] for ints [x >= 0] and [y > 0]. *)
Definition ceil_div (x y : Z) : Z := ((x + y - 1) / y)%Z.

(** [file_chunks] of [generate_blame_logs], for [cpu_count] processors
    ([multiprocessing.cpu_count()] is at least 1). *)
Definition file_chunks {A} (files : list A) (cpu_count : Z)
  : result (list (list A)) :=
  chunks files (ceil_div (Z.of_nat (List.length files)) cpu_count).

(** The loop of [compute_knowlede_authorship]. *)
Fixpoint knowledge_authorship_from (INITIAL_TIMESTAMP : datetime)
  (mail_to_mail : dict string)
  (path_to_blame_logs : list (string * list string))
  (knowledge_base : dict R) : result (dict R) :=
  match path_to_blame_logs with
  | [] => Ok knowledge_base
  | (file, log) :: rest =>
      author_contributions <-
        compute_knowledge_ownership INITIAL_TIMESTAMP file log mail_to_mail ;;
      let file_knowledge_base := contributions author_contributions in
      knowledge_authorship_from INITIAL_TIMESTAMP mail_to_mail rest
        (map_add_or_increment_knowledge knowledge_base file_knowledge_base)
  end.

(** [compute_knowlede_authorship], for a mailmap file that exists and
    holds the lines [mailmap]. *)
Definition compute_knowlede_authorship (INITIAL_TIMESTAMP : datetime)
  (mailmap : list string) (path_to_blame_logs : list (string * list string))
  : result (dict R) :=
  maps <- read_mailmap mailmap ;;
  let mail_to_mail := fst maps in
  knowledge_authorship_from INITIAL_TIMESTAMP mail_to_mail
    path_to_blame_logs [].

End TruckFactor.

Import TruckFactor.

(** ** Vocabulary of the statements *)

(** In a tally, [p] is not below [q] for the comparison [lt]. *)
Definition not_below {K V} (lt : V -> V -> bool) (p q : K * V) : Prop :=
  lt (snd p) (snd q) = false.

(** Descending order of the values of a tally, on ints and on floats. *)
Definition desc_Z (p q : string * Z) : Prop := (snd q <= snd p)%Z.
Definition desc_R (p q : string * R) : Prop := (snd q <= snd p)%R.

(** The truck-factor entry of a tally item. *)
Definition authorship_entry (total : Z) (kv : string * Z)
  : AuthorTotalAuthorship :=
  mkAuthorTotalAuthorship (fst kv) (snd kv) total.

Definition knowledge_entry {F} (total : F) (kv : string * F)
  : AuthorTotalKnowledge F :=
  mkAuthorTotalKnowledge (fst kv) (snd kv) total.

(** What is left of [total] after the first [m] items: the value of
    [knowledge_left] after [m] rounds of the loop, an exact difference on
    ints, [m] float subtractions in a row on floats. *)
Definition remaining_Z (total : Z) (items : list (string * Z)) (m : nat) : Z :=
  (total - sumZ (map snd (firstn m items)))%Z.

Definition remaining_F {F} {arith : FloatArith F} (total : F)
  (items : list (string * F)) (m : nat) : F :=
  fold_left float_sub (map snd (firstn m items)) total.

(** [res] is the outcome of the walk over [entries] that appends entry
    after entry, computes the quotient [ratio m] after the [m]-th entry
    and stops, with the entry just appended included, at the first
    position where the test [stop] holds of the quotient, or at the end;
    a quotient that raises ends the walk with its exception. *)
Definition walk_outcome {F E} (ratio : nat -> result F) (stop : F -> bool)
  (entries : list E) (res : result (list E)) : Prop :=
  exists n,
    (1 <= n <= List.length entries)%nat /\
    (forall m, (1 <= m < n)%nat ->
       exists r, ratio m = Ok r /\ stop r = false) /\
    match ratio n with
    | Ok r =>
        (stop r = true \/ n = List.length entries) /\
        res = Ok (firstn n entries)
    | Raise e => res = Raise e
    end.

(** The synthetic blame log of two fragments: each line as the file
    yields it. *)
Definition two_fragment_log : list string :=
  [ "aaaaaaaaaaaaaaaaaaaaaaaaaaaaaaaaaaaaaaaa 1 1 5" ++ nl;
    "author Alice" ++ nl;
    "author-mail <alice@x.com>" ++ nl;
    "author-time 0" ++ nl;
    "bbbbbbbbbbbbbbbbbbbbbbbbbbbbbbbbbbbbbbbb 2 2 3" ++ nl;
    "author Bob" ++ nl;
    "author-mail <bob@x.com>" ++ nl;
    "author-time 0" ++ nl ]%string.

(** The canonical identity of a raw email: its image under the
    mail-to-mail mapping, itself when it is not a key. *)
Definition resolve (mail_to_mail : dict string) (authorMail : string)
  : string :=
  match dict_get mail_to_mail authorMail with
  | Some mappedMail => mappedMail
  | None => authorMail
  end.

(** The entries of [contributions] whose email resolves to [k]. *)
Definition resolving_to (mail_to_mail : dict string) (k : string)
  (contributions : dict AuthorCommits) : dict AuthorCommits :=
  filter (fun p => String.eqb (resolve mail_to_mail (fst p)) k) contributions.

(** All commit records of a per-file contributions map. *)
Definition all_commits (contributions : dict AuthorCommits) : list Commit :=
  List.concat (map snd contributions).

Definition total_lines (contributions : dict AuthorCommits) : Z :=
  sumZ (map lines (all_commits contributions)).

(** The decayed knowledge of a file: the sum of the weights that
    [compute_author] computes for its identities. *)
Definition total_decayed_knowledge (INITIAL_TIMESTAMP : datetime)
  (contributions : dict AuthorCommits) : result R :=
  authorWeight <- author_weights INITIAL_TIMESTAMP contributions [] ;;
  Ok (sumR (map snd authorWeight)).

(** [f] on every element, in order, up to the first one that raises. *)
Fixpoint mapM {A B} (f : A -> result B) (l : list A) : result (list B) :=
  match l with
  | [] => Ok []
  | x :: l' => y <- f x ;; ys <- mapM f l' ;; Ok (y :: ys)
  end.

(** The decayed values of a list of commits. *)
Definition lines_values (INITIAL_TIMESTAMP : datetime) (cs : list Commit)
  : result (list R) :=
  mapM (compute_lines_value INITIAL_TIMESTAMP) cs.

(** The age in days that [compute_lines_value] passes to the retention
    function. *)
Definition age_days (INITIAL_TIMESTAMP : datetime) (commit : Commit) : Z :=
  timedelta_days INITIAL_TIMESTAMP (date commit).

(** The retention after [t] days where the power is a real number. *)
Definition retention (t : Z) : R :=
  (asymptote + (1 - asymptote) * b * Rpower (IZR (1 + t)) (- beta))%R.

(** The values that a list of [(author, value)] tuples holds for [k]. *)
Definition values_of {V} (k : string) (l : list (string * V)) : list V :=
  map snd (filter (fun p => String.eqb (fst p) k) l).

(** A tally entry after one more value: set when absent, added to when
    present. *)
Definition add_or_set {V} (add : V -> V -> V) (o : option V) (v : V)
  : option V :=
  Some (match o with None => v | Some w => add w v end).

(** Sample inputs. *)
Definition sample_instant : datetime := 864000000000%Z.
Definition sample_commit_1 : Commit := mkCommit 5 777600000000%Z "f.log".
Definition sample_commit_2 : Commit := mkCommit 5 0%Z "f.log".
Definition sample_commit_3 : Commit := mkCommit 3 1000000%Z "f.log".

Definition sample_contributions : dict AuthorCommits :=
  [("a@x.com", [sample_commit_1]); ("b@x.com", [sample_commit_3]);
   ("c@x.com", [sample_commit_2])]%string.
Definition sample_mail_to_mail : dict string :=
  [("b@x.com", "a@x.com")]%string.

Definition sample_authored_files : dict Z :=
  [("A", 60%Z); ("B", 25%Z); ("C", 15%Z)]%string.
Definition sample_knowledge_base : dict R :=
  [("A", 50%R); ("B", 50%R)]%string.
Definition even_authored_files : dict Z :=
  [("A", 10%Z); ("B", 10%Z); ("C", 10%Z)]%string.

(** Sample tallies of binary64 floats: six owners of [0.1] each, whose
    sum is the float [0.6], and three owners of [10.0] each. *)
Definition six_tenths : spec_float := Binary64.of_ratio 6 10.
Definition six_owners : dict spec_float :=
  [("A", Binary64.of_ratio 1 10); ("B", Binary64.of_ratio 1 10);
   ("C", Binary64.of_ratio 1 10); ("D", Binary64.of_ratio 1 10);
   ("E", Binary64.of_ratio 1 10); ("F", Binary64.of_ratio 1 10)]%string.
Definition even_owners : dict spec_float :=
  [("A", Binary64.of_ratio 10 1); ("B", Binary64.of_ratio 10 1);
   ("C", Binary64.of_ratio 10 1)]%string.

Definition sample_result_1 : AuthorContribution :=
  mkAuthorContribution "a@x.com" [("a@x.com", 3%R); ("b@x.com", 1%R)]%string.
Definition sample_result_2 : AuthorContribution :=
  mkAuthorContribution "b@x.com" [("b@x.com", 2%R)]%string.

(** The count that [parse_log] reads off a header line; 0 for a line that
    is no header or whose count does not parse. *)
Definition header_count (line : string) : Z :=
  if match_word_chars 40 line then
    match (tok <- getlast (split " " line) ;; int tok) with
    | Ok n => n
    | Raise _ => 0%Z
    end
  else 0%Z.

(** The four classes of lines that [parse_log] looks for. *)
Definition recognised (line : string) : bool :=
  match_word_chars 40 line || startswith "author " line
  || startswith "author-time " line || startswith "author-mail " line.

(** The lines that the guards of [read_mailmap] skip. *)
Definition skipped (contributor : string) : bool :=
  startswith "#" contributor || startswith nl contributor.

(** A blame log whose author-mail lines are missing. *)
Definition unattributed_log : list string :=
  [ "aaaaaaaaaaaaaaaaaaaaaaaaaaaaaaaaaaaaaaaa 1 1 5" ++ nl;
    "author Alice" ++ nl;
    "author-time 0" ++ nl;
    "summary first" ++ nl ]%string.

(** A blame log with an alias: two lines under al@x.com, three under
    bob@x.com, all at time 0. *)
Definition alias_log : list string :=
  [ "cccccccccccccccccccccccccccccccccccccccc 1 1 2" ++ nl;
    "author Al" ++ nl;
    "author-mail <al@x.com>" ++ nl;
    "author-time 0" ++ nl;
    "dddddddddddddddddddddddddddddddddddddddd 3 3 3" ++ nl;
    "author Bob" ++ nl;
    "author-mail <bob@x.com>" ++ nl;
    "author-time 0" ++ nl ]%string.

(** A mailmap that gives al@x.com to alice@x.com, and three blame logs:
    one with two authors, one with the alias, one empty. *)
Definition sample_mailmap : list string :=
  [ ("Alice <alice@x.com> <al@x.com>" ++ nl)%string ].

Definition sample_logs : list (string * list string) :=
  [ ("a.py.log", two_fragment_log); ("b.py.log", alias_log);
    ("c.py.log", []) ]%string.

(** Three identities of one file: three lines that are nine days old,
    then twice five lines that are one day old. *)
Definition tied_contributions : dict AuthorCommits :=
  [("b@x.com", [sample_commit_3]); ("a@x.com", [sample_commit_1]);
   ("c@x.com", [sample_commit_1])]%string.

(** A blame log that parses, with no fragment dated after the reference
    instant. *)
Definition parses_before (INITIAL_TIMESTAMP : datetime)
  (fl : string * list string) : Prop :=
  exists d,
    parse_log (fst fl) (snd fl) = Ok d /\
    Forall (fun c => (date c <= INITIAL_TIMESTAMP)%Z) (all_commits d).

(** A string without angle brackets. *)
Definition no_brackets (s : string) : Prop :=
  contains_char "<" s = false /\ contains_char ">" s = false.

(** The emails of a mailmap line, each in angle brackets and followed by
    the text up to the next one. *)
Fixpoint bracketed (emails : list (string * string)) : string :=
  match emails with
  | [] => ""
  | (email, after) :: rest =>
      ("<" ++ email ++ ">" ++ after ++ bracketed rest)%string
  end.

(** What [split("<")] leaves of the bracketed emails. *)
Definition pieces (emails : list (string * string)) : list string :=
  map (fun p => (fst p ++ ">" ++ snd p)%string) emails.

(** A line of the commit-author history: [name|<email>]. *)
Definition author_line (name email : string) : string :=
  (name ++ "|<" ++ email ++ ">")%string.

(** A string that stays on one line when written to a file. *)
Definition no_line_break (s : string) : Prop :=
  contains_char (ascii_of_nat 10) s = false /\
  contains_char (ascii_of_nat 13) s = false.

(** A name and an email as the commit-author history can hold them
    apart: no [|], no angle bracket and no line break inside. *)
Definition plain_author (p : string * string) : Prop :=
  contains_char "|" (fst p) = false /\ contains_char "|" (snd p) = false /\
  no_brackets (fst p) /\ no_brackets (snd p) /\
  no_line_break (fst p) /\ no_line_break (snd p).

(** An entry of the mapping that [format_author_output] builds: an email
    in angle brackets with the names seen for it. *)
Definition grouped_entry (kv : string * list string) : Prop :=
  (exists e, fst kv = ("<" ++ e ++ ">")%string /\ no_brackets e) /\
  snd kv <> [] /\ Forall no_brackets (snd kv).

(** A line of the naive mailmap as it is read back: a name part, one
    email in angle brackets, and the other names. *)
Definition naive_line (line : string) : Prop :=
  exists before e after,
    line = (before ++ bracketed [(e, after)])%string /\
    no_brackets before /\ no_brackets e /\
    contains_char "<" after = false.

(** * Properties *)

(** ** Dictionaries *)

Lemma dict_get_set_same V (d : dict V) k v :
  dict_get (dict_set d k v) k = Some v.
Proof.
  induction d as [|[k' v'] d IH]; simpl.
  - now rewrite String.eqb_refl.
  - destruct (String.eqb k' k) eqn:E; simpl; rewrite E; auto.
Qed.

Lemma dict_get_set_other V (d : dict V) k k' v :
  k <> k' -> dict_get (dict_set d k v) k' = dict_get d k'.
Proof.
  intros Hne. induction d as [|[k0 v0] d IH]; simpl.
  - destruct (String.eqb k k') eqn:E; auto.
    apply String.eqb_eq in E. contradiction.
  - destruct (String.eqb k0 k) eqn:E; simpl.
    + apply String.eqb_eq in E. subst k0.
      destruct (String.eqb k k') eqn:E'; auto.
      apply String.eqb_eq in E'. contradiction.
    + now rewrite IH.
Qed.

Lemma dict_get_list_set_same A (d : dict (list A)) k v :
  dict_get_list (dict_set d k v) k = v.
Proof. unfold dict_get_list. now rewrite dict_get_set_same. Qed.

Lemma dict_get_list_set_other A (d : dict (list A)) k k' v :
  k <> k' -> dict_get_list (dict_set d k v) k' = dict_get_list d k'.
Proof. intros H. unfold dict_get_list. now rewrite dict_get_set_other. Qed.

Lemma dict_get_None V (d : dict V) k :
  dict_get d k = None <-> ~ In k (map fst d).
Proof.
  induction d as [|[k' v'] d IH]; simpl.
  - tauto.
  - destruct (String.eqb k' k) eqn:E.
    + apply String.eqb_eq in E. split; [discriminate | tauto].
    + apply String.eqb_neq in E. tauto.
Qed.

Lemma dict_set_fresh V (d : dict V) k v :
  ~ In k (map fst d) -> dict_set d k v = d ++ [(k, v)].
Proof.
  induction d as [|[k' v'] d IH]; simpl; intros Hn; auto.
  destruct (String.eqb k' k) eqn:E.
  - apply String.eqb_eq in E. tauto.
  - f_equal. apply IH. tauto.
Qed.

Lemma dict_of_items_from V (items acc : dict V) :
  NoDup (map fst (acc ++ items)) ->
  fold_left (fun d kv => dict_set d (fst kv) (snd kv)) items acc = acc ++ items.
Proof.
  revert acc. induction items as [|[k v] items IH]; intros acc Hnd; simpl.
  - now rewrite app_nil_r.
  - rewrite dict_set_fresh.
    + rewrite IH; rewrite <- app_assoc; auto.
    + rewrite map_app in Hnd. simpl in Hnd.
      apply NoDup_remove_2 in Hnd. intros Hin. apply Hnd.
      apply in_or_app. now left.
Qed.

(** Rebuilding a dict from its own items, in any order without repeated
    keys, gives those items back. *)
Lemma dict_of_items_wf V (items : dict V) :
  dict_wf items -> dict_of_items items = items.
Proof.
  intros H. unfold dict_of_items. now rewrite dict_of_items_from.
Qed.

(** ** The stable descending sort *)

Section SortedFacts.
Variable K V : Type.
Variable lt : V -> V -> bool.

Hypothesis lt_asym : forall x y, lt x y = true -> lt y x = false.

Lemma insert_desc_perm x (l : list (K * V)) :
  Permutation (insert_desc lt x l) (x :: l).
Proof.
  induction l as [|y l IH]; simpl; auto.
  destruct (lt (snd x) (snd y)); auto.
  rewrite IH. apply perm_swap.
Qed.

Lemma sorted_desc_perm (l : list (K * V)) :
  Permutation (sorted_desc lt l) l.
Proof.
  induction l as [|x l IH]; simpl; auto.
  rewrite insert_desc_perm. now constructor.
Qed.

Lemma insert_desc_hd x y (l : list (K * V)) :
  not_below lt y x -> HdRel (not_below lt) y l ->
  HdRel (not_below lt) y (insert_desc lt x l).
Proof.
  intros Hyx Hl. destruct l as [|z l]; simpl.
  - now constructor.
  - destruct (lt (snd x) (snd z)); constructor; auto.
    now inversion Hl.
Qed.

Lemma insert_desc_sorted x (l : list (K * V)) :
  Sorted (not_below lt) l -> Sorted (not_below lt) (insert_desc lt x l).
Proof.
  induction 1 as [|y l Hs IH Hhd]; simpl.
  - repeat constructor.
  - destruct (lt (snd x) (snd y)) eqn:E.
    + constructor; auto. apply insert_desc_hd; auto.
      apply lt_asym. exact E.
    + constructor; [now constructor|]. constructor. exact E.
Qed.

Lemma sorted_desc_sorted (l : list (K * V)) :
  Sorted (not_below lt) (sorted_desc lt l).
Proof.
  induction l; simpl; [constructor | now apply insert_desc_sorted].
Qed.
End SortedFacts.

Lemma Rltb_true x y : Rltb x y = true <-> (x < y)%R.
Proof. unfold Rltb. destruct (Rlt_dec x y); split; auto; discriminate. Qed.

Lemma Rltb_false x y : Rltb x y = false <-> (y <= x)%R.
Proof.
  unfold Rltb. destruct (Rlt_dec x y); split; auto; try discriminate; lra.
Qed.

Lemma Rleb_true x y : Rleb x y = true <-> (x <= y)%R.
Proof. unfold Rleb. destruct (Rle_dec x y); split; auto; discriminate. Qed.

Lemma Rleb_false x y : Rleb x y = false <-> (y < x)%R.
Proof.
  unfold Rleb. destruct (Rle_dec x y); split; auto; try discriminate; lra.
Qed.

Lemma sorted_desc_Z_sorted (l : list (string * Z)) :
  StronglySorted desc_Z (sorted_desc Z.ltb l).
Proof.
  apply Sorted_StronglySorted.
  - intros p q r. unfold desc_Z. lia.
  - eapply Sorted_ind with (P := Sorted desc_Z);
      [constructor | | apply (@sorted_desc_sorted string Z Z.ltb)].
    + intros a l0 _ IH Hhd. constructor; auto.
      destruct Hhd as [|c l1 Hc]; constructor.
      unfold not_below in Hc. unfold desc_Z. lia.
    + intros x y. lia.
Qed.

Lemma sorted_desc_R_sorted (l : list (string * R)) :
  StronglySorted desc_R (sorted_desc Rltb l).
Proof.
  apply Sorted_StronglySorted.
  - intros p q r. unfold desc_R. lra.
  - eapply Sorted_ind with (P := Sorted desc_R);
      [constructor | | apply (@sorted_desc_sorted string R Rltb)].
    + intros a l0 _ IH Hhd. constructor; auto.
      destruct Hhd as [|c l1 Hc]; constructor.
      unfold not_below in Hc. apply Rltb_false in Hc. exact Hc.
    + intros x y Hxy. apply Rltb_true in Hxy. apply Rltb_false. lra.
Qed.

Lemma sorted_desc_wf V (lt : V -> V -> bool) (d : dict V) :
  dict_wf d -> dict_wf (sorted_desc lt d).
Proof.
  unfold dict_wf. intros H.
  eapply Permutation_NoDup; [|exact H].
  apply Permutation_map. symmetry. apply sorted_desc_perm.
Qed.

(** ** The selectors *)

Lemma fold_left_Zadd (l : list Z) (a : Z) :
  fold_left Z.add l a = (a + sumZ l)%Z.
Proof.
  unfold sumZ. revert a. induction l as [|x l IH]; intros a; simpl.
  - lia.
  - rewrite IH, (IH x). lia.
Qed.

Lemma sumZ_cons (x : Z) (l : list Z) : sumZ (x :: l) = (x + sumZ l)%Z.
Proof. unfold sumZ at 1. simpl. now rewrite fold_left_Zadd. Qed.

Lemma fold_left_Rplus (l : list R) (a : R) :
  fold_left Rplus l a = (a + sumR l)%R.
Proof.
  unfold sumR. revert a. induction l as [|x l IH]; intros a; simpl.
  - lra.
  - rewrite IH, (IH (0 + x)%R). lra.
Qed.

Lemma sumR_cons (x : R) (l : list R) : sumR (x :: l) = (x + sumR l)%R.
Proof. unfold sumR at 1. simpl. rewrite fold_left_Rplus. lra. Qed.

Lemma truediv_ok (x y : R) : y <> 0%R -> truediv x y = Ok (x / y)%R.
Proof. intros H. unfold truediv. destruct (Req_dec_T y 0); tauto. Qed.

Lemma remaining_Z_S total k v items m :
  remaining_Z total ((k, v) :: items) (S m) = remaining_Z (total - v) items m.
Proof. unfold remaining_Z. simpl. rewrite sumZ_cons. lia. Qed.

Lemma remaining_Z_1 total k v items :
  remaining_Z total ((k, v) :: items) 1 = (total - v)%Z.
Proof. rewrite remaining_Z_S. unfold remaining_Z, sumZ. simpl. lia. Qed.

(** The order of the two arithmetics. *)
Lemma Rltb_asym (x y : R) : Rltb x y = true -> Rltb y x = false.
Proof. intros H. apply Rltb_true in H. apply Rltb_false. lra. Qed.

Lemma Rltb_false_trans (x y z : R) :
  Rltb x y = false -> Rltb y z = false -> Rltb x z = false.
Proof. rewrite !Rltb_false. lra. Qed.

Lemma SFcompare_Lt_Gt (x y : spec_float) :
  SFcompare x y = Some Lt -> SFcompare y x = Some Gt.
Proof.
  destruct x as [sx|sx| |sx mx ex], y as [sy|sy| |sy my ey]; simpl;
    try discriminate;
    try (destruct sx; discriminate || reflexivity);
    try (destruct sy; discriminate || reflexivity);
    try (destruct sx, sy; discriminate || reflexivity).
  change (Pos.compare_cont Eq my mx) with (Pos.compare my mx).
  change (Pos.compare_cont Eq mx my) with (Pos.compare mx my).
  rewrite (Z.compare_antisym ex ey), (Pos.compare_antisym mx my).
  destruct sx, sy; try discriminate; try reflexivity;
    destruct (ex ?= ey)%Z; simpl; try discriminate; try reflexivity;
    destruct (mx ?= my)%positive; simpl; try discriminate; reflexivity.
Qed.

Lemma SFltb_asym (x y : spec_float) : SFltb x y = true -> SFltb y x = false.
Proof.
  unfold SFltb. destruct (SFcompare x y) as [[| |]|] eqn:E; try discriminate.
  intros _. now rewrite (SFcompare_Lt_Gt _ _ E).
Qed.

Lemma SFltb_false_trans (x y z : spec_float) :
  SFleb x x = true -> SFleb y y = true -> SFleb z z = true ->
  SFltb x y = false -> SFltb y z = false -> SFltb x z = false.
Proof.
  unfold SFleb, SFltb, SFcompare.
  destruct x as [sx|sx| |sx mx ex], y as [sy|sy| |sy my ey],
    z as [sz|sz| |sz mz ez]; try discriminate; intros _ _ _;
    try (destruct sx, sy, sz; simpl; congruence).
  change (Pos.compare_cont Eq mx my) with (Pos.compare mx my).
  change (Pos.compare_cont Eq my mz) with (Pos.compare my mz).
  change (Pos.compare_cont Eq mx mz) with (Pos.compare mx mz).
  destruct sx, sy, sz; simpl; try congruence;
    destruct (Z.compare_spec ex ey), (Z.compare_spec ey ez),
      (Z.compare_spec ex ez); try lia; simpl; try congruence;
    destruct (Pos.compare_spec mx my), (Pos.compare_spec my mz),
      (Pos.compare_spec mx mz); simpl; try congruence; try lia.
Qed.

#[export] Instance real_order : FloatOrder R.
Proof.
  constructor; [exact Rltb_asym|].
  intros x y z _ _ _. apply Rltb_false_trans.
Qed.

#[export] Instance binary64_order : FloatOrder spec_float.
Proof. constructor; [exact SFltb_asym | exact SFltb_false_trans]. Qed.

(** Among entries whose values compare to themselves the stable sort is
    descending throughout. *)
Lemma Sorted_StronglySorted_on A (R : A -> A -> Prop) (l : list A) :
  (forall p q r, In p l -> In q l -> In r l -> R p q -> R q r -> R p r) ->
  Sorted R l -> StronglySorted R l.
Proof.
  intros Htrans Hs. induction Hs as [|a l Hs IH Hhd]; [constructor|].
  assert (Hl : StronglySorted R l).
  { apply IH. intros p q r Hp Hq Hr. apply Htrans; now right. }
  constructor; [exact Hl|].
  destruct Hhd as [|c l' Hac]; [constructor|].
  constructor; [exact Hac|].
  apply StronglySorted_inv in Hl. destruct Hl as [_ Hall].
  rewrite Forall_forall in *. intros x Hx.
  apply (Htrans a c x); [now left | right; now left | right; now right
                        | exact Hac | now apply Hall].
Qed.

Lemma sorted_desc_strongly_sorted F (arith : FloatArith F)
  (order : FloatOrder F) (knowledge_base : dict F) :
  Forall (fun kv => float_le (snd kv) (snd kv) = true) knowledge_base ->
  StronglySorted (not_below float_lt) (sorted_desc float_lt knowledge_base).
Proof.
  intros Hall. apply Sorted_StronglySorted_on.
  - assert (Hin : forall p, In p (sorted_desc float_lt knowledge_base) ->
                    float_le (snd p) (snd p) = true).
    { intros p Hp. rewrite Forall_forall in Hall. apply Hall.
      eapply Permutation_in; [apply sorted_desc_perm | exact Hp]. }
    intros p q r Hp Hq Hr. unfold not_below.
    intros H1 H2.
    apply (float_not_lt_trans (snd p) (snd q) (snd r)); auto.
  - apply sorted_desc_sorted. apply float_lt_asym.
Qed.

(** In the exact arithmetic what is left is the total less the sum. *)
Lemma remaining_F_real (total : R) (items : list (string * R)) (m : nat) :
  remaining_F total items m = (total - sumR (map snd (firstn m items)))%R.
Proof.
  unfold remaining_F. revert total m.
  induction items as [|[k v] items IH]; intros total m.
  - rewrite firstn_nil. unfold sumR. simpl. lra.
  - destruct m as [|m]; [unfold sumR; simpl; lra|].
    cbn [firstn map snd fold_left]. rewrite IH, sumR_cons.
    cbn [float_sub real_arith]. lra.
Qed.

Lemma firstn_map_entries A B (f : A -> B) n (l : list A) :
  map f (firstn n l) = firstn n (map f l).
Proof. symmetry. apply firstn_map. Qed.

Section Walks.
Context {F : Type} {arith : FloatArith F}.

Lemma remaining_F_S (total : F) k v items m :
  remaining_F total ((k, v) :: items) (S m)
  = remaining_F (float_sub total v) items m.
Proof. reflexivity. Qed.

(** The file-authorship loop from any point of the walk. *)
Lemma file_authorship_walk_outcome (knowledge : Z) (critical_loss : F) :
  forall items knowledge_left truck_factor,
    items <> [] ->
    exists n,
      (1 <= n <= List.length items)%nat /\
      (forall m, (1 <= m < n)%nat ->
         exists r,
           int_truediv (remaining_Z knowledge_left items m) knowledge = Ok r /\
           float_lt r critical_loss = false) /\
      match int_truediv (remaining_Z knowledge_left items n) knowledge with
      | Ok r =>
          (float_lt r critical_loss = true \/ n = List.length items) /\
          file_authorship_walk knowledge critical_loss items knowledge_left
            truck_factor
          = Ok (truck_factor
                ++ map (authorship_entry knowledge) (firstn n items))
      | Raise e =>
          file_authorship_walk knowledge critical_loss items knowledge_left
            truck_factor = Raise e
      end.
Proof.
  induction items as [|[a v] rest IH]; intros kl tf Hne; [congruence|].
  cbn [file_authorship_walk].
  pose proof (remaining_Z_1 kl a v rest) as H1.
  destruct (int_truediv (kl - v) knowledge) as [r|e] eqn:E.
  - cbn [bind]. destruct (float_lt r critical_loss) eqn:T.
    + exists 1%nat. rewrite H1, E. simpl. repeat split; try lia; auto.
    + destruct rest as [|x rest'].
      * exists 1%nat. rewrite H1, E. simpl. repeat split; try lia; auto.
      * destruct (IH (kl - v)%Z
                    (tf ++ [mkAuthorTotalAuthorship a v knowledge]))
          as (n & Hn & Hbefore & Hat); [discriminate|].
        exists (S n). split; [simpl in *; lia|]. split.
        -- intros m Hm. destruct m as [|[|m]]; [lia| |].
           ++ exists r. now rewrite H1.
           ++ rewrite remaining_Z_S. apply Hbefore. lia.
        -- rewrite remaining_Z_S.
           destruct (int_truediv
                       (remaining_Z (kl - v) (x :: rest') n) knowledge)
             as [r'|e']; [|exact Hat].
           destruct Hat as [Hstop Hres]. split.
           ++ destruct Hstop as [Hstop|Hstop];
                [now left | right; simpl in *; lia].
           ++ rewrite Hres, <- app_assoc. reflexivity.
  - exists 1%nat. rewrite H1, E. simpl. repeat split; lia.
Qed.

(** The knowledge-base loop from any point of the walk. *)
Lemma knowledge_base_walk_outcome (total_knowledge critical_loss : F) :
  forall items knowledge_left truck_factor,
    items <> [] ->
    exists n,
      (1 <= n <= List.length items)%nat /\
      (forall m, (1 <= m < n)%nat ->
         exists r,
           float_truediv (remaining_F knowledge_left items m) total_knowledge
           = Ok r /\
           float_le r critical_loss = false) /\
      match
        float_truediv (remaining_F knowledge_left items n) total_knowledge
      with
      | Ok r =>
          (float_le r critical_loss = true \/ n = List.length items) /\
          knowledge_base_walk total_knowledge critical_loss items
            knowledge_left truck_factor
          = Ok (truck_factor
                ++ map (knowledge_entry total_knowledge) (firstn n items))
      | Raise e =>
          knowledge_base_walk total_knowledge critical_loss items
            knowledge_left truck_factor = Raise e
      end.
Proof.
  induction items as [|[a v] rest IH]; intros kl tf Hne; [congruence|].
  cbn [knowledge_base_walk].
  assert (H1 : remaining_F kl ((a, v) :: rest) 1 = float_sub kl v)
    by reflexivity.
  destruct (float_truediv (float_sub kl v) total_knowledge) as [r|e] eqn:E.
  - cbn [bind]. destruct (float_le r critical_loss) eqn:T.
    + exists 1%nat. rewrite H1, E. simpl. repeat split; try lia; auto.
    + destruct rest as [|x rest'].
      * exists 1%nat. rewrite H1, E. simpl. repeat split; try lia; auto.
      * destruct (IH (float_sub kl v)
                    (tf ++ [mkAuthorTotalKnowledge a v total_knowledge]))
          as (n & Hn & Hbefore & Hat); [discriminate|].
        exists (S n). split; [simpl in *; lia|]. split.
        -- intros m Hm. destruct m as [|[|m]]; [lia| |].
           ++ exists r. now rewrite H1.
           ++ rewrite remaining_F_S. apply Hbefore. lia.
        -- rewrite remaining_F_S.
           destruct (float_truediv
                       (remaining_F (float_sub kl v) (x :: rest') n)
                       total_knowledge)
             as [r'|e']; [|exact Hat].
           destruct Hat as [Hstop Hres]. split.
           ++ destruct Hstop as [Hstop|Hstop];
                [now left | right; simpl in *; lia].
           ++ rewrite Hres, <- app_assoc. reflexivity.
  - exists 1%nat. rewrite H1, E. simpl. repeat split; lia.
Qed.

(** The file-authorship selector on a well-formed tally. *)
Lemma file_authorship_selector_outcome (knowledge : Z)
  (authored_files : dict Z) (critical_loss : F) :
  authored_files <> [] -> dict_wf authored_files ->
  let sorted_authors := sorted_desc Z.ltb authored_files in
  walk_outcome
    (fun m => int_truediv (remaining_Z knowledge sorted_authors m) knowledge)
    (fun ratio => float_lt ratio critical_loss)
    (map (authorship_entry knowledge) sorted_authors)
    (compute_truck_factor_from_file_authorship knowledge authored_files
       critical_loss).
Proof.
  intros Hne Hwf sorted_authors.
  unfold compute_truck_factor_from_file_authorship, sorted_items_Z.
  rewrite dict_of_items_wf by now apply sorted_desc_wf.
  fold sorted_authors.
  assert (Hs : sorted_authors <> []).
  { intros E. apply Hne. apply Permutation_nil.
    rewrite <- E. apply sorted_desc_perm. }
  destruct (file_authorship_walk_outcome knowledge critical_loss
              knowledge [] Hs) as (n & Hn & Hbefore & Hat).
  exists n. rewrite length_map. split; [exact Hn|]. split; [exact Hbefore|].
  destruct (int_truediv (remaining_Z knowledge sorted_authors n) knowledge);
    [|exact Hat].
  now rewrite <- firstn_map_entries.
Qed.

(** The knowledge selector on a well-formed tally. *)
Lemma knowledge_base_selector_outcome (total_knowledge : F)
  (knowledge_base : dict F) (critical_loss : F) :
  knowledge_base <> [] -> dict_wf knowledge_base ->
  let sorted_owners := sorted_desc float_lt knowledge_base in
  walk_outcome
    (fun m =>
       float_truediv (remaining_F total_knowledge sorted_owners m)
         total_knowledge)
    (fun ratio => float_le ratio critical_loss)
    (map (knowledge_entry total_knowledge) sorted_owners)
    (compute_truck_factor_from_knowledge_base total_knowledge knowledge_base
       critical_loss).
Proof.
  intros Hne Hwf sorted_owners.
  unfold compute_truck_factor_from_knowledge_base, sorted_items_F.
  rewrite dict_of_items_wf by now apply sorted_desc_wf.
  fold sorted_owners.
  assert (Hs : sorted_owners <> []).
  { intros E. apply Hne. apply Permutation_nil.
    rewrite <- E. apply sorted_desc_perm. }
  destruct (knowledge_base_walk_outcome total_knowledge critical_loss
              total_knowledge [] Hs) as (n & Hn & Hbefore & Hat).
  exists n. rewrite length_map. split; [exact Hn|]. split; [exact Hbefore|].
  destruct (float_truediv (remaining_F total_knowledge sorted_owners n)
              total_knowledge); [|exact Hat].
  now rewrite <- firstn_map_entries.
Qed.

(** A walk that returns has appended at least one entry. *)
Lemma walk_outcome_not_nil E (ratio : nat -> result F) (stop : F -> bool)
  (entries out : list E) :
  walk_outcome ratio stop entries (Ok out) -> out <> [].
Proof.
  intros (n & Hn & _ & Hat) E0.
  destruct (ratio n); [|discriminate].
  destruct Hat as [_ Hres]. injection Hres as Hres. subst out.
  apply (f_equal (@List.length E)) in E0.
  rewrite length_firstn in E0. simpl in E0. lia.
Qed.

(** When every quotient is computed and fails the test, the walk
    returns every entry. *)
Lemma walk_outcome_never E (ratio : nat -> result F) (stop : F -> bool)
  (entries : list E) (res : result (list E)) :
  walk_outcome ratio stop entries res ->
  (forall m, (1 <= m <= List.length entries)%nat ->
     exists r, ratio m = Ok r /\ stop r = false) ->
  res = Ok entries.
Proof.
  intros (n & Hn & _ & Hat) Hnever.
  destruct (Hnever n Hn) as (r & Hr & Hs). rewrite Hr in Hat.
  destruct Hat as [[Hstop|Hlen] Hres]; [congruence|].
  rewrite Hres, Hlen. now rewrite firstn_all.
Qed.
End Walks.

(** In the exact arithmetic a total other than zero divides: the
    selectors return. *)
Lemma file_authorship_selector_returns (knowledge : Z)
  (authored_files : dict Z) (critical_loss : R) :
  knowledge <> 0%Z -> authored_files <> [] -> dict_wf authored_files ->
  exists out,
    compute_truck_factor_from_file_authorship knowledge authored_files
      critical_loss = Ok out /\ out <> [].
Proof.
  intros Hk Hne Hwf.
  pose proof (file_authorship_selector_outcome knowledge critical_loss
                Hne Hwf) as Hout.
  cbv zeta in Hout.
  assert (Hres : exists out,
             compute_truck_factor_from_file_authorship knowledge
               authored_files critical_loss = Ok out).
  { destruct Hout as (n & _ & _ & Hat).
    cbn [int_truediv real_arith] in Hat.
    rewrite truediv_ok in Hat by now apply not_0_IZR.
    destruct Hat as [_ Hat]. eexists. exact Hat. }
  destruct Hres as [out Hres]. exists out. split; [exact Hres|].
  rewrite Hres in Hout. exact (walk_outcome_not_nil Hout).
Qed.

Lemma knowledge_base_selector_returns (total_knowledge : R)
  (knowledge_base : dict R) (critical_loss : R) :
  total_knowledge <> 0%R -> knowledge_base <> [] -> dict_wf knowledge_base ->
  exists out,
    compute_truck_factor_from_knowledge_base total_knowledge knowledge_base
      critical_loss = Ok out /\ out <> [].
Proof.
  intros Hk Hne Hwf.
  pose proof (knowledge_base_selector_outcome total_knowledge critical_loss
                Hne Hwf) as Hout.
  cbv zeta in Hout.
  assert (Hres : exists out,
             compute_truck_factor_from_knowledge_base total_knowledge
               knowledge_base critical_loss = Ok out).
  { destruct Hout as (n & _ & _ & Hat).
    cbn [float_truediv real_arith] in Hat.
    rewrite truediv_ok in Hat by exact Hk.
    destruct Hat as [_ Hat]. eexists. exact Hat. }
  destruct Hres as [out Hres]. exists out. split; [exact Hres|].
  rewrite Hres in Hout. exact (walk_outcome_not_nil Hout).
Qed.

(** In binary64 a float divides by every float but zero: on a total that
    is not zero the knowledge selector returns. *)
Lemma binary64_knowledge_selector_returns (total_knowledge : spec_float)
  (knowledge_base : dict spec_float) (critical_loss : spec_float) :
  Binary64.is_zero total_knowledge = false ->
  knowledge_base <> [] -> dict_wf knowledge_base ->
  exists out,
    compute_truck_factor_from_knowledge_base total_knowledge knowledge_base
      critical_loss = Ok out /\ out <> [].
Proof.
  intros Hk Hne Hwf.
  pose proof (knowledge_base_selector_outcome total_knowledge critical_loss
                Hne Hwf) as Hout.
  cbv zeta in Hout.
  assert (Hres : exists out,
             compute_truck_factor_from_knowledge_base total_knowledge
               knowledge_base critical_loss = Ok out).
  { destruct Hout as (n & _ & _ & Hat).
    cbn [float_truediv binary64_arith] in Hat.
    unfold Binary64.truediv in Hat. rewrite Hk in Hat.
    destruct Hat as [_ Hat]. eexists. exact Hat. }
  destruct Hres as [out Hres]. exists out. split; [exact Hres|].
  rewrite Hres in Hout. exact (walk_outcome_not_nil Hout).
Qed.

(** C1. For a non-empty tally, whatever the float arithmetic rounds to,
    each selector walks the items of the tally in descending order of
    value (a stable sort of the tally: each entry is not less than the
    next, and, floats that are NaN apart, than every later one), appends
    entry after entry while subtracting the value from the running
    remainder that starts at the total, divides the remainder by the
    total, and stops with the entry just appended included: the
    file-authorship selector at the first position where the quotient it
    computes is [< critical_loss], the knowledge selector at the first
    position where the quotient it computes is [<= critical_loss]. A
    quotient that raises (a total of zero; on ints, a quotient too large
    for a float) ends the walk with its exception. *)
Theorem selectors_stop_inclusive_strict_vs_nonstrict
  (F : Type) (arith : FloatArith F) (order : FloatOrder F)
  (critical_loss : F) :
  (forall (total_files : Z) (authored_files : dict Z),
     authored_files <> [] -> dict_wf authored_files ->
     let sorted_authors := sorted_desc Z.ltb authored_files in
     Permutation sorted_authors authored_files /\
     StronglySorted desc_Z sorted_authors /\
     walk_outcome
       (fun m =>
          int_truediv (remaining_Z total_files sorted_authors m) total_files)
       (fun ratio => float_lt ratio critical_loss)
       (map (authorship_entry total_files) sorted_authors)
       (compute_truck_factor_from_file_authorship total_files authored_files
          critical_loss)) /\
  (forall (total_knowledge : F) (knowledge_base : dict F),
     knowledge_base <> [] -> dict_wf knowledge_base ->
     let sorted_owners := sorted_desc float_lt knowledge_base in
     Permutation sorted_owners knowledge_base /\
     Sorted (not_below float_lt) sorted_owners /\
     (Forall (fun kv => float_le (snd kv) (snd kv) = true) knowledge_base ->
      StronglySorted (not_below float_lt) sorted_owners) /\
     walk_outcome
       (fun m =>
          float_truediv (remaining_F total_knowledge sorted_owners m)
            total_knowledge)
       (fun ratio => float_le ratio critical_loss)
       (map (knowledge_entry total_knowledge) sorted_owners)
       (compute_truck_factor_from_knowledge_base total_knowledge
          knowledge_base critical_loss)).
Proof.
  split.
  - intros total_files authored_files Hne Hwf sorted_authors.
    split; [apply sorted_desc_perm|split].
    + apply sorted_desc_Z_sorted.
    + now apply file_authorship_selector_outcome.
  - intros total_knowledge knowledge_base Hne Hwf sorted_owners.
    split; [apply sorted_desc_perm|split; [|split]].
    + apply sorted_desc_sorted. apply float_lt_asym.
    + now apply sorted_desc_strongly_sorted.
    + now apply knowledge_base_selector_outcome.
Qed.

(** Deciding the float tests of a run on given real numbers. *)
Ltac float_step :=
  match goal with
  | |- context [truediv ?x ?y] =>
      rewrite (@truediv_ok x y) by (simpl; lra)
  | |- context [Rltb ?x ?y] =>
      let E := fresh "E" in
      destruct (Rltb x y) eqn:E;
      [apply Rltb_true in E | apply Rltb_false in E];
      try (exfalso; simpl in E; lra); clear E
  | |- context [Rleb ?x ?y] =>
      let E := fresh "E" in
      destruct (Rleb x y) eqn:E;
      [apply Rleb_true in E | apply Rleb_false in E];
      try (exfalso; simpl in E; lra); clear E
  end.

Ltac float_tests := cbn; repeat (float_step; cbn).

Local Open Scope string_scope.

(** The threshold scenario: after A, 40 of 100 are left and
    [0.4 < 0.5], so the walk stops with [A] alone; in the exact
    arithmetic and in binary64. *)
Example threshold_scenario_file_authorship :
  compute_truck_factor_from_file_authorship 100
    [("A", 60%Z); ("B", 25%Z); ("C", 15%Z)] (1 / 2)%R
  = Ok [mkAuthorTotalAuthorship "A" 60 100].
Proof.
  unfold compute_truck_factor_from_file_authorship, sorted_items_Z.
  float_tests. reflexivity.
Qed.

Example threshold_scenario_knowledge_base :
  compute_truck_factor_from_knowledge_base 100%R
    [("A", 60%R); ("B", 25%R); ("C", 15%R)] (1 / 2)%R
  = Ok [mkAuthorTotalKnowledge "A" 60%R 100%R].
Proof.
  unfold compute_truck_factor_from_knowledge_base, sorted_items_F.
  float_tests. reflexivity.
Qed.

Example threshold_scenario_file_authorship_binary64 :
  compute_truck_factor_from_file_authorship 100 sample_authored_files
    (Binary64.of_ratio 1 2)
  = Ok [mkAuthorTotalAuthorship "A" 60 100].
Proof. vm_compute. reflexivity. Qed.

Example threshold_scenario_knowledge_base_binary64 :
  compute_truck_factor_from_knowledge_base (Binary64.of_ratio 100 1)
    [("A", Binary64.of_ratio 60 1); ("B", Binary64.of_ratio 25 1);
     ("C", Binary64.of_ratio 15 1)] (Binary64.of_ratio 1 2)
  = Ok [mkAuthorTotalKnowledge "A" (Binary64.of_ratio 60 1)
          (Binary64.of_ratio 100 1)].
Proof. vm_compute. reflexivity. Qed.

(** The asymmetry on one tally: with exactly half of the total left after
    the first entry, the strict test goes on and the non-strict test
    stops. *)
Example asymmetry_file_authorship_goes_on :
  compute_truck_factor_from_file_authorship 100
    [("A", 50%Z); ("B", 50%Z)] (1 / 2)%R
  = Ok [mkAuthorTotalAuthorship "A" 50 100; mkAuthorTotalAuthorship "B" 50 100].
Proof.
  unfold compute_truck_factor_from_file_authorship, sorted_items_Z.
  float_tests. reflexivity.
Qed.

Example asymmetry_knowledge_base_stops :
  compute_truck_factor_from_knowledge_base 100%R
    [("A", 50%R); ("B", 50%R)] (1 / 2)%R
  = Ok [mkAuthorTotalKnowledge "A" 50%R 100%R].
Proof.
  unfold compute_truck_factor_from_knowledge_base, sorted_items_F.
  float_tests. reflexivity.
Qed.

Example asymmetry_file_authorship_goes_on_binary64 :
  compute_truck_factor_from_file_authorship 100
    [("A", 50%Z); ("B", 50%Z)] (Binary64.of_ratio 1 2)
  = Ok [mkAuthorTotalAuthorship "A" 50 100; mkAuthorTotalAuthorship "B" 50 100].
Proof. vm_compute. reflexivity. Qed.

Example asymmetry_knowledge_base_stops_binary64 :
  compute_truck_factor_from_knowledge_base (Binary64.of_ratio 100 1)
    [("A", Binary64.of_ratio 50 1); ("B", Binary64.of_ratio 50 1)]
    (Binary64.of_ratio 1 2)
  = Ok [mkAuthorTotalKnowledge "A" (Binary64.of_ratio 50 1)
          (Binary64.of_ratio 100 1)].
Proof. vm_compute. reflexivity. Qed.

(** Where the rounding decides. Six owners of [0.1] each and a total of
    [0.6]: after three entries binary64 is left with [0.30000000000000004],
    more than half of the total, and the walk takes a fourth entry; in the
    exact arithmetic three tenths of six tenths are one half, and the walk
    stops after three. *)
Example six_owners_binary64 :
  compute_truck_factor_from_knowledge_base six_tenths six_owners
    (Binary64.of_ratio 1 2)
  = Ok (map (knowledge_entry six_tenths) (firstn 4 six_owners)).
Proof. vm_compute. reflexivity. Qed.

Example six_owners_exact :
  compute_truck_factor_from_knowledge_base (6 / 10)%R
    [("A", (1 / 10)%R); ("B", (1 / 10)%R); ("C", (1 / 10)%R);
     ("D", (1 / 10)%R); ("E", (1 / 10)%R); ("F", (1 / 10)%R)] (1 / 2)%R
  = Ok [mkAuthorTotalKnowledge "A" (1 / 10)%R (6 / 10)%R;
        mkAuthorTotalKnowledge "B" (1 / 10)%R (6 / 10)%R;
        mkAuthorTotalKnowledge "C" (1 / 10)%R (6 / 10)%R].
Proof.
  unfold compute_truck_factor_from_knowledge_base, sorted_items_F.
  float_tests. reflexivity.
Qed.

(** Of [2^60] files, A wrote one more than half: the quotient of what
    is left rounds up to [0.5], which is not [< 0.5], and the walk goes
    on to B. With a critical loss of [0.1] and one file of ten left, the
    quotient is the float [0.1] itself, and the walk goes on as well. *)
Example large_tally_binary64 :
  compute_truck_factor_from_file_authorship (2 ^ 60)
    [("A", (2 ^ 59 + 1)%Z); ("B", (2 ^ 59 - 1)%Z)] (Binary64.of_ratio 1 2)
  = Ok [mkAuthorTotalAuthorship "A" (2 ^ 59 + 1) (2 ^ 60);
        mkAuthorTotalAuthorship "B" (2 ^ 59 - 1) (2 ^ 60)].
Proof. vm_compute. reflexivity. Qed.

Example tenth_left_binary64 :
  compute_truck_factor_from_file_authorship 10
    [("A", 9%Z); ("B", 1%Z)] (Binary64.of_ratio 1 10)
  = Ok [mkAuthorTotalAuthorship "A" 9 10; mkAuthorTotalAuthorship "B" 1 10].
Proof. vm_compute. reflexivity. Qed.

(** With A just under one half of the total [1.0], what binary64 is left
    with after A is one half, and the knowledge selector stops at A. *)
Example just_under_half_binary64 :
  compute_truck_factor_from_knowledge_base (Binary64.of_ratio 1 1)
    [("A", Binary64.of_ratio (2 ^ 53 - 1) (2 ^ 54));
     ("B", Binary64.of_ratio 1 (2 ^ 60))] (Binary64.of_ratio 1 2)
  = Ok [mkAuthorTotalKnowledge "A" (Binary64.of_ratio (2 ^ 53 - 1) (2 ^ 54))
          (Binary64.of_ratio 1 1)].
Proof. vm_compute. reflexivity. Qed.

(** The selectors on [total = 0]: the division raises. A quotient of
    ints beyond the greatest float raises as well. *)
Example selector_total_zero :
  compute_truck_factor_from_file_authorship 0 [("A", 0%Z)] (1 / 2)%R
  = Raise ZeroDivisionError.
Proof.
  unfold compute_truck_factor_from_file_authorship, sorted_items_Z. cbn.
  unfold truediv. destruct (Req_dec_T 0 0); [reflexivity | contradiction].
Qed.

Example selector_total_zero_binary64 :
  compute_truck_factor_from_file_authorship 0 [("A", 0%Z)]
    (Binary64.of_ratio 1 2)
  = Raise ZeroDivisionError /\
  compute_truck_factor_from_knowledge_base (Binary64.of_ratio 0 1)
    [("A", Binary64.of_ratio 0 1)] (Binary64.of_ratio 1 2)
  = Raise ZeroDivisionError.
Proof. split; vm_compute; reflexivity. Qed.

Example selector_quotient_overflow_binary64 :
  compute_truck_factor_from_file_authorship 1 [("A", (- 2 ^ 1024)%Z)]
    (Binary64.of_ratio 1 2)
  = Raise OverflowError.
Proof. vm_compute. reflexivity. Qed.

Ltac dict_wf_tac :=
  unfold dict_wf; simpl; repeat constructor; simpl; intuition congruence.

Lemma selectors_stop_inclusive_witness :
  (sample_authored_files <> [] /\ dict_wf sample_authored_files) /\
  (six_owners <> [] /\ dict_wf six_owners) /\
  walk_outcome
    (fun m =>
       int_truediv
         (remaining_Z 100 (sorted_desc Z.ltb sample_authored_files) m) 100)
    (fun ratio => float_lt ratio (Binary64.of_ratio 1 2))
    (map (authorship_entry 100) (sorted_desc Z.ltb sample_authored_files))
    (compute_truck_factor_from_file_authorship 100 sample_authored_files
       (Binary64.of_ratio 1 2)) /\
  walk_outcome
    (fun m =>
       float_truediv
         (remaining_F six_tenths (sorted_desc float_lt six_owners) m)
         six_tenths)
    (fun ratio => float_le ratio (Binary64.of_ratio 1 2))
    (map (knowledge_entry six_tenths) (sorted_desc float_lt six_owners))
    (compute_truck_factor_from_knowledge_base six_tenths six_owners
       (Binary64.of_ratio 1 2)).
Proof.
  assert (Hf : sample_authored_files <> [] /\ dict_wf sample_authored_files).
  { split; [discriminate|]. dict_wf_tac. }
  assert (Hk : six_owners <> [] /\ dict_wf six_owners).
  { split; [discriminate|]. dict_wf_tac. }
  split; [exact Hf|]. split; [exact Hk|].
  destruct Hf as (Hf1 & Hf2). destruct Hk as (Hk1 & Hk2).
  split.
  - apply (proj1 (selectors_stop_inclusive_strict_vs_nonstrict
                    binary64_order (Binary64.of_ratio 1 2))
             100%Z sample_authored_files Hf1 Hf2).
  - apply (proj2 (selectors_stop_inclusive_strict_vs_nonstrict
                    binary64_order (Binary64.of_ratio 1 2))
             six_tenths six_owners Hk1 Hk2).
Defined.

(** C9. When each quotient of the walk over the whole sorted tally is
    computed and fails the stopping test of the selector (strict for
    file authorship, non-strict for knowledge), the selector returns the
    whole tally sorted in descending order of value, with one entry per
    key of the tally; whatever the float arithmetic rounds to. *)
Theorem selectors_exhaust_to_whole_sorted_tally
  (F : Type) (arith : FloatArith F) (order : FloatOrder F)
  (critical_loss : F) :
  (forall (total_files : Z) (authored_files : dict Z),
     dict_wf authored_files ->
     let sorted_authors := sorted_desc Z.ltb authored_files in
     (forall m, (1 <= m <= List.length authored_files)%nat ->
        exists ratio,
          int_truediv (remaining_Z total_files sorted_authors m) total_files
          = Ok ratio /\
          float_lt ratio critical_loss = false) ->
     compute_truck_factor_from_file_authorship total_files authored_files
       critical_loss
     = Ok (map (authorship_entry total_files) sorted_authors) /\
     StronglySorted desc_Z sorted_authors /\
     Permutation sorted_authors authored_files /\
     NoDup (map fst sorted_authors)) /\
  (forall (total_knowledge : F) (knowledge_base : dict F),
     dict_wf knowledge_base ->
     let sorted_owners := sorted_desc float_lt knowledge_base in
     (forall m, (1 <= m <= List.length knowledge_base)%nat ->
        exists ratio,
          float_truediv (remaining_F total_knowledge sorted_owners m)
            total_knowledge = Ok ratio /\
          float_le ratio critical_loss = false) ->
     compute_truck_factor_from_knowledge_base total_knowledge knowledge_base
       critical_loss
     = Ok (map (knowledge_entry total_knowledge) sorted_owners) /\
     Sorted (not_below float_lt) sorted_owners /\
     (Forall (fun kv => float_le (snd kv) (snd kv) = true) knowledge_base ->
      StronglySorted (not_below float_lt) sorted_owners) /\
     Permutation sorted_owners knowledge_base /\
     NoDup (map fst sorted_owners)).
Proof.
  split.
  - intros total_files authored_files Hwf sorted_authors Hnever.
    split; [|split; [apply sorted_desc_Z_sorted|split;
      [apply sorted_desc_perm | now apply sorted_desc_wf]]].
    destruct authored_files as [|x l]; [reflexivity|].
    eapply walk_outcome_never.
    + apply file_authorship_selector_outcome; [discriminate | exact Hwf].
    + intros m Hm. apply Hnever. rewrite length_map in Hm.
      fold sorted_authors in Hm. unfold sorted_authors in Hm.
      rewrite (Permutation_length (sorted_desc_perm Z.ltb (x :: l))) in Hm.
      exact Hm.
  - intros total_knowledge knowledge_base Hwf sorted_owners Hnever.
    split; [|split; [apply sorted_desc_sorted; apply float_lt_asym|split;
      [now apply sorted_desc_strongly_sorted|split;
      [apply sorted_desc_perm | now apply sorted_desc_wf]]]].
    destruct knowledge_base as [|x l]; [reflexivity|].
    eapply walk_outcome_never.
    + apply knowledge_base_selector_outcome; [discriminate | exact Hwf].
    + intros m Hm. apply Hnever. rewrite length_map in Hm.
      fold sorted_owners in Hm. unfold sorted_owners in Hm.
      rewrite (Permutation_length (sorted_desc_perm float_lt (x :: l))) in Hm.
      exact Hm.
Qed.

Lemma selectors_exhaust_witness :
  compute_truck_factor_from_file_authorship 30 even_authored_files
    (Binary64.of_ratio 0 1)
  = Ok (map (authorship_entry 30) (sorted_desc Z.ltb even_authored_files)) /\
  compute_truck_factor_from_knowledge_base (Binary64.of_ratio 40 1)
    even_owners (Binary64.of_ratio 0 1)
  = Ok (map (knowledge_entry (Binary64.of_ratio 40 1))
          (sorted_desc float_lt even_owners)).
Proof.
  split.
  - refine (proj1 (proj1 (selectors_exhaust_to_whole_sorted_tally
                            binary64_order (Binary64.of_ratio 0 1))
                     30%Z even_authored_files _ _)).
    + dict_wf_tac.
    + intros m Hm.
      destruct m as [|[|[|[|m]]]]; simpl in Hm; try lia;
        eexists; (split; [vm_compute; reflexivity | vm_compute; reflexivity]).
  - refine (proj1 (proj2 (selectors_exhaust_to_whole_sorted_tally
                            binary64_order (Binary64.of_ratio 0 1))
                     (Binary64.of_ratio 40 1) even_owners _ _)).
    + dict_wf_tac.
    + intros m Hm.
      destruct m as [|[|[|[|m]]]]; simpl in Hm; try lia;
        eexists; (split; [vm_compute; reflexivity | vm_compute; reflexivity]).
Defined.

(** ** The blame log parser *)

(** C6. On the synthetic log of two fragments (a header of 40 hexadecimal
    characters with count 5, Alice's author lines at time 0, a header with
    count 3, Bob's author lines at time 0) the parser has emitted nothing
    before the second header, emits at the second header the fragment of
    5 lines at time 0 under alice@x.com, and returns that fragment and
    the final flushed fragment of 3 lines at time 0 under bob@x.com, and
    nothing else. *)
Theorem parse_log_two_fragment_log (blame_log_path : string) :
  (exists st, parse_lines blame_log_path initial_state
                (firstn 4 two_fragment_log) = Ok st /\
              commits st = []) /\
  (exists st, parse_lines blame_log_path initial_state
                (firstn 5 two_fragment_log) = Ok st /\
              commits st
              = [("alice@x.com", [mkCommit 5 0%Z blame_log_path])] /\
              prev st = 3%Z) /\
  utcfromtimestamp 0 = Ok 0%Z /\
  parse_log blame_log_path two_fragment_log
  = Ok [("alice@x.com", [mkCommit 5 0%Z blame_log_path]);
        ("bob@x.com", [mkCommit 3 0%Z blame_log_path])].
Proof.
  split; [|split; [|split]].
  - eexists. split; [vm_compute; reflexivity | reflexivity].
  - eexists. split; [vm_compute; reflexivity | split; reflexivity].
  - reflexivity.
  - vm_compute. reflexivity.
Qed.

(** ** Identity resolution *)

Lemma use_mailmap_from_cons authorMail cs rest mail_to_mail mapped :
  use_mailmap_from ((authorMail, cs) :: rest) mail_to_mail mapped
  = use_mailmap_from rest mail_to_mail
      (dict_set mapped (resolve mail_to_mail authorMail)
         (dict_get_list mapped (resolve mail_to_mail authorMail) ++ cs)%list).
Proof.
  simpl. unfold resolve.
  destruct (dict_get mail_to_mail authorMail); reflexivity.
Qed.

(** What [use_mailmap] holds under an identity: the commits of the input
    emails that resolve to it, in input order, after what was there. *)
Lemma use_mailmap_from_get mail_to_mail k :
  forall items mapped,
    dict_get (use_mailmap_from items mail_to_mail mapped) k
    = match resolving_to mail_to_mail k items with
      | [] => dict_get mapped k
      | sel => Some (dict_get_list mapped k ++ all_commits sel)%list
      end.
Proof.
  induction items as [|[e cs] rest IH]; intros mapped; [reflexivity|].
  rewrite use_mailmap_from_cons, IH. unfold resolving_to. simpl.
  destruct (String.eqb (resolve mail_to_mail e) k) eqn:E.
  - apply String.eqb_eq in E. rewrite E.
    rewrite dict_get_set_same, dict_get_list_set_same.
    unfold all_commits. simpl.
    destruct (filter _ rest) as [|x sel].
    + simpl. now rewrite app_nil_r.
    + simpl. now rewrite <- app_assoc.
  - apply String.eqb_neq in E.
    rewrite (dict_get_set_other _ _ E), (dict_get_list_set_other _ _ E).
    reflexivity.
Qed.

Lemma all_commits_In e (cs : AuthorCommits) (d : dict AuthorCommits) :
  In (e, cs) d -> exists pre post, all_commits d = (pre ++ cs ++ post)%list.
Proof.
  intros Hin. apply in_split in Hin. destruct Hin as (l1 & l2 & ->).
  exists (all_commits l1), (all_commits l2).
  unfold all_commits. rewrite map_app, concat_app. reflexivity.
Qed.

Lemma use_mailmap_resolved contributions mail_to_mail authorMail cs :
  In (authorMail, cs) contributions ->
  exists pre post,
    dict_get (use_mailmap contributions mail_to_mail)
      (resolve mail_to_mail authorMail)
    = Some (pre ++ cs ++ post)%list.
Proof.
  intros Hin. unfold use_mailmap. rewrite use_mailmap_from_get.
  assert (Hsel : In (authorMail, cs)
                   (resolving_to mail_to_mail (resolve mail_to_mail authorMail)
                      contributions)).
  { apply filter_In. split; [exact Hin|]. simpl. apply String.eqb_refl. }
  destruct (all_commits_In _ _ _ Hsel) as (pre & post & Hc).
  destruct (resolving_to _ _ _) as [|x sel]; [contradiction|].
  exists pre, post. rewrite Hc. reflexivity.
Qed.

(** C7. Identity resolution is a total function of the contributions and
    the mapping (no outcome other than a mapping). The commits of a raw
    email that is not a key of the mail-to-mail mapping are attributed
    under that same email; those of a raw email that is a key are
    attributed under the email it is mapped to; and every identity of the
    result is the resolution of some raw email of the input. *)
Theorem use_mailmap_resolution_total
  (contributions : dict AuthorCommits) (mail_to_mail : dict string)
  (authorMail : string) (cs : AuthorCommits) :
  In (authorMail, cs) contributions ->
  (dict_get mail_to_mail authorMail = None ->
   exists pre post,
     dict_get (use_mailmap contributions mail_to_mail) authorMail
     = Some (pre ++ cs ++ post)%list) /\
  (forall mappedMail,
     dict_get mail_to_mail authorMail = Some mappedMail ->
     exists pre post,
       dict_get (use_mailmap contributions mail_to_mail) mappedMail
       = Some (pre ++ cs ++ post)%list) /\
  (forall k,
     dict_get (use_mailmap contributions mail_to_mail) k <> None ->
     exists e, In e (map fst contributions) /\ resolve mail_to_mail e = k).
Proof.
  intros Hin.
  pose proof (use_mailmap_resolved contributions mail_to_mail authorMail cs Hin)
    as Hres.
  split; [|split].
  - intros Hnone. unfold resolve in Hres. now rewrite Hnone in Hres.
  - intros mappedMail Hsome. unfold resolve in Hres. now rewrite Hsome in Hres.
  - intros k Hk. unfold use_mailmap in Hk. rewrite use_mailmap_from_get in Hk.
    destruct (resolving_to mail_to_mail k contributions) as [|[e c] sel] eqn:E;
      [now contradiction Hk|].
    assert (Hsel : In (e, c) (resolving_to mail_to_mail k contributions))
      by (rewrite E; now left).
    apply filter_In in Hsel. destruct Hsel as [He Hr]. simpl in Hr.
    exists e. split; [now apply (in_map fst) in He|].
    now apply String.eqb_eq.
Qed.

Lemma use_mailmap_resolution_witness :
  In ("b@x.com", [sample_commit_3]) sample_contributions /\
  In ("c@x.com", [sample_commit_2]) sample_contributions /\
  (exists pre post,
     dict_get (use_mailmap sample_contributions sample_mail_to_mail) "a@x.com"
     = Some (pre ++ [sample_commit_3] ++ post)%list) /\
  (exists pre post,
     dict_get (use_mailmap sample_contributions sample_mail_to_mail) "c@x.com"
     = Some (pre ++ [sample_commit_2] ++ post)%list).
Proof.
  assert (Hb : In ("b@x.com", [sample_commit_3]) sample_contributions)
    by (simpl; tauto).
  assert (Hc : In ("c@x.com", [sample_commit_2]) sample_contributions)
    by (simpl; tauto).
  split; [exact Hb|]. split; [exact Hc|]. split.
  - apply (proj1 (proj2 (use_mailmap_resolution_total sample_contributions
                           sample_mail_to_mail "b@x.com" [sample_commit_3] Hb))
             "a@x.com").
    reflexivity.
  - apply (proj1 (use_mailmap_resolution_total sample_contributions
                    sample_mail_to_mail "c@x.com" [sample_commit_2] Hc)).
    reflexivity.
Defined.

Lemma dict_set_append_commits (d : dict AuthorCommits) k cs :
  Permutation
    (all_commits (dict_set d k (dict_get_list d k ++ cs)%list))
    (all_commits d ++ cs).
Proof.
  unfold all_commits, dict_get_list.
  induction d as [|[k' v'] d IH]; simpl.
  - now rewrite app_nil_r.
  - destruct (String.eqb k' k) eqn:E; simpl.
    + rewrite <- !app_assoc. apply Permutation_app_head.
      apply Permutation_app_comm.
    + rewrite <- app_assoc. apply Permutation_app_head. exact IH.
Qed.

Lemma use_mailmap_from_commits mail_to_mail :
  forall items mapped,
    Permutation (all_commits (use_mailmap_from items mail_to_mail mapped))
      (all_commits mapped ++ all_commits items).
Proof.
  induction items as [|[e cs] rest IH]; intros mapped.
  - simpl. now rewrite app_nil_r.
  - rewrite use_mailmap_from_cons, IH, dict_set_append_commits.
    unfold all_commits. simpl. now rewrite <- app_assoc.
Qed.

Lemma sumZ_perm (l l' : list Z) : Permutation l l' -> sumZ l = sumZ l'.
Proof.
  induction 1; rewrite ?sumZ_cons; lia.
Qed.

Lemma sumR_perm (l l' : list R) : Permutation l l' -> sumR l = sumR l'.
Proof.
  induction 1; rewrite ?sumR_cons; lra.
Qed.

Lemma sumR_app (l l' : list R) : sumR (l ++ l') = (sumR l + sumR l')%R.
Proof.
  induction l as [|x l IH]; simpl.
  - unfold sumR at 2. simpl. lra.
  - rewrite !sumR_cons, IH. lra.
Qed.

Lemma bind_mapM_app A B (f : A -> result B) (l l' : list A) :
  mapM f (l ++ l')
  = (ys <- mapM f l ;; ys' <- mapM f l' ;; Ok (ys ++ ys')%list).
Proof.
  induction l as [|x l IH]; simpl.
  - destruct (mapM f l'); reflexivity.
  - destruct (f x); simpl; auto. rewrite IH.
    destruct (mapM f l); simpl; auto. destruct (mapM f l'); reflexivity.
Qed.

(** A permutation of the inputs permutes the outputs, and one raises
    exactly when the other does. *)
Lemma mapM_perm A B (f : A -> result B) (l l' : list A) :
  Permutation l l' ->
  forall ys, mapM f l = Ok ys ->
  exists ys', mapM f l' = Ok ys' /\ Permutation ys ys'.
Proof.
  induction 1 as [|x l l' Hp IH|x y l|l l' l'' Hp1 IH1 Hp2 IH2]; intros ys Hys.
  - exists ys. split; [exact Hys | apply Permutation_refl].
  - simpl in *. destruct (f x); [|discriminate]. simpl in *.
    destruct (mapM f l) as [zs|]; [|discriminate]. simpl in Hys.
    injection Hys as <-.
    destruct (IH zs eq_refl) as (zs' & -> & Hzs). simpl.
    eexists. split; [reflexivity|]. now constructor.
  - simpl in *. destruct (f y); [|discriminate]. simpl in *.
    destruct (f x); [|discriminate]. simpl in *.
    destruct (mapM f l) as [zs|]; [|discriminate]. simpl in *.
    injection Hys as <-. eexists. split; [reflexivity|]. apply perm_swap.
  - destruct (IH1 ys Hys) as (ys' & Hys' & Hp).
    destruct (IH2 ys' Hys') as (ys'' & Hys'' & Hp').
    exists ys''. split; auto. now transitivity ys'.
Qed.

Section DecayedTotals.
Variable INITIAL_TIMESTAMP : datetime.

Lemma contribution_value_from_mapM cs acc :
  contribution_value_from INITIAL_TIMESTAMP acc cs
  = (vs <- lines_values INITIAL_TIMESTAMP cs ;; Ok (acc + sumR vs)%R).
Proof.
  unfold lines_values.
  revert acc. induction cs as [|c cs IH]; intros acc; simpl.
  - f_equal. unfold sumR. simpl. lra.
  - destruct (compute_lines_value INITIAL_TIMESTAMP c) as [v|e]; simpl; auto.
    rewrite IH. destruct (mapM _ cs) as [vs|e]; simpl; auto.
    f_equal. rewrite sumR_cons. lra.
Qed.

Lemma author_weights_mapM (d : dict AuthorCommits) acc :
  (w <- author_weights INITIAL_TIMESTAMP d acc ;; Ok (sumR (map snd w)))
  = (vs <- lines_values INITIAL_TIMESTAMP (all_commits d) ;;
     Ok (sumR (map snd acc) + sumR vs)%R).
Proof.
  revert acc. induction d as [|[a cs] d IH]; intros acc; simpl.
  - f_equal. unfold sumR at 3. simpl. lra.
  - unfold compute_contribution_value.
    rewrite contribution_value_from_mapM.
    unfold lines_values in *.
    unfold all_commits. simpl. rewrite bind_mapM_app.
    destruct (mapM _ cs) as [vs|e]; simpl; auto.
    rewrite IH. fold (all_commits d).
    destruct (mapM _ (all_commits d)) as [ws|e]; simpl; auto.
    f_equal. rewrite map_app, !sumR_app. simpl.
    unfold sumR at 2. simpl. lra.
Qed.

Lemma total_decayed_knowledge_mapM (d : dict AuthorCommits) :
  total_decayed_knowledge INITIAL_TIMESTAMP d
  = (vs <- lines_values INITIAL_TIMESTAMP (all_commits d) ;; Ok (sumR vs)).
Proof.
  unfold total_decayed_knowledge. rewrite author_weights_mapM.
  destruct (lines_values _ (all_commits d)); simpl; auto.
  f_equal. unfold sumR at 1. simpl. lra.
Qed.

Lemma total_decayed_knowledge_perm (d d' : dict AuthorCommits) v :
  Permutation (all_commits d) (all_commits d') ->
  total_decayed_knowledge INITIAL_TIMESTAMP d = Ok v ->
  total_decayed_knowledge INITIAL_TIMESTAMP d' = Ok v.
Proof.
  intros Hp. rewrite !total_decayed_knowledge_mapM. unfold lines_values.
  destruct (mapM _ (all_commits d)) as [vs|e] eqn:E; [|discriminate].
  simpl. intros Hv. injection Hv as <-.
  destruct (mapM_perm _ Hp E) as (vs' & -> & Hvs). simpl.
  f_equal. symmetry. now apply sumR_perm.
Qed.
End DecayedTotals.


(** ** The decay model *)

Lemma Rpower_neg_decreasing (x y c : R) :
  (0 < c -> 0 < x < y -> Rpower y (- c) < Rpower x (- c))%R.
Proof.
  intros Hc Hxy. rewrite !Rpower_Ropp.
  assert (Hx : (0 < Rpower x c)%R) by (unfold Rpower; apply exp_pos).
  assert (Hy : (0 < Rpower y c)%R) by (unfold Rpower; apply exp_pos).
  apply Rinv_lt_contravar.
  - now apply Rmult_lt_0_compat.
  - now apply Rlt_Rpower_l.
Qed.

Lemma Rpower_one (c : R) : Rpower 1 c = 1%R.
Proof. unfold Rpower. now rewrite ln_1, Rmult_0_r, exp_0. Qed.

Lemma Rpower_neg_unit_interval (x c : R) :
  (0 < c -> 1 <= x -> 0 < Rpower x (- c) <= 1)%R.
Proof.
  intros Hc Hx. split; [unfold Rpower; apply exp_pos|].
  destruct Hx as [Hx| <-].
  - left. pose proof (@Rpower_neg_decreasing 1 x c Hc (conj Rlt_0_1 Hx)) as H.
    now rewrite Rpower_one in H.
  - right. apply Rpower_one.
Qed.

Lemma pow_int_float_pos (x : Z) (y : R) :
  (0 < x)%Z -> pow_int_float x y = Ok (Rpower (IZR x) y).
Proof.
  intros Hx. unfold pow_int_float.
  destruct (0 <? x)%Z eqn:E; [reflexivity|].
  apply Z.ltb_ge in E. lia.
Qed.

Lemma knowledge_retention_function_ok (t : Z) :
  (0 <= t)%Z ->
  knowledge_retention_function t asymptote b beta = Ok (retention t).
Proof.
  intros Ht. unfold knowledge_retention_function.
  rewrite pow_int_float_pos by lia. reflexivity.
Qed.

Lemma retention_bounds (t : Z) :
  (0 <= t)%Z ->
  (asymptote < retention t <= asymptote + (1 - asymptote) * b)%R.
Proof.
  intros Ht. unfold retention.
  assert (H1 : (1 <= IZR (1 + t))%R) by (apply IZR_le; lia).
  assert (Hb : (0 < beta)%R) by (unfold beta; lra).
  destruct (Rpower_neg_unit_interval Hb H1) as [Hp0 Hp1].
  unfold asymptote, b in *. nra.
Qed.

Lemma retention_decreasing (t1 t2 : Z) :
  (0 <= t1 < t2)%Z -> (retention t2 < retention t1)%R.
Proof.
  intros Ht. unfold retention.
  assert (Hb : (0 < beta)%R) by (unfold beta; lra).
  assert (Hx : (0 < IZR (1 + t1) < IZR (1 + t2))%R).
  { split; [apply IZR_lt; lia | apply IZR_lt; lia]. }
  pose proof (Rpower_neg_decreasing Hb Hx) as Hp.
  unfold asymptote, b. nra.
Qed.

Lemma retention_zero :
  retention 0 = (asymptote + (1 - asymptote) * b)%R.
Proof.
  unfold retention. simpl. rewrite Rpower_one. lra.
Qed.

Lemma compute_lines_value_ok INITIAL_TIMESTAMP (commit : Commit) :
  (0 <= age_days INITIAL_TIMESTAMP commit)%Z ->
  compute_lines_value INITIAL_TIMESTAMP commit
  = Ok (IZR (lines commit) * retention (age_days INITIAL_TIMESTAMP commit))%R.
Proof.
  intros Hage. unfold compute_lines_value.
  fold (age_days INITIAL_TIMESTAMP commit).
  rewrite knowledge_retention_function_ok by exact Hage. reflexivity.
Qed.

(** C5. With [a = 0.19], [b = 0.78], [beta = 0.68]: the retention on an
    age of at least 0 days lies in [(a, a + (1 - a) * b]]; for commits of
    the same positive line count [L] the decayed value is strictly smaller
    at the greater age, over ages of at least 0; at age 0 it is
    [L * (a + (1 - a) * b)]; and at every age of at least 0 it lies
    between 0 and [L]. *)
Theorem decay_monotone_and_bounded (INITIAL_TIMESTAMP : datetime) :
  (forall t, (0 <= t)%Z ->
     exists r,
       knowledge_retention_function t asymptote b beta = Ok r /\
       (asymptote < r <= asymptote + (1 - asymptote) * b)%R) /\
  (forall c1 c2,
     (0 < lines c1)%Z -> lines c2 = lines c1 ->
     (0 <= age_days INITIAL_TIMESTAMP c1 < age_days INITIAL_TIMESTAMP c2)%Z ->
     exists v1 v2,
       compute_lines_value INITIAL_TIMESTAMP c1 = Ok v1 /\
       compute_lines_value INITIAL_TIMESTAMP c2 = Ok v2 /\
       (v2 < v1)%R) /\
  (forall c,
     (0 < lines c)%Z -> age_days INITIAL_TIMESTAMP c = 0%Z ->
     compute_lines_value INITIAL_TIMESTAMP c
     = Ok (IZR (lines c) * (asymptote + (1 - asymptote) * b))%R) /\
  (forall c,
     (0 < lines c)%Z -> (0 <= age_days INITIAL_TIMESTAMP c)%Z ->
     exists v,
       compute_lines_value INITIAL_TIMESTAMP c = Ok v /\
       (0 <= v <= IZR (lines c))%R).
Proof.
  split; [|split; [|split]].
  - intros t Ht. exists (retention t). split.
    + now apply knowledge_retention_function_ok.
    + now apply retention_bounds.
  - intros c1 c2 HL Heq Hage. do 2 eexists.
    split; [apply compute_lines_value_ok; lia|].
    split; [apply compute_lines_value_ok; lia|].
    rewrite Heq. apply Rmult_lt_compat_l.
    + now apply IZR_lt.
    + now apply retention_decreasing.
  - intros c HL Hage. rewrite compute_lines_value_ok by lia.
    now rewrite Hage, retention_zero.
  - intros c HL Hage. eexists. split; [now apply compute_lines_value_ok|].
    pose proof (retention_bounds Hage) as Hr.
    assert (HLR : (0 < IZR (lines c))%R) by now apply IZR_lt.
    unfold asymptote, b in Hr. nra.
Qed.

Lemma decay_monotone_witness :
  ((0 < lines sample_commit_1)%Z /\
   lines sample_commit_2 = lines sample_commit_1 /\
   (0 <= age_days sample_instant sample_commit_1
    < age_days sample_instant sample_commit_2)%Z) /\
  exists v1 v2,
    compute_lines_value sample_instant sample_commit_1 = Ok v1 /\
    compute_lines_value sample_instant sample_commit_2 = Ok v2 /\
    (v2 < v1)%R.
Proof.
  assert (H1 : age_days sample_instant sample_commit_1 = 1%Z) by reflexivity.
  assert (H2 : age_days sample_instant sample_commit_2 = 10%Z) by reflexivity.
  assert (H : (0 < lines sample_commit_1)%Z /\
              lines sample_commit_2 = lines sample_commit_1 /\
              (0 <= age_days sample_instant sample_commit_1
               < age_days sample_instant sample_commit_2)%Z).
  { split; [simpl; lia|]. split; [reflexivity|]. rewrite H1, H2. lia. }
  split; [exact H|].
  destruct H as (Ha & Hb & Hc).
  exact (proj1 (proj2 (decay_monotone_and_bounded sample_instant))
           sample_commit_1 sample_commit_2 Ha Hb Hc).
Defined.


Example decay_two_days_ahead_is_complex :
  compute_lines_value 0%Z (mkCommit 1 172800000000%Z "f.log")
  = Raise ComplexResult.
Proof.
  unfold compute_lines_value.
  replace (timedelta_days 0%Z _) with (-2)%Z by reflexivity.
  unfold knowledge_retention_function, pow_int_float. simpl.
  destruct (Req_dec_T (IZR (Int_part (- beta))) (- beta)) as [He|_];
    [|reflexivity].
  exfalso. unfold beta in He.
  assert (Hi : Int_part (- (68 / 100)) = (-1)%Z).
  { symmetry. apply Int_part_spec. simpl. lra. }
  rewrite Hi in He. lra.
Qed.



(** ** Identity resolution keeps the commits *)

Lemma mapM_defined A B (f : A -> result B) (l : list A) :
  Forall (fun x => exists y, f x = Ok y) l -> exists ys, mapM f l = Ok ys.
Proof.
  induction 1 as [|x l [y Hy] _ [ys Hys]]; simpl.
  - now exists [].
  - rewrite Hy, Hys. simpl. now eexists.
Qed.

(** The decayed knowledge of a file is defined when no commit is dated
    after the reference instant. *)
Lemma total_decayed_knowledge_defined INITIAL_TIMESTAMP
  (contributions : dict AuthorCommits) :
  Forall (fun c => (date c <= INITIAL_TIMESTAMP)%Z)
    (all_commits contributions) ->
  exists v, total_decayed_knowledge INITIAL_TIMESTAMP contributions = Ok v.
Proof.
  intros Hall. rewrite total_decayed_knowledge_mapM.
  unfold lines_values.
  destruct (@mapM_defined _ _ (compute_lines_value INITIAL_TIMESTAMP)
              (all_commits contributions)) as [vs Hvs].
  - eapply Forall_impl; [|exact Hall]. intros c Hc. simpl in Hc. eexists.
    apply compute_lines_value_ok.
    unfold age_days, timedelta_days. apply Z.div_pos; lia.
  - rewrite Hvs. simpl. now eexists.
Qed.

(** C10. Identity resolution neither drops nor duplicates commit records:
    the commit records under all identities of the result of
    [use_mailmap] are a permutation of those under all identities of its
    input. In particular the total line count of the file is unchanged,
    and its total decayed knowledge is defined after resolution exactly
    when it is before, with the same value; it is defined whenever no
    commit is dated after the reference instant. *)
Theorem use_mailmap_preserves_commits
  (INITIAL_TIMESTAMP : datetime)
  (contributions : dict AuthorCommits) (mail_to_mail : dict string) :
  Permutation (all_commits (use_mailmap contributions mail_to_mail))
    (all_commits contributions) /\
  total_lines (use_mailmap contributions mail_to_mail)
  = total_lines contributions /\
  (forall v,
     total_decayed_knowledge INITIAL_TIMESTAMP
       (use_mailmap contributions mail_to_mail) = Ok v
     <-> total_decayed_knowledge INITIAL_TIMESTAMP contributions = Ok v) /\
  (Forall (fun c => (date c <= INITIAL_TIMESTAMP)%Z)
     (all_commits contributions) ->
   exists v,
     total_decayed_knowledge INITIAL_TIMESTAMP contributions = Ok v /\
     total_decayed_knowledge INITIAL_TIMESTAMP
       (use_mailmap contributions mail_to_mail) = Ok v).
Proof.
  assert (Hp : Permutation
                 (all_commits (use_mailmap contributions mail_to_mail))
                 (all_commits contributions)).
  { unfold use_mailmap. now rewrite use_mailmap_from_commits. }
  split; [exact Hp|]. split; [|split].
  - unfold total_lines. apply sumZ_perm. now apply Permutation_map.
  - intros v. split; apply total_decayed_knowledge_perm; auto.
    now symmetry.
  - intros Hall.
    destruct (total_decayed_knowledge_defined _ Hall) as [v Hv].
    exists v. split; [exact Hv|].
    eapply total_decayed_knowledge_perm; [|exact Hv]. now symmetry.
Qed.

Lemma use_mailmap_preserves_witness :
  Forall (fun c => (date c <= sample_instant)%Z)
    (all_commits sample_contributions) /\
  exists v,
    total_decayed_knowledge sample_instant sample_contributions = Ok v /\
    total_decayed_knowledge sample_instant
      (use_mailmap sample_contributions sample_mail_to_mail) = Ok v.
Proof.
  assert (H : Forall (fun c => (date c <= sample_instant)%Z)
                (all_commits sample_contributions)).
  { repeat constructor; vm_compute; discriminate. }
  split; [exact H|].
  exact (proj2 (proj2 (proj2
    (use_mailmap_preserves_commits sample_instant sample_contributions
       sample_mail_to_mail))) H).
Defined.

(** ** The mailmap reader *)

(** C4. On a mailmap with a line that holds no angle-bracketed email
    (here a bare name after a well-formed line) [read_mailmap] does not
    skip the line: the list of mails of the line is empty and reading its
    first element raises, so no mapping is returned at all. Without that
    line the aliases of the well-formed line map to its first email. *)
Theorem read_mailmap_line_without_email_raises :
  read_mailmap ["Jo Doe <jo@x.org> <j@y.org> <jd@z.org>" ++ nl]
  = Ok ([("j@y.org", "jo@x.org"); ("jd@z.org", "jo@x.org")],
        [("jo@x.org", "Jo Doe")]) /\
  mails_of (split "<" ("John Doe" ++ nl)) = Ok [] /\
  read_mailmap ["Jo Doe <jo@x.org> <j@y.org> <jd@z.org>" ++ nl;
                "John Doe" ++ nl]
  = Raise IndexError.
Proof.
  repeat split; vm_compute; reflexivity.
Qed.

Lemma contains_char_app c (s t : string) :
  contains_char c (s ++ t) = contains_char c s || contains_char c t.
Proof.
  induction s as [|d s IH]; simpl; auto. now rewrite IH, orb_assoc.
Qed.

(** A character of a piece of [split] is a character of the string. *)
Lemma split_go_pieces c sep :
  forall s skip cur p,
    In p (split_go sep skip cur s) -> contains_char c p = true ->
    contains_char c cur = true \/ contains_char c s = true.
Proof.
  induction s as [|d s IH]; intros skip cur p Hin Hp; cbn [split_go] in Hin.
  - destruct Hin as [<-|[]]. now left.
  - destruct skip as [|n].
    + destruct (String.prefix sep (String d s)).
      * destruct Hin as [<-|Hin]; [now left|].
        destruct (IH _ _ _ Hin Hp) as [H|H]; [discriminate|].
        right. simpl. now rewrite H, orb_true_r.
      * destruct (IH _ _ _ Hin Hp) as [H|H].
        -- rewrite contains_char_app in H. simpl in H.
           rewrite orb_false_r in H. apply orb_true_iff in H.
           destruct H as [H|H]; [now left|].
           right. simpl. now rewrite H.
        -- right. simpl. now rewrite H, orb_true_r.
    + destruct (IH _ _ _ Hin Hp) as [H|H]; [now left|].
      right. simpl. now rewrite H, orb_true_r.
Qed.

Lemma split_go_not_nil sep :
  forall s skip cur, split_go sep skip cur s <> [].
Proof.
  induction s as [|d s IH]; intros skip cur; cbn [split_go]; [discriminate|].
  destruct skip; [|apply IH].
  destruct (String.prefix sep (String d s)); [discriminate | apply IH].
Qed.

Lemma mails_of_none (tmp_mails : list string) :
  Forall (fun s => contains_char ">" s = false) tmp_mails ->
  mails_of tmp_mails = Ok [].
Proof.
  induction 1 as [|s l Hs _ IH]; simpl; auto. now rewrite Hs.
Qed.

(** X22. Every line without [>] that passes the three guards raises. *)
Lemma read_line_without_email acc (c : ascii) (rest : string) :
  c <> "#"%char -> c <> ascii_of_nat 10 ->
  contains_char ">" (String c rest) = false ->
  read_line acc (String c rest) = Raise IndexError.
Proof.
  intros Hc1 Hc2 Hno. unfold read_line. destruct acc as [m2m m2n].
  cbn [str_index0 bind].
  assert (E1 : String.eqb (String c "") "#" = false).
  { apply String.eqb_neq. congruence. }
  assert (E2 : String.eqb (String c "") nl = false).
  { apply String.eqb_neq. unfold nl. congruence. }
  rewrite E1, E2. cbn [String.eqb].
  destruct (split "<" (String c rest)) as [|x l] eqn:Es.
  { exfalso. revert Es. apply split_go_not_nil. }
  cbn [getitem nth_error bind].
  rewrite mails_of_none; [reflexivity|].
  apply Forall_forall. intros p Hp. rewrite <- Es in Hp.
  destruct (contains_char ">" p) eqn:Ep; [|reflexivity].
  destruct (split_go_pieces ">" _ _ _ _ _ Hp Ep) as [H|H];
    [discriminate | congruence].
Qed.

Lemma map_aliases_keeps d aliases proper a :
  dict_get d a = Some proper ->
  dict_get (map_aliases d aliases proper) a = Some proper.
Proof.
  unfold map_aliases. revert d.
  induction aliases as [|x l IH]; intros d Hd; simpl; auto.
  apply IH. destruct (string_dec x a) as [->|Hne].
  - apply dict_get_set_same.
  - now rewrite dict_get_set_other.
Qed.

Lemma map_aliases_get d aliases proper a :
  In a aliases -> dict_get (map_aliases d aliases proper) a = Some proper.
Proof.
  revert d. induction aliases as [|x l IH]; intros d Hin; [contradiction|].
  destruct Hin as [->|Hin].
  - unfold map_aliases. simpl. apply (map_aliases_keeps _ l).
    apply dict_get_set_same.
  - unfold map_aliases. simpl. now apply IH.
Qed.

(** On a line that passes the guards and holds at least one email, every
    alias maps to the first email of the line. *)
Lemma read_line_aliases mail_to_mail mail_to_name (c : ascii) (rest : string)
  proper_mail aliases :
  c <> "#"%char -> c <> ascii_of_nat 10 ->
  mails_of (split "<" (String c rest)) = Ok (proper_mail :: aliases) ->
  exists mail_to_mail1 mail_to_name1,
    read_line (mail_to_mail, mail_to_name) (String c rest)
    = Ok (mail_to_mail1, mail_to_name1) /\
    forall a, In a aliases -> dict_get mail_to_mail1 a = Some proper_mail.
Proof.
  intros Hc1 Hc2 Hm. unfold read_line. cbn [str_index0 bind].
  assert (E1 : String.eqb (String c "") "#" = false).
  { apply String.eqb_neq. congruence. }
  assert (E2 : String.eqb (String c "") nl = false).
  { apply String.eqb_neq. unfold nl. congruence. }
  rewrite E1, E2. cbn [String.eqb]. rewrite Hm.
  destruct (split "<" (String c rest)) as [|x l] eqn:Es.
  { exfalso. revert Es. apply split_go_not_nil. }
  cbn [getitem nth_error bind tl]. do 2 eexists. split; [reflexivity|].
  intros a Ha. now apply map_aliases_get.
Qed.

(** The lines that the guards of [read_mailmap] do skip. *)
Example read_mailmap_skips_comment_and_empty_line :
  read_mailmap ["# a comment" ++ nl; nl; "Al <al@x.org> <a@y.org>" ++ nl]
  = Ok ([("a@y.org", "al@x.org")], [("al@x.org", "Al")]).
Proof. vm_compute. reflexivity. Qed.

(** A line of spaces passes the guards and raises as well. *)
Example read_mailmap_line_of_spaces_raises :
  read_mailmap ["   " ++ nl] = Raise IndexError.
Proof. vm_compute. reflexivity. Qed.

(** ** The aggregator on an empty blame log *)

Lemma parse_log_empty (blame_log_path : string) :
  parse_log blame_log_path []
  = Ok [("", [mkCommit 0 0%Z blame_log_path])].
Proof. reflexivity. Qed.

Lemma compute_knowledge_ownership_empty_log INITIAL_TIMESTAMP blame_log_path :
  (0 <= INITIAL_TIMESTAMP)%Z ->
  compute_knowledge_ownership INITIAL_TIMESTAMP blame_log_path [] []
  = Ok (mkAuthorContribution "" [("", 0%R)]).
Proof.
  intros Hts. unfold compute_knowledge_ownership. rewrite parse_log_empty.
  cbn [bind use_mailmap use_mailmap_from dict_get dict_get_list dict_set app].
  unfold compute_author. cbn [author_weights].
  unfold compute_contribution_value. cbn [contribution_value_from].
  rewrite compute_lines_value_ok.
  - cbn [bind author_weights app max_by_value max_by_value_from fst lines].
    replace (0 + 0 * _)%R with 0%R by lra. reflexivity.
  - unfold age_days, timedelta_days. cbn [date]. apply Z.div_pos; lia.
Qed.

(** C2. An empty blame log is not left out of the tallies: the parser
    flushes a fragment of 0 lines under the empty identity, the per-file
    result names the empty identity as primary author with a contribution
    of 0, and the aggregator counts one more authored file for the empty
    identity (and enters it in the knowledge tally). *)
Theorem empty_blame_log_changes_authorship_tally
  (INITIAL_TIMESTAMP : datetime) (blame_log_path : string)
  (authored_files : dict Z) (knowledge_base : dict R) :
  (0 <= INITIAL_TIMESTAMP)%Z ->
  compute_ownership INITIAL_TIMESTAMP [] [(blame_log_path, [])]
  = Ok ([("", 1%Z)], [("", 0%R)]) /\
  exists authored_files1 knowledge_base1,
    ownership_from INITIAL_TIMESTAMP [] [(blame_log_path, [])]
      (authored_files, knowledge_base)
    = Ok (authored_files1, knowledge_base1) /\
    dict_get authored_files1 ""
    = Some (match dict_get authored_files "" with
            | Some n => n + 1
            | None => 1
            end)%Z /\
    dict_get authored_files1 "" <> dict_get authored_files "" /\
    dict_get knowledge_base1 "" <> None.
Proof.
  intros Hts. split.
  - unfold compute_ownership. cbn [read_mailmap read_lines bind fst].
    cbn [ownership_from].
    rewrite compute_knowledge_ownership_empty_log by exact Hts.
    reflexivity.
  - cbn [ownership_from].
    rewrite compute_knowledge_ownership_empty_log by exact Hts.
    cbn [bind add_file_result author contributions].
    do 2 eexists. split; [reflexivity|].
    unfold map_add_or_increment_authorship.
    cbn [map_add_or_increment_knowledge].
    split; [|split].
    + destruct (dict_get authored_files ""); now rewrite dict_get_set_same.
    + destruct (dict_get authored_files "") as [n|];
        rewrite dict_get_set_same; [|discriminate].
      intros H. injection H as H. lia.
    + destruct (dict_get knowledge_base ""); rewrite dict_get_set_same;
        discriminate.
Qed.

Lemma empty_blame_log_witness :
  (0 <= 0)%Z /\
  compute_ownership 0%Z [] [("empty.py.log", [])]
  = Ok ([("", 1%Z)], [("", 0%R)]).
Proof.
  split; [lia|].
  apply (@empty_blame_log_changes_authorship_tally 0%Z "empty.py.log" [] []).
  lia.
Defined.

(** ** The aggregator: order of the files *)

Section Merge.
Variable V : Type.
Variable add : V -> V -> V.
Hypothesis add_comm : forall x y, add x y = add y x.
Hypothesis add_assoc : forall x y z, add x (add y z) = add (add x y) z.

Lemma add_or_set_swap o x y :
  add_or_set add (add_or_set add o x) y = add_or_set add (add_or_set add o y) x.
Proof.
  unfold add_or_set. destruct o as [w|]; f_equal.
  - now rewrite <- !add_assoc, (add_comm x y).
  - apply add_comm.
Qed.

Lemma fold_add_or_set_perm vs vs' :
  Permutation vs vs' ->
  forall o, fold_left (add_or_set add) vs o = fold_left (add_or_set add) vs' o.
Proof.
  induction 1 as [|x l l' _ IH|x y l|l l' l'' _ IH1 _ IH2]; intros o; simpl.
  - reflexivity.
  - apply IH.
  - now rewrite add_or_set_swap.
  - now rewrite IH1.
Qed.
End Merge.

Lemma map_add_or_increment_knowledge_get k :
  forall file_knowledge_base knowledge_base,
    dict_get
      (map_add_or_increment_knowledge knowledge_base file_knowledge_base) k
    = fold_left (add_or_set Rplus) (values_of k file_knowledge_base)
        (dict_get knowledge_base k).
Proof.
  induction file_knowledge_base as [|[a v] rest IH]; intros kb; [reflexivity|].
  cbn [map_add_or_increment_knowledge]. rewrite IH.
  unfold values_of. cbn [filter fst].
  destruct (String.eqb a k) eqn:E.
  - apply String.eqb_eq in E. subst a. cbn [map snd fold_left].
    f_equal. unfold add_or_set.
    destruct (dict_get kb k); now rewrite dict_get_set_same.
  - apply String.eqb_neq in E. f_equal.
    destruct (dict_get kb a); now rewrite dict_get_set_other.
Qed.

Lemma map_add_or_increment_authorship_get k author authored_files :
  dict_get (map_add_or_increment_authorship authored_files author) k
  = fold_left (add_or_set Z.add)
      (if String.eqb author k then [1%Z] else [])
      (dict_get authored_files k).
Proof.
  unfold map_add_or_increment_authorship.
  destruct (String.eqb author k) eqn:E.
  - apply String.eqb_eq in E. subst author. simpl. unfold add_or_set.
    destruct (dict_get authored_files k); now rewrite dict_get_set_same.
  - apply String.eqb_neq in E. simpl.
    destruct (dict_get authored_files author); now rewrite dict_get_set_other.
Qed.

(** The tallies after a sequence of per-file results, identity by
    identity. *)
Lemma add_file_results_get k :
  forall results tallies,
    dict_get (fst (add_file_results tallies results)) k
    = fold_left (add_or_set Z.add)
        (flat_map (fun r => if String.eqb (author r) k then [1%Z] else [])
           results)
        (dict_get (fst tallies) k) /\
    dict_get (snd (add_file_results tallies results)) k
    = fold_left (add_or_set Rplus)
        (flat_map (fun r => values_of k (contributions r)) results)
        (dict_get (snd tallies) k).
Proof.
  unfold add_file_results.
  induction results as [|r results IH]; intros [af kb]; [split; reflexivity|].
  cbn [fold_left flat_map]. rewrite !fold_left_app.
  destruct (IH (add_file_result (af, kb) r)) as [IHa IHk].
  rewrite IHa, IHk. cbn [add_file_result fst snd].
  rewrite map_add_or_increment_authorship_get,
    map_add_or_increment_knowledge_get.
  split; reflexivity.
Qed.

(** C8. Folding the same per-file results through the two tally merges
    in any two orders gives global tallies that agree on every identity:
    the same files authored and, in exact arithmetic, the same knowledge
    (absent in one exactly when absent in the other). *)
Theorem tallies_independent_of_file_order
  (results results' : list AuthorContribution) (tallies : dict Z * dict R) :
  Permutation results results' ->
  forall k,
    dict_get (fst (add_file_results tallies results)) k
    = dict_get (fst (add_file_results tallies results')) k /\
    dict_get (snd (add_file_results tallies results)) k
    = dict_get (snd (add_file_results tallies results')) k.
Proof.
  intros Hp k.
  destruct (add_file_results_get k results tallies) as [-> ->].
  destruct (add_file_results_get k results' tallies) as [-> ->].
  split.
  - apply fold_add_or_set_perm.
    + intros; lia.
    + intros; lia.
    + now apply Permutation_flat_map.
  - apply fold_add_or_set_perm.
    + intros; lra.
    + intros; lra.
    + now apply Permutation_flat_map.
Qed.

Lemma tallies_independent_witness :
  Permutation [sample_result_1; sample_result_2]
    [sample_result_2; sample_result_1] /\
  forall k,
    dict_get (fst (add_file_results ([], [])
                     [sample_result_1; sample_result_2])) k
    = dict_get (fst (add_file_results ([], [])
                       [sample_result_2; sample_result_1])) k /\
    dict_get (snd (add_file_results ([], [])
                     [sample_result_1; sample_result_2])) k
    = dict_get (snd (add_file_results ([], [])
                       [sample_result_2; sample_result_1])) k.
Proof.
  assert (Hp : Permutation [sample_result_1; sample_result_2]
                 [sample_result_2; sample_result_1]) by apply perm_swap.
  split; [exact Hp|].
  exact (@tallies_independent_of_file_order _ _ ([], []) Hp).
Defined.

(** The loop of [compute_ownership] computes the per-file results in
    order and folds them into the tallies. *)
Lemma ownership_from_add_file_results INITIAL_TIMESTAMP mail_to_mail :
  forall path_to_blame_logs tallies,
    ownership_from INITIAL_TIMESTAMP mail_to_mail path_to_blame_logs tallies
    = (results <-
         mapM (fun fl => compute_knowledge_ownership INITIAL_TIMESTAMP
                           (fst fl) (snd fl) mail_to_mail)
           path_to_blame_logs ;;
       Ok (add_file_results tallies results)).
Proof.
  induction path_to_blame_logs as [|[file log] rest IH]; intros tallies;
    [reflexivity|].
  cbn [ownership_from mapM fst snd].
  destruct (compute_knowledge_ownership INITIAL_TIMESTAMP file log mail_to_mail)
    as [r|e]; [|reflexivity].
  cbn [bind]. rewrite IH.
  destruct (mapM _ rest); reflexivity.
Qed.

(** * Further properties of the code *)

Local Open Scope list_scope.

(** ** The selectors: division and threshold *)

Lemma dict_set_not_nil V (d : dict V) k v : dict_set d k v <> [].
Proof.
  destruct d as [|[k' v'] d]; simpl; [discriminate|].
  destruct (String.eqb k' k); discriminate.
Qed.

Lemma dict_of_items_not_nil V (items : list (string * V)) :
  items <> [] -> dict_of_items items <> [].
Proof.
  unfold dict_of_items. destruct items as [|x items]; [congruence|].
  intros _. simpl.
  assert (H : forall l (acc : dict V),
             acc <> [] ->
             fold_left (fun d kv => dict_set d (fst kv) (snd kv)) l acc <> []).
  { induction l as [|y l IH]; intros acc Hacc; simpl; auto.
    apply IH. apply dict_set_not_nil. }
  apply H. discriminate.
Qed.

Lemma sorted_desc_not_nil V (lt : V -> V -> bool) (l : list (string * V)) :
  l <> [] -> sorted_desc lt l <> [].
Proof.
  intros Hne E. apply Hne. apply Permutation_nil.
  rewrite <- E. apply sorted_desc_perm.
Qed.

Lemma truediv_zero (x : R) : truediv x 0 = Raise ZeroDivisionError.
Proof.
  unfold truediv. destruct (Req_dec_T 0 0); [reflexivity|contradiction].
Qed.

Lemma file_authorship_zero_total authored_files (critical_loss : R) :
  authored_files <> [] ->
  compute_truck_factor_from_file_authorship 0 authored_files critical_loss
  = Raise ZeroDivisionError.
Proof.
  intros Hne.
  unfold compute_truck_factor_from_file_authorship, sorted_items_Z.
  pose proof (dict_of_items_not_nil (sorted_desc_not_nil Z.ltb Hne)) as H.
  destruct (dict_of_items (sorted_desc Z.ltb authored_files)) as [|[a v] l];
    [congruence|].
  cbn [file_authorship_walk int_truediv real_arith].
  now rewrite truediv_zero.
Qed.

Lemma knowledge_base_zero_total knowledge_base (critical_loss : R) :
  knowledge_base <> [] ->
  compute_truck_factor_from_knowledge_base 0%R knowledge_base critical_loss
  = Raise ZeroDivisionError.
Proof.
  intros Hne.
  unfold compute_truck_factor_from_knowledge_base, sorted_items_F.
  pose proof (dict_of_items_not_nil (sorted_desc_not_nil float_lt Hne)) as H.
  destruct (dict_of_items (sorted_desc float_lt knowledge_base))
    as [|[a v] l]; [congruence|].
  cbn [knowledge_base_walk float_truediv real_arith].
  now rewrite truediv_zero.
Qed.

(** X1. On an empty tally neither selector divides: the result is the empty
    list for every total, zero included. On a non-empty tally a total of
    zero makes the first division raise. *)
Theorem selectors_division_by_zero (critical_loss : R) :
  (forall total,
     compute_truck_factor_from_file_authorship total [] critical_loss
     = Ok []) /\
  (forall authored_files,
     authored_files <> [] ->
     compute_truck_factor_from_file_authorship 0 authored_files critical_loss
     = Raise ZeroDivisionError) /\
  (forall total,
     compute_truck_factor_from_knowledge_base total [] critical_loss
     = Ok []) /\
  (forall knowledge_base,
     knowledge_base <> [] ->
     compute_truck_factor_from_knowledge_base 0%R knowledge_base critical_loss
     = Raise ZeroDivisionError).
Proof.
  split; [reflexivity|]. split; [|split; [reflexivity|]].
  - intros af Hne. now apply file_authorship_zero_total.
  - intros kb Hne. now apply knowledge_base_zero_total.
Qed.

Lemma selectors_division_witness :
  sample_authored_files <> [] /\ sample_knowledge_base <> [] /\
  compute_truck_factor_from_file_authorship 0 sample_authored_files (1 / 2)%R
  = Raise ZeroDivisionError /\
  compute_truck_factor_from_knowledge_base 0%R sample_knowledge_base (1 / 2)%R
  = Raise ZeroDivisionError.
Proof.
  assert (H1 : sample_authored_files <> []) by discriminate.
  assert (H2 : sample_knowledge_base <> []) by discriminate.
  split; [exact H1|]. split; [exact H2|]. split.
  - exact (proj1 (proj2 (selectors_division_by_zero (1 / 2))) _ H1).
  - exact (proj2 (proj2 (proj2 (selectors_division_by_zero (1 / 2)))) _ H2).
Defined.

Lemma file_authorship_walk_extends knowledge (critical_loss : R) :
  forall items knowledge_left truck_factor out,
    file_authorship_walk knowledge critical_loss items knowledge_left
      truck_factor = Ok out ->
    exists rest, out = truck_factor ++ rest.
Proof.
  induction items as [|[a v] items IH]; intros kl tf out H; simpl in H.
  - injection H as <-. exists []. now rewrite app_nil_r.
  - destruct (truediv _ _) as [ratio|e]; [|discriminate]. simpl in H.
    destruct (Rltb ratio critical_loss).
    + injection H as <-. now eexists.
    + apply IH in H. destruct H as [rest ->].
      rewrite <- app_assoc. now eexists.
Qed.

Lemma knowledge_base_walk_extends total_knowledge (critical_loss : R) :
  forall items knowledge_left truck_factor out,
    knowledge_base_walk total_knowledge critical_loss items knowledge_left
      truck_factor = Ok out ->
    exists rest, out = truck_factor ++ rest.
Proof.
  induction items as [|[a v] items IH]; intros kl tf out H; simpl in H.
  - injection H as <-. exists []. now rewrite app_nil_r.
  - destruct (truediv _ _) as [ratio|e]; [|discriminate]. simpl in H.
    destruct (Rleb ratio critical_loss).
    + injection H as <-. now eexists.
    + apply IH in H. destruct H as [rest ->].
      rewrite <- app_assoc. now eexists.
Qed.

Lemma file_authorship_walk_mono knowledge loss1 loss2 :
  (loss1 <= loss2)%R ->
  forall items knowledge_left truck_factor out1,
    file_authorship_walk knowledge loss1 items knowledge_left truck_factor
    = Ok out1 ->
    exists out2 rest,
      file_authorship_walk knowledge loss2 items knowledge_left truck_factor
      = Ok out2 /\ out1 = out2 ++ rest.
Proof.
  intros Hle.
  induction items as [|[a v] items IH]; intros kl tf out1 H; simpl in *.
  - injection H as <-. exists tf, []. now rewrite app_nil_r.
  - destruct (truediv _ _) as [ratio|e]; [|discriminate]. simpl in *.
    destruct (Rltb ratio loss1) eqn:E1.
    + injection H as <-. apply Rltb_true in E1.
      assert (E2 : Rltb ratio loss2 = true) by (apply Rltb_true; lra).
      rewrite E2. eexists _, []. now rewrite app_nil_r.
    + destruct (Rltb ratio loss2).
      * apply file_authorship_walk_extends in H. destruct H as [rest ->].
        now eexists _, rest.
      * now apply IH.
Qed.

Lemma knowledge_base_walk_mono total_knowledge loss1 loss2 :
  (loss1 <= loss2)%R ->
  forall items knowledge_left truck_factor out1,
    knowledge_base_walk total_knowledge loss1 items knowledge_left
      truck_factor = Ok out1 ->
    exists out2 rest,
      knowledge_base_walk total_knowledge loss2 items knowledge_left
        truck_factor = Ok out2 /\ out1 = out2 ++ rest.
Proof.
  intros Hle.
  induction items as [|[a v] items IH]; intros kl tf out1 H; simpl in *.
  - injection H as <-. exists tf, []. now rewrite app_nil_r.
  - destruct (truediv _ _) as [ratio|e]; [|discriminate]. simpl in *.
    destruct (Rleb ratio loss1) eqn:E1.
    + injection H as <-. apply Rleb_true in E1.
      assert (E2 : Rleb ratio loss2 = true) by (apply Rleb_true; lra).
      rewrite E2. eexists _, []. now rewrite app_nil_r.
    + destruct (Rleb ratio loss2).
      * apply knowledge_base_walk_extends in H. destruct H as [rest ->].
        now eexists _, rest.
      * now apply IH.
Qed.

(** X2. A greater critical loss never asks for more contributors: on the same
    tally and total, the truck factor list for the greater critical loss
    is a prefix of the list for the smaller one, for both selectors. *)
Theorem selectors_monotone_in_critical_loss (loss1 loss2 : R) :
  (loss1 <= loss2)%R ->
  (forall total authored_files out1,
     compute_truck_factor_from_file_authorship total authored_files loss1
     = Ok out1 ->
     exists out2 rest,
       compute_truck_factor_from_file_authorship total authored_files loss2
       = Ok out2 /\ out1 = out2 ++ rest) /\
  (forall total knowledge_base out1,
     compute_truck_factor_from_knowledge_base total knowledge_base loss1
     = Ok out1 ->
     exists out2 rest,
       compute_truck_factor_from_knowledge_base total knowledge_base loss2
       = Ok out2 /\ out1 = out2 ++ rest).
Proof.
  intros Hle. split.
  - intros total af out1. now apply file_authorship_walk_mono.
  - intros total kb out1. now apply knowledge_base_walk_mono.
Qed.

Lemma selectors_monotone_witness :
  (0 <= 1 / 2)%R /\
  exists out2 rest,
    compute_truck_factor_from_file_authorship 100 sample_authored_files
      (1 / 2)%R = Ok out2 /\
    map (authorship_entry 100) sample_authored_files = out2 ++ rest.
Proof.
  assert (H : (0 <= 1 / 2)%R) by lra.
  split; [exact H|].
  apply (proj1 (selectors_monotone_in_critical_loss H) 100%Z
           sample_authored_files).
  unfold compute_truck_factor_from_file_authorship, sorted_items_Z,
    sample_authored_files.
  float_tests. reflexivity.
Defined.

(** ** The aggregator: what the tallies add up to *)

Lemma dict_set_keys V (d : dict V) k v :
  map fst (dict_set d k v)
  = if dict_mem d k then map fst d else map fst d ++ [k].
Proof.
  unfold dict_mem. induction d as [|[k' v'] d IH]; simpl; [reflexivity|].
  destruct (String.eqb k' k) eqn:E; simpl; [reflexivity|].
  rewrite IH. destruct (dict_get d k); reflexivity.
Qed.

(** Assignment keeps the keys of a dict pairwise distinct. *)
Lemma dict_set_wf V (d : dict V) k v : dict_wf d -> dict_wf (dict_set d k v).
Proof.
  unfold dict_wf. intros Hwf. rewrite dict_set_keys. unfold dict_mem.
  destruct (dict_get d k) eqn:E; [exact Hwf|].
  apply dict_get_None in E.
  apply NoDup_app; [exact Hwf | repeat constructor; intros [] |].
  intros x Hx [<-|[]]. contradiction.
Qed.

Lemma sumZ_app (l l' : list Z) : sumZ (l ++ l') = (sumZ l + sumZ l')%Z.
Proof.
  induction l as [|x l IH]; simpl.
  - change (sumZ []) with 0%Z. lia.
  - rewrite !sumZ_cons, IH. lia.
Qed.

Lemma sumZ_dict_set (d : dict Z) k v :
  sumZ (map snd (dict_set d k v))
  = (sumZ (map snd d) + v
     - match dict_get d k with Some old => old | None => 0 end)%Z.
Proof.
  induction d as [|[k' v'] d IH]; simpl.
  - unfold sumZ. simpl. lia.
  - destruct (String.eqb k' k); simpl; rewrite !sumZ_cons; [lia|].
    rewrite IH. lia.
Qed.

Lemma sumR_dict_set (d : dict R) k v :
  sumR (map snd (dict_set d k v))
  = (sumR (map snd d) + v
     - match dict_get d k with Some old => old | None => 0 end)%R.
Proof.
  induction d as [|[k' v'] d IH]; simpl.
  - unfold sumR. simpl. lra.
  - destruct (String.eqb k' k); simpl; rewrite !sumR_cons; [lra|].
    rewrite IH. lra.
Qed.

Lemma map_add_or_increment_authorship_sum authored_files author :
  sumZ (map snd (map_add_or_increment_authorship authored_files author))
  = (sumZ (map snd authored_files) + 1)%Z.
Proof.
  unfold map_add_or_increment_authorship.
  destruct (dict_get authored_files author) eqn:E;
    rewrite sumZ_dict_set, E; lia.
Qed.

Lemma map_add_or_increment_knowledge_sum :
  forall file_knowledge_base knowledge_base,
    sumR (map snd
            (map_add_or_increment_knowledge knowledge_base
               file_knowledge_base))
    = (sumR (map snd knowledge_base)
       + sumR (map snd file_knowledge_base))%R.
Proof.
  induction file_knowledge_base as [|[a v] rest IH]; intros kb.
  - simpl. unfold sumR at 3. simpl. lra.
  - cbn [map_add_or_increment_knowledge map snd]. rewrite IH, sumR_cons.
    destruct (dict_get kb a) eqn:E; rewrite sumR_dict_set, E; lra.
Qed.

Lemma map_add_or_increment_authorship_wf authored_files author :
  dict_wf authored_files ->
  dict_wf (map_add_or_increment_authorship authored_files author).
Proof.
  intros H. unfold map_add_or_increment_authorship.
  destruct (dict_get authored_files author); now apply dict_set_wf.
Qed.

Lemma map_add_or_increment_knowledge_wf :
  forall file_knowledge_base knowledge_base,
    dict_wf knowledge_base ->
    dict_wf (map_add_or_increment_knowledge knowledge_base
               file_knowledge_base).
Proof.
  induction file_knowledge_base as [|[a v] rest IH]; intros kb Hwf;
    [exact Hwf|].
  cbn [map_add_or_increment_knowledge]. apply IH.
  destruct (dict_get kb a); now apply dict_set_wf.
Qed.

(** The decayed knowledge that the per-file results carry. *)
Lemma add_file_results_sums :
  forall results tallies,
    sumZ (map snd (fst (add_file_results tallies results)))
    = (sumZ (map snd (fst tallies)) + Z.of_nat (List.length results))%Z /\
    sumR (map snd (snd (add_file_results tallies results)))
    = (sumR (map snd (snd tallies))
       + sumR (flat_map (fun r => map snd (contributions r)) results))%R /\
    (dict_wf (fst tallies) -> dict_wf (snd tallies) ->
     dict_wf (fst (add_file_results tallies results)) /\
     dict_wf (snd (add_file_results tallies results))).
Proof.
  unfold add_file_results.
  induction results as [|r results IH]; intros [af kb].
  - simpl. unfold sumR at 3. simpl. split; [lia|]. split; [lra|]. tauto.
  - cbn [fold_left]. destruct (IH (add_file_result (af, kb) r))
      as (IHa & IHk & IHwf).
    rewrite IHa, IHk. cbn [add_file_result fst snd flat_map List.length].
    rewrite map_add_or_increment_authorship_sum,
      map_add_or_increment_knowledge_sum, sumR_app.
    split; [lia|]. split; [lra|].
    intros Ha Hk. apply IHwf; cbn [add_file_result fst snd].
    + now apply map_add_or_increment_authorship_wf.
    + now apply map_add_or_increment_knowledge_wf.
Qed.

Lemma mapM_length A B (f : A -> result B) :
  forall l ys, mapM f l = Ok ys -> List.length ys = List.length l.
Proof.
  induction l as [|x l IH]; intros ys H; simpl in H.
  - now injection H as <-.
  - destruct (f x); [|discriminate]. simpl in H.
    destruct (mapM f l) as [zs|]; [|discriminate]. simpl in H.
    injection H as <-. simpl. f_equal. now apply IH.
Qed.

Lemma author_weights_keys INITIAL_TIMESTAMP :
  forall (d : dict AuthorCommits) acc w,
    author_weights INITIAL_TIMESTAMP d acc = Ok w ->
    map fst w = map fst acc ++ map fst d.
Proof.
  induction d as [|[a cs] d IH]; intros acc w H; simpl in H.
  - injection H as <-. now rewrite app_nil_r.
  - destruct (compute_contribution_value _ cs) as [v|e]; [|discriminate].
    cbn [bind] in H. rewrite (IH _ _ H), map_app, <- app_assoc. reflexivity.
Qed.

Lemma use_mailmap_from_not_nil mail_to_mail :
  forall items mapped,
    items <> [] \/ mapped <> [] ->
    use_mailmap_from items mail_to_mail mapped <> [].
Proof.
  induction items as [|[e cs] items IH]; intros mapped H.
  - destruct H as [H|H]; [congruence | exact H].
  - rewrite use_mailmap_from_cons. apply IH. right. apply dict_set_not_nil.
Qed.

(** With no commit dated after the reference instant every value is
    defined, and a mapping that is not empty has a maximum. *)
Lemma compute_author_returns INITIAL_TIMESTAMP
  (author_contributions : dict AuthorCommits) :
  author_contributions <> [] ->
  Forall (fun c => (date c <= INITIAL_TIMESTAMP)%Z)
    (all_commits author_contributions) ->
  exists result,
    compute_author INITIAL_TIMESTAMP author_contributions = Ok result.
Proof.
  intros Hne Hall.
  destruct (total_decayed_knowledge_defined _ Hall) as [v Hv].
  unfold total_decayed_knowledge in Hv. unfold compute_author.
  destruct (author_weights _ author_contributions []) as [w|e] eqn:Ew;
    [|discriminate].
  cbn [bind]. pose proof (author_weights_keys _ _ _ Ew) as Hkeys.
  destruct w as [|x w].
  - destruct author_contributions; [congruence | discriminate].
  - cbn [max_by_value bind]. now eexists.
Qed.

Lemma parse_log_not_nil blame_log_path log d :
  parse_log blame_log_path log = Ok d -> d <> [].
Proof.
  unfold parse_log. destruct (parse_lines _ _ log) as [st|e]; [|discriminate].
  cbn [bind]. intros H. injection H as <-. apply dict_set_not_nil.
Qed.

Lemma compute_knowledge_ownership_returns INITIAL_TIMESTAMP mail_to_mail
  (fl : string * list string) :
  parses_before INITIAL_TIMESTAMP fl ->
  exists result,
    compute_knowledge_ownership INITIAL_TIMESTAMP (fst fl) (snd fl)
      mail_to_mail = Ok result.
Proof.
  intros (d & Hd & Hall). unfold compute_knowledge_ownership.
  rewrite Hd. cbn [bind]. apply compute_author_returns.
  - apply use_mailmap_from_not_nil. left. exact (parse_log_not_nil _ _ Hd).
  - eapply Permutation_Forall; [|exact Hall].
    unfold use_mailmap. symmetry. now rewrite use_mailmap_from_commits.
Qed.

(** The aggregator returns when the mailmap reads and every blame log
    parses with no fragment dated after the reference instant. *)
Lemma compute_ownership_returns INITIAL_TIMESTAMP (mailmap : list string)
  (path_to_blame_logs : list (string * list string))
  (maps : dict string * dict string) :
  read_mailmap mailmap = Ok maps ->
  Forall (parses_before INITIAL_TIMESTAMP) path_to_blame_logs ->
  exists tallies,
    compute_ownership INITIAL_TIMESTAMP mailmap path_to_blame_logs
    = Ok tallies.
Proof.
  intros Hmaps Hall. unfold compute_ownership. rewrite Hmaps. cbn [bind].
  rewrite ownership_from_add_file_results.
  destruct (@mapM_defined _ _
              (fun fl => compute_knowledge_ownership INITIAL_TIMESTAMP
                           (fst fl) (snd fl) (fst maps))
              path_to_blame_logs) as [results Hres].
  - eapply Forall_impl; [|exact Hall]. intros fl Hfl.
    now apply compute_knowledge_ownership_returns.
  - rewrite Hres. cbn [bind]. now eexists.
Qed.

Lemma compute_ownership_counts
  (INITIAL_TIMESTAMP : datetime) (mailmap : list string)
  (path_to_blame_logs : list (string * list string))
  (authored_files : dict Z) (knowledge_base : dict R) :
  compute_ownership INITIAL_TIMESTAMP mailmap path_to_blame_logs
  = Ok (authored_files, knowledge_base) ->
  sumZ (map snd authored_files) = Z.of_nat (List.length path_to_blame_logs) /\
  dict_wf authored_files /\ dict_wf knowledge_base.
Proof.
  unfold compute_ownership.
  destruct (read_mailmap mailmap) as [maps|e]; [|discriminate].
  cbn [bind]. rewrite ownership_from_add_file_results.
  destruct (mapM _ path_to_blame_logs) as [results|e] eqn:E; [|discriminate].
  cbn [bind]. intros H. injection H as H.
  destruct (add_file_results_sums results ([], [])) as (Ha & _ & Hwf).
  rewrite H in Ha, Hwf. cbn [fst snd] in Ha, Hwf.
  rewrite (mapM_length _ _ E) in Ha.
  split; [exact Ha|]. apply Hwf; constructor.
Qed.

(** X5. Every blame log is counted exactly once. When the mailmap reads
    and every blame log parses with no fragment dated after the reference
    instant, [compute_ownership] returns, the authorship tally sums to
    the number of blame logs, and both tallies have pairwise distinct
    identities. *)
Theorem compute_ownership_counts_every_file
  (INITIAL_TIMESTAMP : datetime) (mailmap : list string)
  (path_to_blame_logs : list (string * list string))
  (maps : dict string * dict string) :
  read_mailmap mailmap = Ok maps ->
  Forall (parses_before INITIAL_TIMESTAMP) path_to_blame_logs ->
  exists authored_files knowledge_base,
    compute_ownership INITIAL_TIMESTAMP mailmap path_to_blame_logs
    = Ok (authored_files, knowledge_base) /\
    sumZ (map snd authored_files)
    = Z.of_nat (List.length path_to_blame_logs) /\
    dict_wf authored_files /\ dict_wf knowledge_base.
Proof.
  intros Hmaps Hall.
  destruct (compute_ownership_returns _ Hmaps Hall) as [[af kb] Hres].
  exists af, kb. split; [exact Hres|].
  exact (compute_ownership_counts _ _ _ Hres).
Qed.

Lemma sample_mailmap_reads :
  read_mailmap sample_mailmap
  = Ok ([("al@x.com", "alice@x.com")], [("alice@x.com", "Alice")])%string.
Proof. vm_compute. reflexivity. Qed.

Lemma sample_logs_parse :
  Forall (parses_before sample_instant) sample_logs.
Proof.
  repeat constructor;
    (eexists; split; [vm_compute; reflexivity|];
     repeat constructor; vm_compute; discriminate).
Qed.

Lemma compute_ownership_counts_witness :
  read_mailmap sample_mailmap
  = Ok ([("al@x.com", "alice@x.com")], [("alice@x.com", "Alice")])%string /\
  Forall (parses_before sample_instant) sample_logs /\
  exists authored_files knowledge_base,
    compute_ownership sample_instant sample_mailmap sample_logs
    = Ok (authored_files, knowledge_base) /\
    sumZ (map snd authored_files) = 3%Z /\
    dict_wf authored_files /\ dict_wf knowledge_base.
Proof.
  split; [exact sample_mailmap_reads|]. split; [exact sample_logs_parse|].
  exact (@compute_ownership_counts_every_file _ _ _ _ sample_mailmap_reads
            sample_logs_parse).
Defined.

(** The knowledge that one file adds is the decayed value of the
    fragments that the parser found in it. *)
Lemma compute_knowledge_ownership_sum INITIAL_TIMESTAMP blame_log log
  mail_to_mail r :
  compute_knowledge_ownership INITIAL_TIMESTAMP blame_log log mail_to_mail
  = Ok r ->
  exists d,
    parse_log blame_log log = Ok d /\
    total_decayed_knowledge INITIAL_TIMESTAMP d
    = Ok (sumR (map snd (contributions r))).
Proof.
  unfold compute_knowledge_ownership.
  destruct (parse_log blame_log log) as [d|e]; [|discriminate].
  cbn [bind]. intros H. exists d. split; [reflexivity|].
  apply (@total_decayed_knowledge_perm INITIAL_TIMESTAMP
           (use_mailmap d mail_to_mail) d).
  - unfold use_mailmap. now rewrite use_mailmap_from_commits.
  - unfold total_decayed_knowledge. unfold compute_author in H.
    destruct (author_weights _ _ []) as [w|e]; [|discriminate].
    cbn [bind] in *. destruct (max_by_value w); [|discriminate].
    cbn [bind] in H. injection H as <-. reflexivity.
Qed.

Lemma compute_ownership_knowledge_sums
  (INITIAL_TIMESTAMP : datetime) (mailmap : list string)
  (path_to_blame_logs : list (string * list string))
  (authored_files : dict Z) (knowledge_base : dict R) :
  compute_ownership INITIAL_TIMESTAMP mailmap path_to_blame_logs
  = Ok (authored_files, knowledge_base) ->
  exists parsed values,
    mapM (fun fl => parse_log (fst fl) (snd fl)) path_to_blame_logs
    = Ok parsed /\
    mapM (total_decayed_knowledge INITIAL_TIMESTAMP) parsed = Ok values /\
    sumR (map snd knowledge_base) = sumR values.
Proof.
  unfold compute_ownership.
  destruct (read_mailmap mailmap) as [maps|e]; [|discriminate].
  cbn [bind]. rewrite ownership_from_add_file_results.
  destruct (mapM _ path_to_blame_logs) as [results|e] eqn:E; [|discriminate].
  cbn [bind]. intros H. injection H as H.
  destruct (add_file_results_sums results ([], [])) as (_ & Hk & _).
  rewrite H in Hk. cbn [fst snd] in Hk. rewrite Hk.
  change (sumR (map snd [])) with (sumR []).
  clear H Hk authored_files knowledge_base.
  revert results E.
  induction path_to_blame_logs as [|[file log] rest IH]; intros results E.
  - simpl in E. injection E as <-. exists [], []. simpl.
    repeat split. unfold sumR. simpl. lra.
  - cbn [mapM fst snd] in E.
    destruct (compute_knowledge_ownership INITIAL_TIMESTAMP file log (fst maps))
      as [r|e] eqn:Er; [|discriminate].
    cbn [bind] in E. destruct (mapM _ rest) as [rs|e]; [|discriminate].
    cbn [bind] in E. injection E as <-.
    destruct (IH rs eq_refl) as (parsed & values & Hp & Hv & Hs).
    destruct (compute_knowledge_ownership_sum _ _ _ _ Er) as (d & Hd & Hdv).
    exists (d :: parsed), (sumR (map snd (contributions r)) :: values).
    cbn [mapM fst snd]. rewrite Hd, Hp, Hdv, Hv. cbn [bind].
    repeat split. cbn [flat_map]. rewrite sumR_app, sumR_cons.
    unfold sumR at 1 in Hs. unfold sumR at 1. simpl in *. lra.
Qed.

(** X6. The knowledge tally adds up to the decayed value of every fragment
    of every blame log. When the mailmap reads and every blame log parses
    with no fragment dated after the reference instant,
    [compute_ownership] returns, the decayed knowledge of each parsed log
    is defined, and the values of the knowledge tally sum to the sum of
    those. *)
Theorem compute_ownership_knowledge_total
  (INITIAL_TIMESTAMP : datetime) (mailmap : list string)
  (path_to_blame_logs : list (string * list string))
  (maps : dict string * dict string) :
  read_mailmap mailmap = Ok maps ->
  Forall (parses_before INITIAL_TIMESTAMP) path_to_blame_logs ->
  exists authored_files knowledge_base parsed values,
    compute_ownership INITIAL_TIMESTAMP mailmap path_to_blame_logs
    = Ok (authored_files, knowledge_base) /\
    mapM (fun fl => parse_log (fst fl) (snd fl)) path_to_blame_logs
    = Ok parsed /\
    mapM (total_decayed_knowledge INITIAL_TIMESTAMP) parsed = Ok values /\
    sumR (map snd knowledge_base) = sumR values.
Proof.
  intros Hmaps Hall.
  destruct (compute_ownership_returns _ Hmaps Hall) as [[af kb] Hres].
  destruct (compute_ownership_knowledge_sums _ _ _ Hres)
    as (parsed & values & Hp & Hv & Hs).
  exists af, kb, parsed, values. auto.
Qed.

Lemma compute_ownership_knowledge_witness :
  read_mailmap sample_mailmap
  = Ok ([("al@x.com", "alice@x.com")], [("alice@x.com", "Alice")])%string /\
  Forall (parses_before sample_instant) sample_logs /\
  exists authored_files knowledge_base parsed values,
    compute_ownership sample_instant sample_mailmap sample_logs
    = Ok (authored_files, knowledge_base) /\
    mapM (fun fl => parse_log (fst fl) (snd fl)) sample_logs = Ok parsed /\
    mapM (total_decayed_knowledge sample_instant) parsed = Ok values /\
    sumR (map snd knowledge_base) = sumR values.
Proof.
  split; [exact sample_mailmap_reads|]. split; [exact sample_logs_parse|].
  exact (@compute_ownership_knowledge_total _ _ _ _ sample_mailmap_reads
            sample_logs_parse).
Defined.

(** The run on the sample: alice is the author of the first file, the
    alias of the second file goes to alice and bob is its author, and the
    empty file goes to the empty identity. *)
Example compute_ownership_sample :
  compute_ownership sample_instant sample_mailmap sample_logs
  = Ok ([("alice@x.com", 1%Z); ("bob@x.com", 1%Z); ("", 1%Z)]%string,
        [("alice@x.com", (0 + 5 * retention 10 + (0 + 2 * retention 10))%R);
         ("bob@x.com", (0 + 3 * retention 10 + (0 + 3 * retention 10))%R);
         ("", (0 + 0 * retention 10)%R)]%string).
Proof.
  pose proof (@retention_bounds 10 ltac:(lia)) as Hb. unfold asymptote in Hb.
  unfold compute_ownership. rewrite sample_mailmap_reads.
  cbn [bind fst]. unfold sample_logs. cbn [ownership_from].
  unfold compute_knowledge_ownership.
  set (p := parse_log "a.py.log" two_fragment_log). vm_compute in p. subst p.
  set (p := parse_log "b.py.log" alias_log). vm_compute in p. subst p.
  set (p := parse_log "c.py.log" []). vm_compute in p. subst p.
  cbn [bind].
  repeat match goal with
         | |- context [use_mailmap ?d ?m] =>
             let u := fresh "u" in
             set (u := use_mailmap d m); vm_compute in u; subst u
         end.
  unfold compute_author.
  cbn [author_weights compute_contribution_value contribution_value_from].
  rewrite !compute_lines_value_ok by (vm_compute; discriminate).
  repeat match goal with
         | |- context [age_days sample_instant ?c] =>
             change (age_days sample_instant c) with 10%Z
         end.
  cbn [bind app lines max_by_value max_by_value_from snd fst].
  destruct (Rltb (0 + 5 * retention 10) (0 + 3 * retention 10)) eqn:E1;
    [apply Rltb_true in E1; lra|].
  destruct (Rltb (0 + 2 * retention 10) (0 + 3 * retention 10)) eqn:E2;
    [|apply Rltb_false in E2; lra].
  cbn. reflexivity.
Qed.

Lemma knowledge_authorship_from_ownership INITIAL_TIMESTAMP mail_to_mail :
  forall path_to_blame_logs authored_files knowledge_base,
    knowledge_authorship_from INITIAL_TIMESTAMP mail_to_mail
      path_to_blame_logs knowledge_base
    = (tallies <- ownership_from INITIAL_TIMESTAMP mail_to_mail
                    path_to_blame_logs (authored_files, knowledge_base) ;;
       Ok (snd tallies)).
Proof.
  induction path_to_blame_logs as [|[file log] rest IH]; intros af kb;
    [reflexivity|].
  cbn [knowledge_authorship_from ownership_from].
  destruct (compute_knowledge_ownership _ _ _ _) as [r|e]; [|reflexivity].
  cbn [bind add_file_result]. apply IH.
Qed.

(** X7. [compute_knowlede_authorship] returns the knowledge tally of
    [compute_ownership] on the same mailmap and blame logs, and raises
    when it raises. *)
Theorem compute_knowlede_authorship_is_knowledge_tally
  (INITIAL_TIMESTAMP : datetime) (mailmap : list string)
  (path_to_blame_logs : list (string * list string)) :
  compute_knowlede_authorship INITIAL_TIMESTAMP mailmap path_to_blame_logs
  = (tallies <- compute_ownership INITIAL_TIMESTAMP mailmap
                  path_to_blame_logs ;;
     Ok (snd tallies)).
Proof.
  unfold compute_knowlede_authorship, compute_ownership.
  destruct (read_mailmap mailmap) as [maps|e]; [|reflexivity].
  cbn [bind]. apply knowledge_authorship_from_ownership.
Qed.

(** ** The parser: shape of the result *)

Lemma total_lines_append_commit (d : dict AuthorCommits) k c :
  total_lines (append_commit d k c) = (total_lines d + lines c)%Z.
Proof.
  unfold total_lines, append_commit.
  rewrite (sumZ_perm (Permutation_map lines (dict_set_append_commits d k [c]))).
  rewrite map_app, sumZ_app. simpl. rewrite sumZ_cons.
  change (sumZ []) with 0%Z. lia.
Qed.

Lemma Forall_append_commit (P : Commit -> Prop) (d : dict AuthorCommits) k c :
  Forall P (all_commits d) -> P c ->
  Forall P (all_commits (append_commit d k c)).
Proof.
  intros Hd Hc. unfold append_commit.
  eapply Permutation_Forall.
  - symmetry. apply dict_set_append_commits.
  - apply Forall_app. split; [exact Hd | now constructor].
Qed.

(** What one line does to the variables of the parser. *)
Lemma parse_line_cases blame_log_path st line st1 :
  parse_line blame_log_path st line = Ok st1 ->
  (match_word_chars 40 line = true /\
   commits st1
   = (if (0 <? prev st)%Z
      then append_commit (commits st) (authorEmail st)
             (mkCommit (prev st) (timestamp st) blame_log_path)
      else commits st) /\
   prev st1 = header_count line /\
   authorEmail st1 = authorEmail st) \/
  (match_word_chars 40 line = false /\
   commits st1 = commits st /\ prev st1 = prev st /\
   (authorEmail st1 = authorEmail st \/
    startswith "author-mail " line = true)).
Proof.
  unfold parse_line, header_count.
  destruct (match_word_chars 40 line) eqn:Eh.
  - destruct (getlast (split " " line)) as [tok|e]; [|discriminate].
    cbn [bind]. destruct (int tok) as [n|e]; [|discriminate].
    cbn [bind]. intros H. injection H as <-. left. cbn. auto.
  - intros H. right. split; [reflexivity|].
    destruct (startswith "author " line).
    { injection H as <-. cbn. auto. }
    destruct (if startswith "author-time " line then _ else _) as [ts|e];
      [|discriminate].
    cbn [bind] in H. destruct (startswith "author-mail " line).
    + destruct (getlast _) as [x|e]; [|discriminate]. cbn [bind] in H.
      destruct (getlast _) as [y|e]; [|discriminate]. cbn [bind] in H.
      destruct (getitem _ 0) as [z|e]; [|discriminate]. cbn [bind] in H.
      injection H as <-. cbn. auto.
    + injection H as <-. cbn. auto.
Qed.

Lemma header_count_other line :
  match_word_chars 40 line = false -> header_count line = 0%Z.
Proof. intros H. unfold header_count. now rewrite H. Qed.

Lemma parse_lines_invariants blame_log_path :
  forall log st st1,
    parse_lines blame_log_path st log = Ok st1 ->
    (dict_wf (commits st) -> dict_wf (commits st1)) /\
    (Forall (fun c => file c = blame_log_path) (all_commits (commits st)) ->
     Forall (fun c => file c = blame_log_path) (all_commits (commits st1))) /\
    ((0 <= prev st)%Z -> Forall (fun line => 0 <= header_count line)%Z log ->
     (0 <= prev st1)%Z /\
     (total_lines (commits st1) + prev st1
      = total_lines (commits st) + prev st + sumZ (map header_count log))%Z) /\
    (authorEmail st = ""%string ->
     Forall (fun line => startswith "author-mail " line = false) log ->
     (forall k, In k (map fst (commits st)) -> k = ""%string) ->
     authorEmail st1 = ""%string /\
     (forall k, In k (map fst (commits st1)) -> k = ""%string)).
Proof.
  induction log as [|line log IH]; intros st st1 H; simpl in H.
  - injection H as <-. repeat split; auto.
    change (sumZ (map header_count [])) with 0%Z. lia.
  - destruct (parse_line blame_log_path st line) as [st'|e] eqn:El;
      [|discriminate].
    cbn [bind] in H. destruct (IH _ _ H) as (IHwf & IHf & IHs & IHe).
    apply parse_line_cases in El.
    split; [|split; [|split]].
    + intros Hwf. apply IHwf.
      destruct El as [(_ & -> & _)|(_ & -> & _)]; [|exact Hwf].
      destruct (0 <? prev st)%Z; [now apply dict_set_wf | exact Hwf].
    + intros Hf. apply IHf.
      destruct El as [(_ & -> & _)|(_ & -> & _)]; [|exact Hf].
      destruct (0 <? prev st)%Z; [|exact Hf].
      now apply Forall_append_commit.
    + intros Hp Hall. inversion Hall as [|? ? Hl Hall']; subst.
      cbn [map]. rewrite sumZ_cons.
      destruct El as [(_ & Hc & Hpr & _)|(Hh & Hc & Hpr & _)].
      * destruct IHs as [IH1 IH2]; [rewrite Hpr; exact Hl | exact Hall' |].
        split; [exact IH1|]. rewrite IH2, Hc, Hpr.
        destruct (0 <? prev st)%Z eqn:E.
        -- rewrite total_lines_append_commit. cbn [lines]. lia.
        -- apply Z.ltb_ge in E. lia.
      * destruct IHs as [IH1 IH2]; [rewrite Hpr; exact Hp | exact Hall' |].
        split; [exact IH1|].
        rewrite IH2, Hc, Hpr, (header_count_other _ Hh). lia.
    + intros He Hall Hk. inversion Hall as [|? ? Hl Hall']; subst.
      apply IHe; [|exact Hall'|].
      * destruct El as [(_ & _ & _ & ->)|(_ & _ & _ & [->|Hm])]; auto.
        congruence.
      * destruct El as [(_ & -> & _)|(_ & -> & _)]; [|exact Hk].
        destruct (0 <? prev st)%Z; [|exact Hk].
        intros k. unfold append_commit. rewrite dict_set_keys.
        destruct (dict_mem _ _); [apply Hk|].
        intros Hin. apply in_app_or in Hin.
        destruct Hin as [Hin|[<-|[]]]; [now apply Hk | exact He].
Qed.

(** X8. [parse_log] never returns an empty mapping: the final flush always
    leaves one identity, so the maximum that [compute_author] takes after
    resolution is never over an empty list. The identities of the result
    are pairwise distinct and every fragment carries the path of the
    log. *)
Theorem parse_log_result_shape
  (blame_log_path : string) (log : list string) (d : dict AuthorCommits) :
  parse_log blame_log_path log = Ok d ->
  d <> [] /\ dict_wf d /\
  Forall (fun c => file c = blame_log_path) (all_commits d) /\
  forall mail_to_mail, use_mailmap d mail_to_mail <> [].
Proof.
  unfold parse_log.
  destruct (parse_lines blame_log_path initial_state log) as [st|e] eqn:E;
    [|discriminate].
  cbn [bind]. intros H. injection H as <-.
  destruct (parse_lines_invariants _ _ _ E) as (Hwf & Hf & _ & _).
  assert (Hne : append_commit (commits st) (authorEmail st)
                  (mkCommit (prev st) (timestamp st) blame_log_path) <> [])
    by apply dict_set_not_nil.
  split; [exact Hne|]. split; [|split].
  - apply dict_set_wf. apply Hwf. constructor.
  - apply Forall_append_commit; [|reflexivity]. apply Hf. constructor.
  - intros m. apply use_mailmap_from_not_nil. now left.
Qed.

(** X9. The parser neither loses nor invents lines: when no header carries a
    negative count, the line counts of the fragments of the result add up
    to the sum of the counts of the headers. *)
Theorem parse_log_conserves_lines
  (blame_log_path : string) (log : list string) (d : dict AuthorCommits) :
  parse_log blame_log_path log = Ok d ->
  Forall (fun line => 0 <= header_count line)%Z log ->
  total_lines d = sumZ (map header_count log).
Proof.
  unfold parse_log.
  destruct (parse_lines blame_log_path initial_state log) as [st|e] eqn:E;
    [|discriminate].
  cbn [bind]. intros H Hall. injection H as <-.
  destruct (parse_lines_invariants _ _ _ E) as (_ & _ & Hs & _).
  destruct Hs as [_ Hs]; [simpl; lia | exact Hall |].
  rewrite total_lines_append_commit. cbn [lines]. rewrite Hs.
  unfold total_lines. simpl. change (sumZ []) with 0%Z. lia.
Qed.

(** X10. A log without any author-mail line is attributed as a whole to the
    empty identity. *)
Theorem parse_log_unattributed
  (blame_log_path : string) (log : list string) (d : dict AuthorCommits) :
  parse_log blame_log_path log = Ok d ->
  Forall (fun line => startswith "author-mail " line = false) log ->
  map fst d = [""%string].
Proof.
  unfold parse_log.
  destruct (parse_lines blame_log_path initial_state log) as [st|e] eqn:E;
    [|discriminate].
  cbn [bind]. intros H Hall. injection H as <-.
  destruct (parse_lines_invariants _ _ _ E) as (Hwf & _ & _ & He).
  destruct He as [He Hk]; [reflexivity | exact Hall | intros k [] |].
  assert (Hnd : dict_wf (commits st)) by (apply Hwf; constructor).
  unfold append_commit. rewrite dict_set_keys, He. unfold dict_mem.
  unfold dict_wf in Hnd.
  destruct (commits st) as [|[k1 v1] l]; [reflexivity|].
  assert (k1 = ""%string) by (apply Hk; now left). subst k1.
  destruct l as [|[k2 v2] l].
  - simpl. reflexivity.
  - exfalso. assert (k2 = ""%string) by (apply Hk; right; now left).
    subst k2. simpl in Hnd. inversion Hnd as [|? ? Hn _]. apply Hn. now left.
Qed.

Lemma parse_log_two_fragment_value :
  parse_log "f.log" two_fragment_log
  = Ok [("alice@x.com"%string, [mkCommit 5 0%Z "f.log"]);
        ("bob@x.com"%string, [mkCommit 3 0%Z "f.log"])].
Proof. vm_compute. reflexivity. Qed.

Lemma parse_log_result_shape_witness :
  parse_log "f.log" two_fragment_log
  = Ok [("alice@x.com"%string, [mkCommit 5 0%Z "f.log"]);
        ("bob@x.com"%string, [mkCommit 3 0%Z "f.log"])] /\
  dict_wf [("alice@x.com"%string, [mkCommit 5 0%Z "f.log"]);
           ("bob@x.com"%string, [mkCommit 3 0%Z "f.log"])].
Proof.
  split; [exact parse_log_two_fragment_value|].
  exact (proj1 (proj2 (@parse_log_result_shape _ _ _
                         parse_log_two_fragment_value))).
Defined.

Lemma parse_log_conserves_lines_witness :
  Forall (fun line => 0 <= header_count line)%Z two_fragment_log /\
  total_lines [("alice@x.com"%string, [mkCommit 5 0%Z "f.log"]);
               ("bob@x.com"%string, [mkCommit 3 0%Z "f.log"])]
  = sumZ (map header_count two_fragment_log).
Proof.
  assert (H : Forall (fun line => 0 <= header_count line)%Z two_fragment_log).
  { repeat constructor; vm_compute; discriminate. }
  split; [exact H|].
  exact (@parse_log_conserves_lines _ _ _ parse_log_two_fragment_value H).
Defined.

Lemma parse_log_unattributed_value :
  parse_log "f.log" unattributed_log
  = Ok [(""%string, [mkCommit 5 0%Z "f.log"])].
Proof. vm_compute. reflexivity. Qed.

Lemma parse_log_unattributed_witness :
  Forall (fun line => startswith "author-mail " line = false)
    unattributed_log /\
  map fst [(""%string, [mkCommit 5 0%Z "f.log"])] = [""%string].
Proof.
  assert (H : Forall (fun line => startswith "author-mail " line = false)
                unattributed_log).
  { repeat constructor. }
  split; [exact H|].
  exact (@parse_log_unattributed _ _ _ parse_log_unattributed_value H).
Defined.

Lemma parse_line_unrecognised blame_log_path st line :
  recognised line = false -> parse_line blame_log_path st line = Ok st.
Proof.
  unfold recognised, parse_line. intros H.
  apply orb_false_iff in H. destruct H as [H Hm].
  apply orb_false_iff in H. destruct H as [H Ht].
  apply orb_false_iff in H. destruct H as [Hh Ha].
  rewrite Hh, Ha, Ht, Hm. cbn [bind]. now destruct st.
Qed.

Lemma parse_lines_filter_recognised blame_log_path :
  forall log st,
    parse_lines blame_log_path st log
    = parse_lines blame_log_path st (filter recognised log).
Proof.
  induction log as [|line log IH]; intros st; [reflexivity|].
  cbn [filter]. destruct (recognised line) eqn:E.
  - cbn [parse_lines]. destruct (parse_line _ _ _); [|reflexivity].
    cbn [bind]. apply IH.
  - cbn [parse_lines]. rewrite (parse_line_unrecognised _ _ _ E).
    cbn [bind]. apply IH.
Qed.

(** X11. Lines of no recognised class (committer, summary, filename and the
    like) never change the result and never make the parser raise: the
    log without them parses to the same outcome. *)
Theorem parse_log_ignores_other_lines
  (blame_log_path : string) (log : list string) :
  parse_log blame_log_path log
  = parse_log blame_log_path (filter recognised log).
Proof.
  unfold parse_log. now rewrite parse_lines_filter_recognised.
Qed.

(** ** The primary author and the contribution values *)

Lemma max_by_value_from_spec K :
  forall (l : list (K * R)) (best : K * R),
    let r := max_by_value_from best l in
    (r = best /\ forall p, In p l -> (snd p <= snd best)%R) \/
    (exists pre post,
       l = pre ++ r :: post /\
       (snd best < snd r)%R /\
       (forall p, In p pre -> (snd p < snd r)%R) /\
       (forall p, In p post -> (snd p <= snd r)%R)).
Proof.
  induction l as [|x l IH]; intros best r.
  - left. split; [reflexivity | intros p []].
  - unfold r. cbn [max_by_value_from].
    destruct (Rltb (snd best) (snd x)) eqn:E.
    + apply Rltb_true in E.
      destruct (IH x) as [[Hr Hall]|(pre & post & Hl & Hlt & Hpre & Hpost)].
      * right. exists [], l. rewrite Hr. repeat split; auto.
        intros p [].
      * right. exists (x :: pre), post. rewrite Hl at 1.
        repeat split; auto; [lra|].
        intros p [<-|Hp]; [exact Hlt | now apply Hpre].
    + apply Rltb_false in E.
      destruct (IH best) as [[Hr Hall]|(pre & post & Hl & Hlt & Hpre & Hpost)].
      * left. split; [exact Hr|]. intros p [<-|Hp]; [exact E | now apply Hall].
      * right. exists (x :: pre), post. rewrite Hl at 1.
        repeat split; auto.
        intros p [<-|Hp]; [lra | now apply Hpre].
Qed.

Lemma compute_author_maximum
  (INITIAL_TIMESTAMP : datetime) (author_contributions : dict AuthorCommits)
  (result : AuthorContribution) :
  compute_author INITIAL_TIMESTAMP author_contributions = Ok result ->
  map fst (contributions result) = map fst author_contributions /\
  exists pre v post,
    contributions result = pre ++ (author result, v) :: post /\
    (forall p, In p pre -> (snd p < v)%R) /\
    (forall p, In p post -> (snd p <= v)%R).
Proof.
  unfold compute_author.
  destruct (author_weights _ _ []) as [w|e] eqn:Ew; [|discriminate].
  cbn [bind]. destruct w as [|x w]; [discriminate|].
  cbn [max_by_value bind]. intros H. injection H as <-.
  cbn [contributions author].
  split; [exact (author_weights_keys _ _ _ Ew)|].
  pose proof (max_by_value_from_spec w x) as Hm. cbv zeta in Hm.
  set (r := max_by_value_from x w) in *.
  destruct Hm as [[Hr Hall]|(pre & post & Hl & Hlt & Hpre & Hpost)].
  - exists [], (snd x), w. rewrite Hr. cbn [app].
    split; [now destruct x|]. split; [intros p []|exact Hall].
  - exists (x :: pre), (snd r), post. rewrite Hl at 1. cbn [app].
    split; [now destruct r|]. split; [|exact Hpost].
    intros p [<-|Hp]; [exact Hlt | now apply Hpre].
Qed.

(** X12. The primary author of a file is the first identity, in the order
    of the resolved contributions, among those of greatest value. For a
    mapping that is not empty and holds no commit dated after the
    reference instant, [compute_author] returns; every identity before
    the author has a strictly smaller value, every identity after it a
    value that is not greater; the contributions list has one entry per
    identity, in the same order. On an empty mapping the maximum
    raises. *)
Theorem compute_author_first_maximum
  (INITIAL_TIMESTAMP : datetime) (author_contributions : dict AuthorCommits) :
  author_contributions <> [] ->
  Forall (fun c => (date c <= INITIAL_TIMESTAMP)%Z)
    (all_commits author_contributions) ->
  exists result,
    compute_author INITIAL_TIMESTAMP author_contributions = Ok result /\
    map fst (contributions result) = map fst author_contributions /\
    exists pre v post,
      contributions result = pre ++ (author result, v) :: post /\
      (forall p, In p pre -> (snd p < v)%R) /\
      (forall p, In p post -> (snd p <= v)%R).
Proof.
  intros Hne Hall.
  destruct (compute_author_returns Hne Hall) as [result Hres].
  exists result. split; [exact Hres|].
  exact (compute_author_maximum _ _ Hres).
Qed.

(** Of three identities the second and the third tie for the greatest
    value: the second is the author. *)
Example compute_author_tied_contributions :
  compute_author sample_instant tied_contributions
  = Ok (mkAuthorContribution "a@x.com"
          [("b@x.com", (0 + 3 * retention 9)%R);
           ("a@x.com", (0 + 5 * retention 1)%R);
           ("c@x.com", (0 + 5 * retention 1)%R)]%string) /\
  (0 + 3 * retention 9 < 0 + 5 * retention 1)%R.
Proof.
  assert (Hlt : (0 + 3 * retention 9 < 0 + 5 * retention 1)%R).
  { pose proof (@retention_decreasing 1 9 ltac:(lia)) as Hd.
    pose proof (@retention_bounds 9 ltac:(lia)) as Hb.
    unfold asymptote in Hb. lra. }
  split; [|exact Hlt].
  unfold compute_author, tied_contributions.
  cbn [author_weights compute_contribution_value contribution_value_from].
  rewrite !compute_lines_value_ok by (vm_compute; discriminate).
  replace (age_days sample_instant sample_commit_3) with 9%Z by reflexivity.
  replace (age_days sample_instant sample_commit_1) with 1%Z by reflexivity.
  cbn [bind app lines sample_commit_1 sample_commit_3 max_by_value
       max_by_value_from snd fst].
  destruct (Rltb (0 + 3 * retention 9) (0 + 5 * retention 1)) eqn:E1;
    [|apply Rltb_false in E1; lra].
  cbn [snd]. destruct (Rltb (0 + 5 * retention 1) (0 + 5 * retention 1))
    eqn:E2; [apply Rltb_true in E2; lra|].
  reflexivity.
Qed.

Example compute_author_empty INITIAL_TIMESTAMP :
  compute_author INITIAL_TIMESTAMP [] = Raise ValueError.
Proof. reflexivity. Qed.

Lemma contribution_value_from_bounds INITIAL_TIMESTAMP :
  forall cs value,
    Forall (fun c => (date c <= INITIAL_TIMESTAMP)%Z /\ (0 <= lines c)%Z)
      cs ->
    exists v,
      contribution_value_from INITIAL_TIMESTAMP value cs
      = Ok (value + v)%R /\
      (19 / 100 * IZR (sumZ (map lines cs)) <= v
       <= IZR (sumZ (map lines cs)))%R.
Proof.
  induction cs as [|c cs IH]; intros value Hall.
  - exists 0%R. simpl. change (sumZ []) with 0%Z.
    split; [now rewrite Rplus_0_r | lra].
  - inversion Hall as [|? ? [Hd Hl] Hall']; subst.
    cbn [contribution_value_from map]. rewrite compute_lines_value_ok.
    2:{ unfold age_days, timedelta_days. apply Z.div_pos; lia. }
    cbn [bind].
    set (w := (IZR (lines c)
               * retention (age_days INITIAL_TIMESTAMP c))%R).
    destruct (IH (value + w)%R Hall') as (v & Hv & Hb).
    exists (w + v)%R. split; [rewrite Hv; f_equal; lra|].
    rewrite sumZ_cons, plus_IZR.
    assert (Hr : (asymptote < retention (age_days INITIAL_TIMESTAMP c)
                  <= asymptote + (1 - asymptote) * b)%R).
    { apply retention_bounds. unfold age_days, timedelta_days.
      apply Z.div_pos; lia. }
    assert (HL : (0 <= IZR (lines c))%R) by now apply IZR_le.
    unfold asymptote, b in Hr. unfold w. nra.
Qed.

(** X13. The value of the commits of an author lies between 19% of their
    lines and all of their lines, when no commit is dated after the
    reference instant and no line count is negative. *)
Theorem compute_contribution_value_bounds
  (INITIAL_TIMESTAMP : datetime) (cs : list Commit) :
  Forall (fun c => (date c <= INITIAL_TIMESTAMP)%Z /\ (0 <= lines c)%Z)
    cs ->
  exists v,
    compute_contribution_value INITIAL_TIMESTAMP cs = Ok v /\
    (19 / 100 * IZR (sumZ (map lines cs)) <= v
     <= IZR (sumZ (map lines cs)))%R.
Proof.
  intros Hall. unfold compute_contribution_value.
  destruct (contribution_value_from_bounds 0%R Hall) as (v & Hv & Hb).
  exists v. split; [|exact Hb]. rewrite Hv. f_equal. lra.
Qed.

Lemma compute_contribution_value_witness :
  Forall (fun c => (date c <= sample_instant)%Z /\ (0 <= lines c)%Z)
    [sample_commit_1; sample_commit_3] /\
  exists v,
    compute_contribution_value sample_instant
      [sample_commit_1; sample_commit_3] = Ok v /\
    (19 / 100 * IZR (sumZ (map lines [sample_commit_1; sample_commit_3]))
     <= v <= IZR (sumZ (map lines [sample_commit_1; sample_commit_3])))%R.
Proof.
  assert (H : Forall (fun c => (date c <= sample_instant)%Z
                               /\ (0 <= lines c)%Z)
                [sample_commit_1; sample_commit_3]).
  { repeat constructor; vm_compute; discriminate. }
  split; [exact H|].
  exact (compute_contribution_value_bounds H).
Defined.

(** ** Identity resolution: shape of the result *)

Lemma use_mailmap_from_wf mail_to_mail :
  forall items mapped,
    dict_wf mapped -> dict_wf (use_mailmap_from items mail_to_mail mapped).
Proof.
  induction items as [|[e cs] items IH]; intros mapped Hwf; [exact Hwf|].
  rewrite use_mailmap_from_cons. apply IH. now apply dict_set_wf.
Qed.

Lemma use_mailmap_from_unmapped mail_to_mail :
  forall items mapped,
    NoDup (map fst (mapped ++ items)) ->
    (forall e, In e (map fst items) -> dict_get mail_to_mail e = None) ->
    use_mailmap_from items mail_to_mail mapped = mapped ++ items.
Proof.
  induction items as [|[e cs] items IH]; intros mapped Hnd Hun.
  - simpl. now rewrite app_nil_r.
  - rewrite use_mailmap_from_cons. unfold resolve.
    rewrite (Hun e) by now left.
    assert (Hfresh : ~ In e (map fst mapped)).
    { rewrite map_app in Hnd. simpl in Hnd. apply NoDup_remove_2 in Hnd.
      intros Hin. apply Hnd. apply in_or_app. now left. }
    unfold dict_get_list.
    rewrite (proj2 (dict_get_None mapped e) Hfresh). cbn [app].
    rewrite dict_set_fresh by exact Hfresh.
    rewrite IH.
    + now rewrite <- app_assoc.
    + now rewrite <- app_assoc.
    + intros e' He'. apply Hun. now right.
Qed.

(** X14. The result of [use_mailmap] has pairwise distinct identities, for
    every input; and when no email of the contributions is a key of the
    mail-to-mail mapping (an empty mailmap, or the naive one), resolution
    returns the contributions as they are, in the same order. *)
Theorem use_mailmap_unmapped_is_identity
  (contributions : dict AuthorCommits) (mail_to_mail : dict string) :
  dict_wf (use_mailmap contributions mail_to_mail) /\
  (dict_wf contributions ->
   (forall e, In e (map fst contributions) ->
      dict_get mail_to_mail e = None) ->
   use_mailmap contributions mail_to_mail = contributions).
Proof.
  split.
  - apply use_mailmap_from_wf. constructor.
  - intros Hwf Hun. unfold use_mailmap.
    now rewrite use_mailmap_from_unmapped.
Qed.

Lemma use_mailmap_unmapped_witness :
  dict_wf sample_contributions /\
  (forall e, In e (map fst sample_contributions) ->
     dict_get (@nil (string * string)) e = None) /\
  use_mailmap sample_contributions [] = sample_contributions.
Proof.
  assert (H1 : dict_wf sample_contributions) by dict_wf_tac.
  assert (H2 : forall e, In e (map fst sample_contributions) ->
                 dict_get (@nil (string * string)) e = None)
    by (intros; reflexivity).
  split; [exact H1|]. split; [exact H2|].
  exact (proj2 (use_mailmap_unmapped_is_identity sample_contributions [])
           H1 H2).
Defined.

Lemma compute_author_first_maximum_witness :
  tied_contributions <> [] /\
  Forall (fun c => (date c <= sample_instant)%Z)
    (all_commits tied_contributions) /\
  exists result,
    compute_author sample_instant tied_contributions = Ok result /\
    map fst (contributions result) = map fst tied_contributions /\
    exists pre v post,
      contributions result = pre ++ (author result, v) :: post /\
      (forall p, In p pre -> (snd p < v)%R) /\
      (forall p, In p post -> (snd p <= v)%R).
Proof.
  assert (H1 : tied_contributions <> []) by discriminate.
  assert (H2 : Forall (fun c => (date c <= sample_instant)%Z)
                 (all_commits tied_contributions))
    by (repeat constructor; vm_compute; discriminate).
  split; [exact H1|]. split; [exact H2|].
  exact (compute_author_first_maximum H1 H2).
Defined.

(** ** Splitting at one character *)

Section SplitChar.
Local Open Scope string_scope.
Variable c : ascii.

Lemma split_char_step cur d s :
  split_go (String c "") 0 cur (String d s)
  = if Ascii.eqb c d then cur :: split_go (String c "") 0 "" s
    else split_go (String c "") 0 (cur ++ String d "") s.
Proof.
  cbn [split_go String.prefix String.length Nat.sub].
  destruct (ascii_dec c d) as [->|Hne].
  - rewrite Ascii.eqb_refl. now destruct s.
  - apply Ascii.eqb_neq in Hne. now rewrite Hne.
Qed.

Lemma append_cons_assoc cur d s :
  (cur ++ String d "") ++ s = cur ++ String d s.
Proof. induction cur as [|x cur IH]; simpl; [reflexivity | now rewrite IH]. Qed.

Lemma append_nil_right (s : string) : s ++ "" = s.
Proof. induction s as [|x s IH]; simpl; [reflexivity | now rewrite IH]. Qed.

Lemma append_assoc (s t u : string) : (s ++ t) ++ u = s ++ t ++ u.
Proof. induction s as [|x s IH]; simpl; [reflexivity | now rewrite IH]. Qed.

(** A string without the separator is one piece. *)
Lemma split_char_none s :
  forall cur, contains_char c s = false ->
  split_go (String c "") 0 cur s = [cur ++ s].
Proof.
  induction s as [|d s IH]; intros cur H.
  - simpl. now rewrite append_nil_right.
  - simpl in H. apply orb_false_iff in H. destruct H as [Hd Hs].
    rewrite split_char_step, Hd, IH by exact Hs.
    now rewrite append_cons_assoc.
Qed.

(** The first piece ends at the first separator. *)
Lemma split_char_first s1 s2 :
  forall cur, contains_char c s1 = false ->
  split_go (String c "") 0 cur (s1 ++ String c s2)
  = (cur ++ s1) :: split_go (String c "") 0 "" s2.
Proof.
  induction s1 as [|d s1 IH]; intros cur H.
  - simpl append. rewrite split_char_step, Ascii.eqb_refl.
    now rewrite append_nil_right.
  - simpl in H. apply orb_false_iff in H. destruct H as [Hd Hs].
    simpl append. rewrite split_char_step, Hd, IH by exact Hs.
    now rewrite append_cons_assoc.
Qed.
End SplitChar.

(** ** The mailmap reader on well-formed lines *)

Section MailmapLines.
Local Open Scope string_scope.

Lemma split_bracketed :
  forall emails cur before,
    contains_char "<" before = false ->
    Forall (fun p => contains_char "<" (fst p) = false /\
                     contains_char "<" (snd p) = false) emails ->
    split_go "<" 0 cur (before ++ bracketed emails)
    = (cur ++ before) :: pieces emails.
Proof.
  induction emails as [|[e s] emails IH]; intros cur before Hb Hall.
  - cbn [bracketed pieces map]. rewrite append_nil_right.
    now apply split_char_none.
  - inversion Hall as [|? ? [He Hs] Hall']; subst. cbn [fst snd] in *.
    cbn [bracketed]. change ("<" ++ e ++ ">" ++ s ++ bracketed emails)
      with (String "<" (e ++ ">" ++ s ++ bracketed emails)).
    rewrite split_char_first by exact Hb.
    replace (e ++ ">" ++ s ++ bracketed emails)
      with ((e ++ ">" ++ s) ++ bracketed emails)
      by now rewrite !append_assoc.
    rewrite IH; [reflexivity | | exact Hall'].
    rewrite !contains_char_app, He, Hs. reflexivity.
Qed.

Lemma mails_of_pieces :
  forall emails,
    Forall (fun p => contains_char ">" (fst p) = false) emails ->
    mails_of (pieces emails) = Ok (map fst emails).
Proof.
  induction emails as [|[e s] emails IH]; intros Hall; [reflexivity|].
  inversion Hall as [|? ? He Hall']; subst. cbn [fst] in He.
  cbn [pieces map fst snd mails_of]. fold (pieces emails).
  rewrite contains_char_app. change (">" ++ s) with (String ">" s).
  cbn [contains_char]. rewrite Ascii.eqb_refl, orb_true_l, orb_true_r.
  unfold split.
  rewrite split_char_first by exact He. cbn [getitem nth_error bind append].
  rewrite IH by exact Hall'. reflexivity.
Qed.

Lemma skipped_cons d s :
  skipped (String d s)
  = Ascii.eqb d "#" || Ascii.eqb d (ascii_of_nat 10).
Proof.
  unfold skipped, startswith, nl. cbn [String.prefix].
  assert (Hp : String.prefix "" s = true) by now destruct s.
  rewrite Hp.
  destruct (ascii_dec "#" d) as [E1|H1].
  { subst d. reflexivity. }
  destruct (ascii_dec (ascii_of_nat 10) d) as [E2|H2].
  { subst d. reflexivity. }
  symmetry. apply orb_false_iff.
  split; apply Ascii.eqb_neq; congruence.
Qed.

(** What [read_mailmap] does with one line of a name followed by emails
    in angle brackets. *)
Lemma read_line_bracketed mail_to_mail mail_to_name before email after rest :
  no_brackets before ->
  Forall (fun p => no_brackets (fst p) /\ contains_char "<" (snd p) = false)
    ((email, after) :: rest) ->
  read_line (mail_to_mail, mail_to_name)
    (before ++ bracketed ((email, after) :: rest))
  = if skipped (before ++ bracketed ((email, after) :: rest))
    then Ok (mail_to_mail, mail_to_name)
    else Ok (map_aliases mail_to_mail (map fst rest) email,
             dict_set mail_to_name email (strip before)).
Proof.
  intros [Hb1 Hb2] Hall.
  set (line := before ++ bracketed ((email, after) :: rest)).
  assert (Hsplit : split "<" line = before :: pieces ((email, after) :: rest)).
  { unfold split, line. rewrite split_bracketed; [reflexivity | exact Hb1 |].
    eapply Forall_impl; [|exact Hall]. intros p [[H1 _] H2]. now split. }
  assert (Hmails : mails_of (split "<" line)
                   = Ok (email :: map fst rest)).
  { rewrite Hsplit. cbn [mails_of]. rewrite Hb2.
    rewrite mails_of_pieces; [reflexivity|].
    eapply Forall_impl; [|exact Hall]. intros p [[_ H1] _]. exact H1. }
  unfold read_line. rewrite Hmails, Hsplit.
  assert (Hline : exists d s, line = String d s).
  { unfold line. destruct before; cbn; eauto. }
  destruct Hline as (d & s & Hl). rewrite Hl.
  rewrite skipped_cons. unfold nl. cbn [str_index0 bind String.eqb].
  destruct (Ascii.eqb d "#"); [reflexivity|].
  destruct (Ascii.eqb d (ascii_of_nat 10)); reflexivity.
Qed.
End MailmapLines.

Lemma read_lines_app :
  forall l1 l2 acc,
    read_lines acc (l1 ++ l2)
    = (acc1 <- read_lines acc l1 ;; read_lines acc1 l2).
Proof.
  induction l1 as [|x l1 IH]; intros l2 acc; [reflexivity|].
  cbn [app read_lines]. destruct (read_line acc x); [|reflexivity].
  cbn [bind]. apply IH.
Qed.

Lemma map_aliases_other d aliases proper k :
  ~ In k aliases -> dict_get (map_aliases d aliases proper) k = dict_get d k.
Proof.
  unfold map_aliases. revert d.
  induction aliases as [|x l IH]; intros d Hk; [reflexivity|].
  simpl. rewrite IH by (intros H; apply Hk; now right).
  apply dict_get_set_other. intros ->. apply Hk. now left.
Qed.

(** X15. Reading back a mailmap entry. After any lines that were read without
    error, a line made of a name and emails in angle brackets (no angle
    bracket inside the name, the emails or the text between them; not
    starting with [#] or a newline) maps every email but the first to the
    first, leaves every key of the mail-to-mail mapping that is not among
    those later emails as it was (the first email gets no entry of its
    own, unless the line repeats it among the later ones), and records
    the stripped name under the first email. *)
Theorem read_mailmap_entry
  (earlier : list string) (mail_to_mail mail_to_name : dict string)
  (before email after : string) (rest : list (string * string)) :
  read_mailmap earlier = Ok (mail_to_mail, mail_to_name) ->
  no_brackets before ->
  Forall (fun p => no_brackets (fst p) /\ contains_char "<" (snd p) = false)
    ((email, after) :: rest) ->
  skipped (before ++ bracketed ((email, after) :: rest))%string = false ->
  exists mail_to_mail1 mail_to_name1,
    read_mailmap
      (earlier ++ [(before ++ bracketed ((email, after) :: rest))%string])
    = Ok (mail_to_mail1, mail_to_name1) /\
    (forall a, In a (map fst rest) ->
       dict_get mail_to_mail1 a = Some email) /\
    (forall k, ~ In k (map fst rest) ->
       dict_get mail_to_mail1 k = dict_get mail_to_mail k) /\
    dict_get mail_to_name1 email = Some (strip before) /\
    (forall k, k <> email ->
       dict_get mail_to_name1 k = dict_get mail_to_name k).
Proof.
  intros Hread Hb Hall Hskip. unfold read_mailmap in *.
  rewrite read_lines_app, Hread. cbn [bind read_lines].
  rewrite read_line_bracketed by assumption. rewrite Hskip. cbn [bind].
  do 2 eexists. split; [reflexivity|]. split; [|split; [|split]].
  - intros a Ha. now apply map_aliases_get.
  - intros k Hk. now apply map_aliases_other.
  - apply dict_get_set_same.
  - intros k Hk. apply dict_get_set_other. congruence.
Qed.

(** A line that repeats its first email maps it to itself. *)
Example read_mailmap_repeated_email :
  read_mailmap [("Cy <cy@x.org> <cy@x.org>" ++ nl)%string]
  = Ok ([("cy@x.org", "cy@x.org")], [("cy@x.org", "Cy")])%string.
Proof. vm_compute. reflexivity. Qed.

Lemma read_mailmap_entry_witness :
  read_mailmap [] = Ok ([], []) /\
  no_brackets "Jo Doe " /\
  skipped ("Jo Doe " ++ bracketed [("jo@x.org", " "); ("j@y.org", nl)])%string
  = false /\
  exists mail_to_mail1 mail_to_name1,
    read_mailmap
      ([] ++ [("Jo Doe "
               ++ bracketed [("jo@x.org", " "); ("j@y.org", nl)])%string])
    = Ok (mail_to_mail1, mail_to_name1) /\
    dict_get mail_to_mail1 "j@y.org" = Some "jo@x.org"%string /\
    dict_get mail_to_name1 "jo@x.org" = Some "Jo Doe"%string.
Proof.
  assert (H1 : read_mailmap [] = Ok ([], [])) by reflexivity.
  assert (H2 : no_brackets "Jo Doe ") by (split; reflexivity).
  assert (H3 : Forall (fun p => no_brackets (fst p)
                                /\ contains_char "<" (snd p) = false)
                 [("jo@x.org"%string, " "%string); ("j@y.org"%string, nl)]).
  { repeat constructor. }
  assert (H4 : skipped ("Jo Doe " ++ bracketed
                          [("jo@x.org", " "); ("j@y.org", nl)])%string
               = false) by reflexivity.
  split; [exact H1|]. split; [exact H2|]. split; [exact H4|].
  destruct (@read_mailmap_entry [] [] [] "Jo Doe " "jo@x.org" " "
              [("j@y.org"%string, nl)] H1 H2 H3 H4)
    as (m & n & Hr & Ha & _ & Hn & _).
  exists m, n. split; [exact Hr|]. split; [|exact Hn].
  apply Ha. now left.
Defined.

Lemma read_line_skipped acc contributor :
  skipped contributor = true -> read_line acc contributor = Ok acc.
Proof.
  destruct contributor as [|d s]; [discriminate|].
  rewrite skipped_cons. intros H. unfold read_line. destruct acc as [m n].
  unfold nl. cbn [str_index0 bind String.eqb].
  destruct (Ascii.eqb d "#"); [reflexivity|].
  destruct (Ascii.eqb d (ascii_of_nat 10)); [reflexivity | discriminate].
Qed.

(** X16. Comment lines and lines that begin with a newline have no effect
    wherever they stand: the mailmap without them reads to the same
    outcome. *)
Theorem read_mailmap_ignores_skipped_lines (git_mailmap : list string) :
  read_mailmap git_mailmap
  = read_mailmap (filter (fun line => negb (skipped line)) git_mailmap).
Proof.
  unfold read_mailmap.
  generalize (@nil (string * string), @nil (string * string)).
  induction git_mailmap as [|line l IH]; intros acc; [reflexivity|].
  cbn [filter]. destruct (skipped line) eqn:E; cbn [negb].
  - cbn [read_lines]. rewrite (read_line_skipped _ _ E). cbn [bind]. apply IH.
  - cbn [read_lines]. destruct (read_line acc line); [|reflexivity].
    cbn [bind]. apply IH.
Qed.

(** ** The naive mailmap *)

Section NaiveMailmap.
Local Open Scope string_scope.

Lemma no_brackets_app s t :
  no_brackets s -> no_brackets t -> no_brackets (s ++ t).
Proof.
  unfold no_brackets. intros [H1 H2] [H3 H4].
  rewrite !contains_char_app, H1, H2, H3, H4. now split.
Qed.

Lemma no_brackets_join (l : list string) :
  Forall no_brackets l -> no_brackets (join " " l).
Proof.
  induction 1 as [|x l Hx Hl IH]; [now split|].
  destruct l as [|y l]; [exact Hx|].
  change (join " " (x :: y :: l)) with (x ++ " " ++ join " " (y :: l)).
  apply no_brackets_app; [exact Hx|].
  apply no_brackets_app; [now split | exact IH].
Qed.

Lemma split_author_line name email :
  contains_char "|" name = false -> contains_char "|" email = false ->
  split "|" (author_line name email) = [name; "<" ++ email ++ ">"].
Proof.
  intros Hn He. unfold split, author_line.
  change (name ++ "|<" ++ email ++ ">")
    with (name ++ String "|" ("<" ++ email ++ ">")).
  rewrite split_char_first by exact Hn.
  rewrite split_char_none; [reflexivity|].
  change ("<" ++ email ++ ">") with (String "<" (email ++ ">")).
  cbn [contains_char]. rewrite contains_char_app, He. reflexivity.
Qed.

Lemma dict_get_In V (d : dict V) k v : dict_get d k = Some v -> In (k, v) d.
Proof.
  induction d as [|[k' v'] d IH]; simpl; [discriminate|].
  destruct (String.eqb k' k) eqn:E.
  - apply String.eqb_eq in E. intros H. injection H as <-. subst. now left.
  - intros H. right. now apply IH.
Qed.

Lemma dict_set_Forall V (P : string * V -> Prop) (d : dict V) k v :
  Forall P d -> P (k, v) -> Forall P (dict_set d k v).
Proof.
  intros Hd Hkv. induction Hd as [|[k' v'] d Hx Hd IH]; simpl.
  - now constructor.
  - destruct (String.eqb k' k) eqn:E.
    + apply String.eqb_eq in E. subst k'. now constructor.
    + now constructor.
Qed.

Lemma group_names_grouped :
  forall history mailmap,
    Forall plain_author history ->
    Forall grouped_entry mailmap ->
    exists mailmap1,
      group_names (map (fun p => author_line (fst p) (snd p)) history) mailmap
      = Ok mailmap1 /\
      Forall grouped_entry mailmap1.
Proof.
  induction history as [|[name email] history IH]; intros mailmap Ha Hm.
  - exists mailmap. now split.
  - inversion Ha as [|? ? (Hn1 & He1 & Hn2 & He2 & _) Ha']; subst.
    cbn [fst snd] in *. cbn [map group_names fst snd].
    rewrite split_author_line by assumption.
    cbn [getitem nth_error getlast rev app bind].
    apply IH; [exact Ha'|].
    destruct (dict_get mailmap ("<" ++ email ++ ">")) as [names|] eqn:E.
    + apply dict_set_Forall; [exact Hm|].
      apply dict_get_In in E.
      pose proof (proj1 (Forall_forall _ _) Hm _ E) as (Hk & Hne & Hall).
      cbn [fst snd] in *. split; [exact Hk|]. split.
      * destruct names; discriminate.
      * apply Forall_app. split; [exact Hall | now constructor].
    + apply dict_set_Forall; [exact Hm|].
      split; [now exists email|]. split; [discriminate | now constructor].
Qed.

Lemma sort_by_len_perm (names : list string) :
  Permutation (sort_by_len names) names.
Proof.
  unfold sort_by_len.
  rewrite (Permutation_map fst (sorted_desc_perm Nat.ltb _)).
  rewrite map_map. cbn [fst]. now rewrite map_id.
Qed.

Lemma mailmap_line_naive mail names :
  grouped_entry (mail, names) ->
  exists line, mailmap_line mail names = Ok line /\ naive_line (line ++ nl).
Proof.
  intros ((e & Hk & He) & Hne & Hall). cbn [fst snd] in *. subst mail.
  unfold mailmap_line.
  pose proof (sort_by_len_perm names) as Hp.
  assert (Hall' : Forall no_brackets (sort_by_len names)).
  { eapply Permutation_Forall; [symmetry; exact Hp | exact Hall]. }
  destruct (sort_by_len names) as [|n0 rest] eqn:Es.
  { exfalso. apply Hne. apply Permutation_nil. exact Hp. }
  inversion Hall' as [|? ? Hn0 Hrest]; subst.
  cbn [getitem nth_error bind tl].
  destruct (1 <? List.length (n0 :: rest))%nat.
  - eexists. split; [reflexivity|].
    exists (n0 ++ " "), e, (" " ++ join " " rest ++ nl).
    split; [|split; [|split]].
    + cbn [bracketed]. rewrite !append_assoc, append_nil_right. reflexivity.
    + apply no_brackets_app; [exact Hn0 | now split].
    + exact He.
    + change (" " ++ join " " rest ++ nl)
        with (String " " (join " " rest ++ nl)).
      cbn [contains_char]. rewrite contains_char_app.
      rewrite (proj1 (no_brackets_join Hrest)). reflexivity.
  - eexists. split; [reflexivity|].
    exists (n0 ++ " "), e, nl.
    split; [|split; [|split]].
    + cbn [bracketed]. rewrite !append_assoc, append_nil_right. reflexivity.
    + apply no_brackets_app; [exact Hn0 | now split].
    + exact He.
    + reflexivity.
Qed.

Lemma map_mail_to_names_naive (mailmap : dict (list string)) :
  Forall grouped_entry mailmap ->
  exists naive_mail_map,
    map_mail_to_names mailmap = Ok naive_mail_map /\
    Forall naive_line (map (fun line => line ++ nl) naive_mail_map).
Proof.
  intros H. induction H as [|kv rest Hx Hm IH].
  - exists []. split; [reflexivity | constructor].
  - destruct IH as (ls & Hls & Hall). destruct kv as [mail names].
    destruct (mailmap_line_naive Hx) as (line & Hline & Hn).
    exists (line :: ls). cbn [map_mail_to_names]. rewrite Hline, Hls.
    split; [reflexivity | now constructor].
Qed.

Lemma read_lines_naive :
  forall naive mail_to_mail mail_to_name,
    Forall naive_line naive ->
    exists mail_to_name1,
      read_lines (mail_to_mail, mail_to_name) naive
      = Ok (mail_to_mail, mail_to_name1).
Proof.
  induction naive as [|line naive IH]; intros m n Hall.
  - now exists n.
  - pose proof (Forall_inv_tail Hall) as Hall'.
    destruct (Forall_inv Hall) as (before & e & after & Hl & Hb & He & Ha).
    cbn [read_lines]. rewrite Hl, read_line_bracketed.
    + destruct (skipped _); cbn [bind map map_aliases fold_left];
        now apply IH.
    + exact Hb.
    + repeat constructor; [apply He | apply He | exact Ha].
Qed.

(** X17. The naive mailmap never merges two emails. For a commit-author
    history of lines [name|<email>] (no [|], no angle bracket and no
    line break inside the names and the emails) [format_author_output]
    raises nothing, and
    reading back the lines that [create_naive_mailmap] writes gives an
    empty mail-to-mail mapping. *)
Theorem naive_mailmap_never_merges (history : list (string * string)) :
  Forall plain_author history ->
  exists naive mail_to_name,
    naive_mailmap_lines (map (fun p => author_line (fst p) (snd p)) history)
    = Ok naive /\
    read_mailmap naive = Ok ([], mail_to_name).
Proof.
  intros Ha.
  destruct (@group_names_grouped history [] Ha (Forall_nil _))
    as (mailmap & Hg & Hm).
  destruct (map_mail_to_names_naive Hm) as (ls & Hls & Hall).
  destruct (@read_lines_naive _ [] [] Hall) as (n & Hn).
  exists (map (fun line => line ++ nl) ls), n.
  unfold naive_mailmap_lines, format_author_output.
  rewrite Hg. cbn [bind]. rewrite Hls. cbn [bind].
  split; [reflexivity | exact Hn].
Qed.
End NaiveMailmap.

Lemma naive_mailmap_witness :
  Forall plain_author
    [("Al", "a@x.org"); ("Alice Long", "a@x.org"); ("Bob", "b@x.org")]%string /\
  exists naive mail_to_name,
    naive_mailmap_lines
      (map (fun p => author_line (fst p) (snd p))
         [("Al", "a@x.org"); ("Alice Long", "a@x.org");
          ("Bob", "b@x.org")]%string)
    = Ok naive /\
    read_mailmap naive = Ok ([], mail_to_name).
Proof.
  assert (H : Forall plain_author
                [("Al", "a@x.org"); ("Alice Long", "a@x.org");
                 ("Bob", "b@x.org")]%string).
  { repeat constructor. }
  split; [exact H|].
  exact (naive_mailmap_never_merges H).
Defined.

(** ** Chunks of the file list *)

Section Chunks.
Variable A : Type.

Lemma range_from_chunks (l : list A) (step : nat) :
  (1 <= step)%nat ->
  forall fuel i,
    (List.length l - i <= fuel)%nat ->
    let starts := range_from fuel i (List.length l) step in
    List.concat (map (fun j => slice l j (j + step)) starts) = skipn i l /\
    Forall (fun c => (1 <= List.length c <= step)%nat)
      (map (fun j => slice l j (j + step)) starts) /\
    ((List.length l <= i)%nat -> starts = []) /\
    ((i < List.length l)%nat ->
     ((List.length starts - 1) * step < List.length l - i
      <= List.length starts * step)%nat).
Proof.
  intros Hstep. induction fuel as [|fuel IH]; intros i Hfuel starts.
  - unfold starts. cbn [range_from map List.concat].
    split; [|split; [constructor | split; [reflexivity | lia]]].
    symmetry. apply skipn_all2. lia.
  - unfold starts. cbn [range_from].
    destruct (i <? List.length l)%nat eqn:E.
    + apply Nat.ltb_lt in E.
      destruct (IH (i + step)%nat) as (Hc & Hf & Hnil & Hcount); [lia|].
      cbn [map List.concat]. rewrite Hc.
      split; [|split; [|split]].
      * unfold slice. replace (i + step - i)%nat with step by lia.
        rewrite (Nat.add_comm i step), <- skipn_skipn.
        apply firstn_skipn.
      * constructor; [|exact Hf].
        unfold slice. rewrite length_firstn, length_skipn. lia.
      * lia.
      * intros _. cbn [List.length].
        destruct (Nat.le_gt_cases (List.length l) (i + step)) as [Hle|Hgt].
        -- rewrite (Hnil Hle). cbn [List.length]. lia.
        -- specialize (Hcount Hgt).
           destruct (List.length (range_from fuel (i + step)
                                    (List.length l) step)); nia.
    + apply Nat.ltb_ge in E. cbn [map List.concat].
      split; [|split; [constructor | split; [reflexivity | lia]]].
      symmetry. apply skipn_all2. lia.
Qed.

Lemma chunks_positive (lst : list A) (n : Z) :
  (0 < n)%Z ->
  exists cs,
    chunks lst n = Ok cs /\
    List.concat cs = lst /\
    Forall (fun c => (1 <= Z.of_nat (List.length c) <= n)%Z) cs /\
    Z.of_nat (List.length cs) = ceil_div (Z.of_nat (List.length lst)) n.
Proof.
  unfold chunks, range0.
  intros Hn. destruct (n =? 0)%Z eqn:E0; [apply Z.eqb_eq in E0; lia|].
  destruct (n <? 0)%Z eqn:E1; [apply Z.ltb_lt in E1; lia|].
  cbn [bind].
  assert (Hstep : (1 <= Z.to_nat n)%nat) by lia.
  destruct (@range_from_chunks lst (Z.to_nat n) Hstep (List.length lst) 0%nat)
    as (Hc & Hf & Hnil & Hcount); [lia|].
  eexists. split; [reflexivity|]. split; [exact Hc|]. split.
  - eapply Forall_impl; [|exact Hf]. intros c Hc'. cbv beta in Hc'. lia.
  - rewrite length_map. unfold ceil_div. cbv zeta in Hnil, Hcount.
    destruct (Nat.eq_dec (List.length lst) 0) as [Hz|Hnz].
    + rewrite Hnil by lia. rewrite Hz. cbn [List.length].
      symmetry. apply Z.div_small. lia.
    + assert (Hlt : (0 < List.length lst)%nat) by lia.
      specialize (Hcount Hlt).
      set (k := List.length (range_from (List.length lst) 0
                               (List.length lst) (Z.to_nat n))) in *.
      apply (Z.div_unique _ _ _
               (Z.of_nat (List.length lst) + n - 1 - Z.of_nat k * n)).
      * left. nia.
      * lia.
Qed.

(** X18. [chunks] cuts a list into consecutive pieces that put together give
    the list back; every piece holds between 1 and [n] elements and there
    are [ceil(len / n)] of them. A size of zero raises (the step of
    [range]), a negative size gives no piece at all. *)
Theorem chunks_partition (lst : list A) (n : Z) :
  (n = 0%Z -> chunks lst n = Raise ValueError) /\
  ((n < 0)%Z -> chunks lst n = Ok []) /\
  ((0 < n)%Z ->
   exists cs,
     chunks lst n = Ok cs /\
     List.concat cs = lst /\
     Forall (fun c => (1 <= Z.of_nat (List.length c) <= n)%Z) cs /\
     Z.of_nat (List.length cs) = ceil_div (Z.of_nat (List.length lst)) n).
Proof.
  split; [|split].
  - intros ->. reflexivity.
  - intros Hn. unfold chunks, range0.
    destruct (n =? 0)%Z eqn:E0; [apply Z.eqb_eq in E0; lia|].
    destruct (n <? 0)%Z eqn:E1; [reflexivity|].
    apply Z.ltb_ge in E1. lia.
  - apply chunks_positive.
Qed.

(** X19. The chunks that [generate_blame_logs] hands to its threads: for at
    least one file and at least one processor the chunk size is at least
    1, so [chunks] does not raise; the chunks put together are the file
    list, and there are at most as many chunks as processors. For an
    empty file list the chunk size is 0 and [chunks] raises. *)
Theorem file_chunks_at_most_cpu_count (files : list A) (cpu_count : Z) :
  (1 <= cpu_count)%Z ->
  (files = [] -> file_chunks files cpu_count = Raise ValueError) /\
  (files <> [] ->
   exists cs,
     file_chunks files cpu_count = Ok cs /\
     List.concat cs = files /\
     Forall (fun c => c <> []) cs /\
     (Z.of_nat (List.length cs) <= cpu_count)%Z).
Proof.
  intros Hcpu. unfold file_chunks. split.
  - intros ->. cbn [List.length]. unfold ceil_div.
    replace ((Z.of_nat 0 + cpu_count - 1) / cpu_count)%Z with 0%Z.
    + reflexivity.
    + symmetry. apply Z.div_small. lia.
  - intros Hne.
    set (len := Z.of_nat (List.length files)).
    assert (Hlen : (1 <= len)%Z).
    { unfold len. destruct files; [congruence | cbn [List.length]; lia]. }
    assert (Hsize : (1 <= ceil_div len cpu_count)%Z).
    { unfold ceil_div. apply Z.div_le_lower_bound; lia. }
    assert (Hceil : (len <= cpu_count * ceil_div len cpu_count)%Z).
    { unfold ceil_div.
      pose proof (Z.div_mod (len + cpu_count - 1) cpu_count).
      pose proof (Z.mod_pos_bound (len + cpu_count - 1) cpu_count). lia. }
    destruct (@chunks_positive files (ceil_div len cpu_count))
      as (cs & Hcs & Hc & Hf & Hk); [lia|].
    exists cs. split; [exact Hcs|]. split; [exact Hc|]. split.
    + eapply Forall_impl; [|exact Hf]. intros c Hc' ->. simpl in Hc'. lia.
    + fold len in Hk. set (s := ceil_div len cpu_count) in *.
      set (k := Z.of_nat (List.length cs)) in *.
      assert (Hks : ((k - 1) * s < len)%Z).
      { unfold ceil_div in Hk.
        pose proof (Z.div_mod (len + s - 1) s).
        pose proof (Z.mod_pos_bound (len + s - 1) s). nia. }
      nia.
Qed.
End Chunks.

Lemma chunks_partition_witness :
  (0 < 3)%Z /\
  exists cs,
    chunks [1; 2; 3; 4; 5; 6; 7]%nat 3 = Ok cs /\
    List.concat cs = [1; 2; 3; 4; 5; 6; 7]%nat.
Proof.
  assert (H : (0 < 3)%Z) by lia.
  split; [exact H|].
  destruct (proj2 (proj2 (chunks_partition [1; 2; 3; 4; 5; 6; 7]%nat 3)) H)
    as (cs & H1 & H2 & _).
  exists cs. split; [exact H1 | exact H2].
Defined.

Lemma file_chunks_witness :
  (1 <= 4)%Z /\ [1; 2; 3; 4; 5; 6; 7]%nat <> [] /\
  exists cs,
    file_chunks [1; 2; 3; 4; 5; 6; 7]%nat 4 = Ok cs /\
    (Z.of_nat (List.length cs) <= 4)%Z.
Proof.
  assert (H1 : (1 <= 4)%Z) by lia.
  assert (H2 : [1; 2; 3; 4; 5; 6; 7]%nat <> []) by discriminate.
  split; [exact H1|]. split; [exact H2|].
  destruct (proj2 (@file_chunks_at_most_cpu_count nat
                     [1; 2; 3; 4; 5; 6; 7]%nat 4 H1) H2)
    as (cs & Hcs & _ & _ & Hk).
  exists cs. split; [exact Hcs | exact Hk].
Defined.

(** ** The truck factors of the two tallies *)

Lemma sumZ_nil_tally (authored_files : dict Z) :
  (sumZ (map snd authored_files) <> 0)%Z -> authored_files <> [].
Proof. intros H ->. apply H. reflexivity. Qed.

(** X20. [compute_truck_factor] on tallies with pairwise distinct identities:
    it returns two non-empty lists when the files and the knowledge both
    sum to more than zero; it raises [ZeroDivisionError] when a non-empty
    knowledge tally sums to zero, or a non-empty authorship tally does;
    on two empty tallies it returns two empty lists. *)
Theorem compute_truck_factor_outcome
  (knowledge_base : dict R) (authored_files : dict Z) :
  dict_wf authored_files -> dict_wf knowledge_base ->
  ((0 < sumZ (map snd authored_files))%Z ->
   (0 < sumR (map snd knowledge_base))%R ->
   exists file_tf knowledge_tf,
     compute_truck_factor knowledge_base authored_files
     = Ok (file_tf, knowledge_tf) /\
     file_tf <> [] /\ knowledge_tf <> []) /\
  (knowledge_base <> [] -> sumR (map snd knowledge_base) = 0%R ->
   compute_truck_factor knowledge_base authored_files
   = Raise ZeroDivisionError) /\
  (authored_files <> [] -> sumZ (map snd authored_files) = 0%Z ->
   compute_truck_factor knowledge_base authored_files
   = Raise ZeroDivisionError) /\
  compute_truck_factor [] [] = Ok ([], []).
Proof.
  intros Hwa Hwk. unfold compute_truck_factor.
  split; [|split; [|split]].
  - intros Ha Hk.
    destruct (@file_authorship_selector_returns
                (sumZ (map snd authored_files)) authored_files
                default_critical_loss)
      as (ftf & Hf & Hsf); [lia | apply sumZ_nil_tally; lia | exact Hwa |].
    destruct (@knowledge_base_selector_returns
                (sumR (map snd knowledge_base)) knowledge_base
                default_critical_loss)
      as (ktf & Hkk & Hsk); [lra | | exact Hwk |].
    { intros ->. unfold sumR in Hk. simpl in Hk. lra. }
    exists ftf, ktf. rewrite Hf, Hkk. cbn [bind].
    split; [reflexivity|]. split; assumption.
  - intros Hne Hz. rewrite Hz.
    rewrite (knowledge_base_zero_total default_critical_loss Hne).
    destruct authored_files as [|x l] eqn:El; [reflexivity|].
    rewrite <- El in *.
    destruct (Z.eq_dec (sumZ (map snd authored_files)) 0) as [E|E].
    + rewrite E, file_authorship_zero_total; [reflexivity|].
      rewrite El. discriminate.
    + destruct (@file_authorship_selector_returns
                  (sumZ (map snd authored_files)) authored_files
                  default_critical_loss)
        as (ftf & Hf & _); [exact E | rewrite El; discriminate | exact Hwa |].
      rewrite Hf. reflexivity.
  - intros Hne Hz. rewrite Hz.
    now rewrite (file_authorship_zero_total default_critical_loss Hne).
  - reflexivity.
Qed.

Lemma compute_truck_factor_witness :
  dict_wf sample_authored_files /\ dict_wf sample_knowledge_base /\
  (0 < sumZ (map snd sample_authored_files))%Z /\
  (0 < sumR (map snd sample_knowledge_base))%R /\
  exists file_tf knowledge_tf,
    compute_truck_factor sample_knowledge_base sample_authored_files
    = Ok (file_tf, knowledge_tf) /\
    file_tf <> [] /\ knowledge_tf <> [].
Proof.
  assert (H1 : dict_wf sample_authored_files) by dict_wf_tac.
  assert (H2 : dict_wf sample_knowledge_base) by dict_wf_tac.
  assert (H3 : (0 < sumZ (map snd sample_authored_files))%Z)
    by (vm_compute; reflexivity).
  assert (H4 : (0 < sumR (map snd sample_knowledge_base))%R)
    by (unfold sumR; simpl; lra).
  split; [exact H1|]. split; [exact H2|]. split; [exact H3|].
  split; [exact H4|].
  exact (proj1 (@compute_truck_factor_outcome sample_knowledge_base
                  sample_authored_files H1 H2) H3 H4).
Defined.

(** ** A repository of empty files *)

Lemma ownership_from_empty_logs INITIAL_TIMESTAMP :
  (0 <= INITIAL_TIMESTAMP)%Z ->
  forall path_to_blame_logs k,
    Forall (fun fl => snd fl = []) path_to_blame_logs ->
    ownership_from INITIAL_TIMESTAMP [] path_to_blame_logs
      ([(""%string, k)], [(""%string, 0%R)])
    = Ok ([(""%string, (k + Z.of_nat (List.length path_to_blame_logs))%Z)],
          [(""%string, 0%R)]).
Proof.
  intros Hts. induction path_to_blame_logs as [|[file log] rest IH];
    intros k Hall.
  - cbn. now rewrite Z.add_0_r.
  - pose proof (Forall_inv Hall) as Hlog. cbn [snd] in Hlog. subst log.
    cbn [ownership_from].
    rewrite compute_knowledge_ownership_empty_log by exact Hts.
    cbn. replace (0 + 0)%R with 0%R by lra.
    rewrite IH by exact (Forall_inv_tail Hall).
    do 4 f_equal. lia.
Qed.

(** X21. A run over blame logs that are all empty (a repository of empty
    files) ends in a division by zero: [compute_ownership] returns the
    empty identity as the author of every file with a knowledge of 0, and
    [compute_truck_factor] raises on the total knowledge of 0. *)
Theorem empty_files_make_truck_factor_raise
  (INITIAL_TIMESTAMP : datetime)
  (path_to_blame_logs : list (string * list string)) :
  (0 <= INITIAL_TIMESTAMP)%Z ->
  path_to_blame_logs <> [] ->
  Forall (fun fl => snd fl = []) path_to_blame_logs ->
  compute_ownership INITIAL_TIMESTAMP [] path_to_blame_logs
  = Ok ([(""%string, Z.of_nat (List.length path_to_blame_logs))],
        [(""%string, 0%R)]) /\
  compute_truck_factor [(""%string, 0%R)]
    [(""%string, Z.of_nat (List.length path_to_blame_logs))]
  = Raise ZeroDivisionError.
Proof.
  intros Hts Hne Hall. split.
  - destruct path_to_blame_logs as [|[file log] rest]; [congruence|].
    pose proof (Forall_inv Hall) as Hlog. cbn [snd] in Hlog. subst log.
    unfold compute_ownership. cbn [read_mailmap read_lines bind fst].
    cbn [ownership_from].
    rewrite compute_knowledge_ownership_empty_log by exact Hts.
    cbn [bind]. cbn.
    etransitivity;
      [apply ownership_from_empty_logs;
       [exact Hts | exact (Forall_inv_tail Hall)]|].
    do 4 f_equal. lia.
  - unfold compute_truck_factor.
    set (n := Z.of_nat (List.length path_to_blame_logs)).
    assert (Hn : (0 < n)%Z).
    { unfold n. destruct path_to_blame_logs; [congruence|].
      cbn [List.length]. lia. }
    destruct (@file_authorship_selector_returns
                (sumZ (map snd [(""%string, n)])) [(""%string, n)]
                default_critical_loss) as (ftf & Hf & _).
    { unfold sumZ. simpl. lia. }
    { discriminate. }
    { repeat constructor. intros []. }
    rewrite Hf. cbn [bind].
    replace (sumR (map snd [(""%string, 0%R)])) with 0%R
      by (unfold sumR; simpl; lra).
    rewrite knowledge_base_zero_total by discriminate. reflexivity.
Qed.

Lemma empty_files_witness :
  (0 <= 0)%Z /\
  [("a.py.log"%string, @nil string); ("b.py.log"%string, [])] <> [] /\
  compute_ownership 0%Z []
    [("a.py.log"%string, @nil string); ("b.py.log"%string, [])]
  = Ok ([(""%string, 2%Z)], [(""%string, 0%R)]).
Proof.
  assert (H1 : (0 <= 0)%Z) by lia.
  assert (H2 : [("a.py.log"%string, @nil string); ("b.py.log"%string, [])]
               <> []) by discriminate.
  assert (H3 : Forall (fun fl : string * list string => snd fl = [])
                 [("a.py.log"%string, @nil string); ("b.py.log"%string, [])])
    by (repeat constructor).
  split; [exact H1|]. split; [exact H2|].
  exact (proj1 (@empty_files_make_truck_factor_raise 0%Z _ H1 H2 H3)).
Defined.

Lemma read_line_without_email_witness :
  "J"%char <> "#"%char /\ "J"%char <> ascii_of_nat 10 /\
  contains_char ">" "John Doe" = false /\
  read_line ([], []) "John Doe" = Raise IndexError.
Proof.
  assert (H1 : "J"%char <> "#"%char) by discriminate.
  assert (H2 : "J"%char <> ascii_of_nat 10) by discriminate.
  assert (H3 : contains_char ">" "John Doe" = false) by reflexivity.
  split; [exact H1|]. split; [exact H2|]. split; [exact H3|].
  exact (@read_line_without_email ([], []) "J"%char "ohn Doe" H1 H2 H3).
Defined.
